(** * intersim: path-following vehicle dynamics and collision detection

    A shallow embedding of [intersim/collisions.py] and of the state
    integrator, projector and path generator of
    [intersim/envs/simulator.py], with the properties of the written
    specification stated and settled against it.

    Numeric model.  A torch tensor element is a [tfloat]: either the
    not-a-number sentinel [NaN] or a finite value [Fin r], [r] a real number.
    Arithmetic on finite values is exact (rounding and overflow to an infinity
    are outside the model); [NaN] is absorbing for arithmetic, and every
    comparison with [NaN] is false, as in IEEE 754.

    Tensors are lists: an (nv,) tensor is a [list tfloat], the (nv,2) arc
    state a list of pairs, the (nv,5) projected state a list of 5-tuples,
    an (nv,nv) matrix a list of rows.  Whole-array operations become [fmap]
    and [zip_with]; the theorems that need agreeing shapes say so.

    Effects.  A method that may raise returns an [option], [None] standing
    for the exception; [step], which assigns to fields of the simulator
    before and after the point where it may raise, returns the simulator it
    leaves behind together with an [outcome]. *)

From Stdlib Require Import Reals Lra Lia.
From stdpp Require Import base list.

Open Scope R_scope.

(** ** Tensor elements *)

Inductive tfloat : Type :=
  | NaN : tfloat
  | Fin (r : R) : tfloat.

#[global] Instance tfloat_inhabited : Inhabited tfloat := populate NaN.

Definition isnan (a : tfloat) : bool :=
  match a with NaN => true | Fin _ => false end.

Definition lift1 (f : R -> R) (a : tfloat) : tfloat :=
  match a with Fin x => Fin (f x) | NaN => NaN end.

Definition lift2 (f : R -> R -> R) (a b : tfloat) : tfloat :=
  match a, b with Fin x, Fin y => Fin (f x y) | _, _ => NaN end.

Definition fadd : tfloat -> tfloat -> tfloat := lift2 Rplus.
Definition fsub : tfloat -> tfloat -> tfloat := lift2 Rminus.
Definition fmul : tfloat -> tfloat -> tfloat := lift2 Rmult.
Definition fdiv : tfloat -> tfloat -> tfloat := lift2 Rdiv.
Definition fneg : tfloat -> tfloat := lift1 Ropp.
Definition fcos : tfloat -> tfloat := lift1 cos.
Definition fsin : tfloat -> tfloat := lift1 sin.

(** Comparisons: false as soon as one side is [NaN]. *)
Definition fle (a b : tfloat) : bool :=
  match a, b with
  | Fin x, Fin y => if Rle_dec x y then true else false
  | _, _ => false
  end.

Definition fgt (a b : tfloat) : bool :=
  match a, b with
  | Fin x, Fin y => if Rlt_dec y x then true else false
  | _, _ => false
  end.

(** [Tensor.clamp(lo, hi)] is [min(max(x, lo), hi)] and keeps [NaN];
    [clamp(0., inf)] has no upper bound. *)
Definition clamp (lo hi : R) (a : tfloat) : tfloat :=
  lift1 (fun x => Rmin (Rmax x lo) hi) a.

Definition clamp_min (lo : R) (a : tfloat) : tfloat :=
  lift1 (fun x => Rmax x lo) a.

Declare Scope tfloat_scope.
Delimit Scope tfloat_scope with tf.
Bind Scope tfloat_scope with tfloat.
Infix "+" := fadd : tfloat_scope.
Infix "-" := fsub : tfloat_scope.
Infix "*" := fmul : tfloat_scope.
Infix "/" := fdiv : tfloat_scope.

(** ** Heading wrap *)

(** [torch.remainder x m]: the remainder with the sign of the divisor,
    [x - m * floor (x / m)]. *)
Definition remainder (x m : R) : R := x - m * IZR (Int_part (x / m)).

(** Modelled from the spec: [to_circle] of [intersim.utils], which is not part
    of the sources at hand.  The heading is wrapped by the canonical reduction
    [((psi + pi) mod 2 pi) - pi], the [mod] returning a non-negative
    remainder. *)
Definition to_circle (psi : tfloat) : tfloat :=
  lift1 (fun x => remainder (x + PI) (2 * PI) - PI) psi.

(** ** collisions.py *)

(** A point or direction of the plane, a polygon as shapely receives it (the
    list of its corners), and one row of the (nv,5) projected state
    [x, y, v, psi, psidot]. *)
Abbreviation Vec2 := (tfloat * tfloat)%type.
Abbreviation Polygon := (list (tfloat * tfloat)).
Abbreviation Pose := (tfloat * tfloat * tfloat * tfloat * tfloat)%type.

Definition vadd (p q : Vec2) : Vec2 := (p.1 + q.1, p.2 + q.2)%tf.
Definition vsub (p q : Vec2) : Vec2 := (p.1 - q.1, p.2 - q.2)%tf.
Definition vscale (k : tfloat) (p : Vec2) : Vec2 := (k * p.1, k * p.2)%tf.

Definition pose_x (x : Pose) : tfloat := x.1.1.1.1.

Definition state_to_polygon (x : Pose) (li wi : tfloat) : Polygon :=
  let '(px, py, v, psi, psidot) := x in
  let pxy := (px, py) in
  let c := fcos psi in
  let s := fsin psi in
  let lon := (c, s) in
  let lat := (fneg s, c) in
  let half_l := vscale (li / Fin 2) lon in
  let half_w := vscale (wi / Fin 2) lat in
  let ul := vadd (vadd pxy half_l) half_w in
  let ur := vsub (vadd pxy half_l) half_w in
  let ll := vadd (vsub pxy half_l) half_w in
  let lr := vsub (vsub pxy half_l) half_w in
  [ll; lr; ur; ul].

(** Boolean-mask indexing [l[mask]] and [torch.where(mask)[0]]. *)
Fixpoint mask_select {A : Type} (l : list A) (mask : list bool) : list A :=
  match l, mask with
  | a :: l', b :: mask' =>
      if b then a :: mask_select l' mask' else mask_select l' mask'
  | _, _ => []
  end.

Fixpoint where_from (k : nat) (mask : list bool) : list nat :=
  match mask with
  | [] => []
  | b :: mask' =>
      if b then k :: where_from (S k) mask' else where_from (S k) mask'
  end.

Definition torch_where (mask : list bool) : list nat := where_from 0 mask.

Definition zip3_with {A B C D : Type} (f : A -> B -> C -> D)
    (l : list A) (k : list B) (m : list C) : list D :=
  zip_with (fun ab c => f ab.1 ab.2 c) (zip l k) m.

Definition states_to_polygons (x : list Pose) (lengths widths : list tfloat)
  : list Polygon * list nat :=
  let nni := (fun x_ => negb (isnan (pose_x x_))) <$> x in
  let vp :=
    zip3_with state_to_polygon
      (mask_select x nni) (mask_select lengths nni) (mask_select widths nni) in
  let inds := torch_where nni in
  (vp, inds).

(** (nv,nv) tensors.  The entries the code stores are the floats 0 and 1 and
    sums of them over the frames of a trajectory: natural numbers here.
    [mset c i j v] is the assignment [c[i,j] = v]; the where-indices it is
    called with always lie inside the matrix. *)
Abbreviation Matrix := (list (list nat)).

Definition zeros (n m : nat) : Matrix := replicate n (replicate m 0%nat).

Definition mset (c : Matrix) (i j : nat) (v : nat) : Matrix :=
  alter (fun row => <[j := v]> row) i c.

Definition entry {A : Type} (c : list (list A)) (i j : nat) : option A :=
  c !! i ≫= fun row => row !! j.

(** Broadcasting: an (nv,n) tensor against an (nv,1) column; a function on
    every element; two (nv,n) tensors element by element. *)
Definition bcast_col {A B C : Type} (f : A -> B -> C)
    (m : list (list A)) (col : list B) : list (list C) :=
  zip_with (fun row c => (fun a => f a c) <$> row) m col.

Definition map2d {A B : Type} (f : A -> B) (m : list (list A))
  : list (list B) :=
  (fun row : list A => f <$> row) <$> m.

Definition ew2 {A B C : Type} (f : A -> B -> C)
    (m1 : list (list A)) (m2 : list (list B)) : list (list C) :=
  zip_with (zip_with f) m1 m2.

Definition madd (c d : Matrix) : Matrix := ew2 Nat.add c d.

Definition count_nonzero (c : Matrix) : nat :=
  sum_list ((fun row => length (filter (fun v => v ≠ 0%nat) row)) <$> c).

(** [x.shape[1]] of a (T,nv,5) tensor held as a list of frames; with no
    frame the accumulator below is a zero matrix of whatever size. *)
Definition shape1 (x : list (list Pose)) : nat :=
  match x with [] => 0 | x0 :: _ => length x0 end.

Section Collisions.

(** [Polygon.intersects] of shapely, the geometric predicate the module
    calls and does not define. *)
Variable intersects : Polygon -> Polygon -> bool.

Definition collision_matrix (x : list Pose) (lengths widths : list tfloat)
  : Matrix :=
  let nv0 := length lengths in
  let c_mat := zeros nv0 nv0 in
  let '(polys_t, nni_t) := states_to_polygons x lengths widths in
  let nv := length polys_t in
  foldl (fun c_mat i =>
    foldl (fun c_mat j =>
      if intersects (polys_t !!! i) (polys_t !!! j)
      then mset (mset c_mat (nni_t !!! i) (nni_t !!! j) 1)
                (nni_t !!! j) (nni_t !!! i) 1
      else c_mat)
      c_mat (seq 0 i))
    c_mat (seq 1 (nv - 1)).

Definition count_collisions_trajectory
    (x : list (list Pose)) (lengths widths : list tfloat) : nat :=
  let nv0 := shape1 x in
  let cols := zeros nv0 nv0 in
  let cols :=
    foldl (fun cols x_t => madd cols (collision_matrix x_t lengths widths))
      cols x in
  (count_nonzero cols / 2)%nat.

Definition count_collisions (x : list Pose) (lengths widths : list tfloat)
  : nat :=
  let cols := collision_matrix x lengths widths in
  (count_nonzero cols / 2)%nat.

Definition check_collisions (x : list Pose) (lengths widths : list tfloat)
  : bool :=
  (0 <? count_collisions x lengths widths)%nat.

Definition check_collisions_trajectory
    (x : list (list Pose)) (lengths widths : list tfloat) : list bool :=
  (fun x_t => check_collisions x_t lengths widths) <$> x.

End Collisions.

(** ** simulator.py *)

(** The (nv,2) arc state [s, sdot], a (nv,deg) coefficient table, and a cell
    of the (nv,nv,6) relative state [dx, dy, dvx, dvy, dpsi, dpsidot]. *)
Abbreviation ArcState := (list (tfloat * tfloat)).
Abbreviation Coefs := (list (list tfloat)).
Abbreviation RelPose :=
  (tfloat * tfloat * tfloat * tfloat * tfloat * tfloat)%type.

(** The fields of [StackedVehicleTraj] the simulator reads, under the prefix
    [svt_]. *)
Record StackedVehicleTraj : Type := {
  svt_nv : nat;
  svt_dt : R;
  svt_minT : R;
  svt_t0 : list tfloat;
  svt_s0 : list tfloat;
  svt_v0 : list tfloat;
  svt_smax : list tfloat;
  svt_xpoly : Coefs;
  svt_dxpoly : Coefs;
  svt_ddxpoly : Coefs;
  svt_ypoly : Coefs;
  svt_dypoly : Coefs;
  svt_ddypoly : Coefs;
  svt_lengths : list tfloat;
  svt_widths : list tfloat
}.

(** The simulator fields that change, or that are set from constructor
    arguments; the ones copied from the trajectory object at construction
    follow as definitions. *)
Record InteractionSimulator : Type := {
  _svt : StackedVehicleTraj;
  _state : ArcState;
  _ind : nat;
  _exceeded : list bool;
  _stop_on_collision : bool;
  _check_collisions : bool;
  _min_acc : R;
  _max_acc : R;
  _mask_relstate : bool;
  done : bool
}.

Definition _nv (self : InteractionSimulator) : nat := svt_nv (_svt self).
Definition _dt (self : InteractionSimulator) : R := svt_dt (_svt self).
Definition _xpoly (self : InteractionSimulator) : Coefs :=
  svt_xpoly (_svt self).
Definition _ypoly (self : InteractionSimulator) : Coefs :=
  svt_ypoly (_svt self).
Definition _lengths (self : InteractionSimulator) : list tfloat :=
  svt_lengths (_svt self).
Definition _widths (self : InteractionSimulator) : list tfloat :=
  svt_widths (_svt self).
Definition smax (self : InteractionSimulator) : list tfloat :=
  svt_smax (_svt self).

Definition t (self : InteractionSimulator) : R :=
  svt_minT (_svt self) + _dt self * INR (_ind self).

(** Field assignments [self._f = v]. *)
Definition set_state (self : InteractionSimulator) (v : ArcState) :=
  {| _svt := _svt self; _state := v; _ind := _ind self;
     _exceeded := _exceeded self;
     _stop_on_collision := _stop_on_collision self;
     _check_collisions := _check_collisions self;
     _min_acc := _min_acc self; _max_acc := _max_acc self;
     _mask_relstate := _mask_relstate self; done := done self |}.

Definition set_ind (self : InteractionSimulator) (v : nat) :=
  {| _svt := _svt self; _state := _state self; _ind := v;
     _exceeded := _exceeded self;
     _stop_on_collision := _stop_on_collision self;
     _check_collisions := _check_collisions self;
     _min_acc := _min_acc self; _max_acc := _max_acc self;
     _mask_relstate := _mask_relstate self; done := done self |}.

Definition set_exceeded (self : InteractionSimulator) (v : list bool) :=
  {| _svt := _svt self; _state := _state self; _ind := _ind self;
     _exceeded := v;
     _stop_on_collision := _stop_on_collision self;
     _check_collisions := _check_collisions self;
     _min_acc := _min_acc self; _max_acc := _max_acc self;
     _mask_relstate := _mask_relstate self; done := done self |}.

Definition set_done (self : InteractionSimulator) (v : bool) :=
  {| _svt := _svt self; _state := _state self; _ind := _ind self;
     _exceeded := _exceeded self;
     _stop_on_collision := _stop_on_collision self;
     _check_collisions := _check_collisions self;
     _min_acc := _min_acc self; _max_acc := _max_acc self;
     _mask_relstate := _mask_relstate self; done := v |}.

(** Modelled from the spec: [horner_scheme] of [intersim.utils], which is not
    part of the sources at hand.  The polynomial with the coefficients
    [poly], highest degree first, is evaluated at [s] by nested
    multiplication. *)
Definition horner_scheme (s : tfloat) (poly : list tfloat) : tfloat :=
  match poly with
  | [] => Fin 0
  | c :: cs => foldl (fun y c => y * s + c)%tf c cs
  end.

(** [torch.arange(1, n+1)]. *)
Definition arange1 (n : nat) : list tfloat :=
  (fun k => Fin (INR k)) <$> seq 1 n.

Definition nan6 : RelPose := (NaN, NaN, NaN, NaN, NaN, NaN).

Definition sub6 (p q : RelPose) : RelPose :=
  let '(p0, p1, p2, p3, p4, p5) := p in
  let '(q0, q1, q2, q3, q4, q5) := q in
  (p0 - q0, p1 - q1, p2 - q2, p3 - q3, p4 - q4, p5 - q5)%tf.

(** What a call of [step] does to its caller: it returns, and the info
    dictionary tells which vehicles satisfied the spawn condition, or an
    exception leaves it. *)
Inductive outcome : Type :=
  | Returned (should_spawn : list bool)
  | Raised.

Section Simulator.

(** What the class calls and does not define: shapely's predicate,
    [Box.contains] of the action space, the projection [ssdot_to_simstates]
    of [intersim.utils] (for one time index), and the adjacency matrix of
    the interaction graph. *)
Variable intersects : Polygon -> Polygon -> bool.
Variable action_space_contains : InteractionSimulator -> list tfloat -> bool.
Variable ssdot_to_simstates :
  list tfloat -> list tfloat ->
  Coefs -> Coefs -> Coefs -> Coefs -> Coefs -> Coefs -> list Pose.
Variable adjacency_matrix : InteractionSimulator -> nat -> list (list bool).

Definition _project_state (self : InteractionSimulator) (state : ArcState)
  : list Pose :=
  let svt := _svt self in
  let projstate :=
    ssdot_to_simstates (fst <$> state) (snd <$> state)
      (svt_xpoly svt) (svt_dxpoly svt) (svt_ddxpoly svt)
      (svt_ypoly svt) (svt_dypoly svt) (svt_ddypoly svt) in
  (fun '(x, y, v, psi, psidot) => (x, y, v, to_circle psi, psidot))
    <$> projstate.

Definition projected_state (self : InteractionSimulator) : list Pose :=
  _project_state self (_state self).

Definition _relative_state (self : InteractionSimulator)
    (projstate : list Pose) : list (list RelPose) :=
  let projstate :=
    (fun '(x, y, v, psi, psidot) =>
       (x, y, (v * fcos psi)%tf, (v * fsin psi)%tf, psi, psidot))
      <$> projstate in
  let relstate :=
    (fun p_i => (fun p_j => sub6 p_j p_i) <$> projstate) <$> projstate in
  let relstate :=
    map2d (fun '(dx, dy, dvx, dvy, dpsi, dpsidot) =>
             (dx, dy, dvx, dvy, to_circle dpsi, dpsidot)) relstate in
  let relstate :=
    imap (fun i row =>
            imap (fun j r => if decide (i = j) then nan6 else r) row)
      relstate in
  if _mask_relstate self then
    zip_with (zip_with (fun r (adj : bool) => if adj then r else nan6))
      relstate (adjacency_matrix self (_nv self))
  else relstate.

Definition _generate_paths (self : InteractionSimulator)
    (delta : R) (n : nat) (is_distance override : bool)
  : list (list tfloat) * list (list tfloat) :=
  let steps := replicate (_nv self) (arange1 n) in
  let ds :=
    if override then
      let delta :=
        zip_with (fun sm s_ =>
                    (sm - s_) / Fin (INR n) * Fin (INR n - 1) / Fin (INR n))%tf
          (smax self) (fst <$> _state self) in
      bcast_col (fun k d => d * k)%tf steps delta
    else if is_distance then
      map2d (fun k => Fin delta * k)%tf steps
    else
      let v := snd <$> _state self in
      bcast_col (fun k v_ => Fin delta * v_ * k)%tf steps v in
  let s := bcast_col fadd ds (fst <$> _state self) in
  let smax := smax self in
  let nni := bcast_col fle s smax in
  let x := bcast_col horner_scheme s (_xpoly self) in
  let y := bcast_col horner_scheme s (_ypoly self) in
  let x_max := zip_with horner_scheme smax (_xpoly self) in
  let y_max := zip_with horner_scheme smax (_ypoly self) in
  let dx := zip_with horner_scheme smax (svt_dxpoly (_svt self)) in
  let dy := zip_with horner_scheme smax (svt_dypoly (_svt self)) in
  let x_line :=
    bcast_col (fun r pm => pm + r)%tf
      (bcast_col fmul (bcast_col fsub s smax) dx) x_max in
  let y_line :=
    bcast_col (fun r pm => pm + r)%tf
      (bcast_col fmul (bcast_col fsub s smax) dy) y_max in
  let x :=
    ew2 (fun (b : bool) vl => if b then vl.1 else vl.2)
      nni (ew2 pair x x_line) in
  let y :=
    ew2 (fun (b : bool) vl => if b then vl.1 else vl.2)
      nni (ew2 pair y y_line) in
  (x, y).

Definition _next_state (self : InteractionSimulator)
    (state : ArcState) (action : list tfloat)
  : option (ArcState * list tfloat * list bool) :=
  let nns := (fun st => negb (isnan st.1)) <$> state in
  let nna := (fun a => negb (isnan a)) <$> action in
  let nns_na := zip_with (fun (b c : bool) => b && negb c) nns nna in
  if existsb (fun b : bool => b) nns_na then None
  else
    let action :=
      zip_with (fun a (b : bool) => if negb b then Fin 0 else a) action nna in
    let action :=
      if negb (action_space_contains self action)
      then clamp (_min_acc self) (_max_acc self) <$> action
      else action in
    let nextv :=
      zip_with (fun st a => st.2 + a * Fin (_dt self))%tf state action in
    let nextv := clamp_min 0 <$> nextv in
    let next_state :=
      zip_with (fun st nv => (st.1 + Fin (0.5 * _dt self) * (nv + st.2), nv)%tf)
        state nextv in
    let exceeded := zip_with fgt (fst <$> next_state) (smax self) in
    let next_state :=
      zip_with (fun st (e : bool) => if e then (NaN, NaN) else st)
        next_state exceeded in
    Some (next_state, action, exceeded).

(** The batched variant, over one leading dimension. *)
Definition _next_state_batch (self : InteractionSimulator)
    (state : list ArcState) (action : list (list tfloat))
  : list ArcState * list (list tfloat) * list (list bool) :=
  let action := map2d (clamp (_min_acc self) (_max_acc self)) action in
  let nextv := ew2 (fun st a => st.2 + a * Fin (_dt self))%tf state action in
  let nextv := map2d (clamp_min 0) nextv in
  let next_state :=
    ew2 (fun st nv => (st.1 + Fin (0.5 * _dt self) * (nv + st.2), nv)%tf)
      state nextv in
  let exceeded :=
    (fun row : ArcState => zip_with fgt (fst <$> row) (smax self))
      <$> next_state in
  let next_state :=
    ew2 (fun st (e : bool) => if e then (NaN, NaN) else st)
      next_state exceeded in
  (next_state, action, exceeded).

(** The spawn mask of [step]; [nns] marks the vehicles that were active
    before the state update. *)
Definition should_spawn (self : InteractionSimulator) (nns : list bool)
  : list bool :=
  let free := replicate (_nv self) true in
  zip_with andb
    (zip_with andb
       (zip_with andb
          ((fun t0 => fle t0 (Fin (t self))) <$> svt_t0 (_svt self))
          (negb <$> _exceeded self))
       (negb <$> nns))
    free.

(** [step], as far as the simulator fields go: the observation, the reward
    and the rest of the info dictionary it also builds are read off the
    fields and change none of them.  The fields are left as they are at the
    point where an exception is raised. *)
Definition step (self : InteractionSimulator) (action : list tfloat)
  : InteractionSimulator * outcome :=
  if done self then (self, Raised)
  else
    let self := set_ind self (S (_ind self)) in
    let nns := (fun st => negb (isnan st.1)) <$> _state self in
    match _next_state self (_state self) action with
    | None => (self, Raised)
    | Some (next_state, action, exceeded) =>
        let self := set_state self next_state in
        let self :=
          set_exceeded self (zip_with orb (_exceeded self) exceeded) in
        let self :=
          set_done self (forallb (fun b : bool => b) (_exceeded self)) in
        let should_spawn := should_spawn self nns in
        let spawned := should_spawn in
        let self :=
          set_state self
            (zip_with (fun st '(sp, s0) => if sp : bool then (s0, st.2) else st)
               (_state self) (zip spawned (svt_s0 (_svt self)))) in
        let self :=
          set_state self
            (zip_with (fun st '(sp, v0) => if sp : bool then (st.1, v0) else st)
               (_state self) (zip spawned (svt_v0 (_svt self)))) in
        let projstate := projected_state self in
        let self :=
          if _stop_on_collision self || _check_collisions self then
            let collision :=
              check_collisions intersects projstate
                (_lengths self) (_widths self) in
            if collision && _stop_on_collision self then set_done self true
            else self
          else self in
        (self, Returned should_spawn)
    end.

(** Successive calls of [step], whatever each of them does to its caller. *)
Definition run (self : InteractionSimulator) (actions : list (list tfloat))
  : InteractionSimulator :=
  foldl (fun self action => (step self action).1) self actions.

End Simulator.


(** ** simulator.py: targets and rollouts *)

(** [target_state]: the action that takes every vehicle to the arc length
    [ssdot[:,0]] in one step, smoothed by [mu].  The assertion on the length
    of [ssdot] raises.  The time step enters as a divisor: the statements
    about this function take it to be non-zero. *)
Definition target_state (self : InteractionSimulator) (ssdot : ArcState)
    (mu : R) : option (list tfloat) :=
  if negb (length ssdot =? _nv self)%nat then None
  else
    let next_s := fst <$> ssdot in
    let s := fst <$> _state self in
    let v := snd <$> _state self in
    let action :=
      zip_with
        (fun d v_ =>
           Fin 2 * (d - Fin (_dt self) * v_)
           / Fin (_dt self ^ 2 + 4 * mu / _dt self ^ 2))%tf
        (zip_with fsub next_s s) v in
    let nan_mask := zip_with orb (isnan <$> s) (isnan <$> next_s) in
    Some (zip_with (fun a (b : bool) => if b then Fin 0 else a)
            action nan_mask).

Section Rollouts.

Variable intersects : Polygon -> Polygon -> bool.
Variable action_space_contains : InteractionSimulator -> list tfloat -> bool.
Variable ssdot_to_simstates :
  list tfloat -> list tfloat ->
  Coefs -> Coefs -> Coefs -> Coefs -> Coefs -> Coefs -> list Pose.

(** The inner loop of [propagate_action_profile]: one (T,nv,1) action
    profile is played from the arc state [state], every step through
    [_next_state], and the projected states are collected. *)
Fixpoint propagate_profile (self : InteractionSimulator) (state : ArcState)
    (action : list (list tfloat)) : option (list (list Pose)) :=
  match action with
  | [] => Some []
  | action_iT :: action' =>
      match _next_state action_space_contains self state action_iT with
      | None => None
      | Some (state, _, _) =>
          x ← propagate_profile self state action';
          Some (_project_state ssdot_to_simstates self state :: x)
      end
  end.

Definition propagate_action_profile (self : InteractionSimulator)
    (actions : list (list (list tfloat))) : option (list (list (list Pose))) :=
  mapM (fun action => propagate_profile self (_state self) action) actions.

Definition check_future_collisions (self : InteractionSimulator)
    (actions : list (list (list tfloat))) : option (list bool) :=
  match propagate_action_profile self actions with
  | None => None
  | Some states =>
      Some ((fun states_iB =>
               existsb (fun b : bool => b)
                 (check_collisions_trajectory intersects states_iB
                    (_lengths self) (_widths self)))
              <$> states)
  end.

End Rollouts.

(** ** Reference notions for the collision statements *)

(** The footprint of the vehicle with original index [i]. *)
Definition footprint (x : list Pose) (lengths widths : list tfloat) (i : nat)
  : Polygon :=
  state_to_polygon (x !!! i) (lengths !!! i) (widths !!! i).

Definition active (x : list Pose) (i : nat) : bool :=
  match x !! i with
  | Some x_ => negb (isnan (pose_x x_))
  | None => false
  end.

(** The ordered index pairs [(i, j)] with [j < i < n], in the order of the
    two nested loops of [collision_matrix]. *)
Definition upairs (n : nat) : list (nat * nat) :=
  i ← seq 1 (n - 1); (fun j => (i, j)) <$> seq 0 i.

Section CollisionNotions.

Variable intersects : Polygon -> Polygon -> bool.

(** Vehicles [a] and [b] of one frame collide: they are two distinct active
    vehicles whose footprints intersect; the predicate is asked of the
    vehicle with the larger index. *)
Definition collides (x : list Pose) (lengths widths : list tfloat)
    (a b : nat) : bool :=
  bool_decide (a ≠ b) && active x a && active x b &&
  intersects (footprint x lengths widths (a `max` b))
             (footprint x lengths widths (a `min` b)).

(** The pairs of vehicles that collide in at least one frame. *)
Definition colliding_pairs (x : list (list Pose))
    (lengths widths : list tfloat) : list (nat * nat) :=
  filter (fun '(a, b) =>
            existsb (fun x_t => collides x_t lengths widths a b) x = true)
    (upairs (length lengths)).

(** The colliding (pair, frame) incidents: a pair counts once for each frame
    in which it collides. *)
Definition incidents (x : list (list Pose)) (lengths widths : list tfloat)
  : nat :=
  sum_list
    ((fun x_t =>
        length (filter (fun '(a, b) => collides x_t lengths widths a b = true)
                  (upairs (length lengths)))) <$> x).

(** The number of frames in which [a] and [b] collide. *)
Definition frames_hit (lengths widths : list tfloat) (x : list (list Pose))
    (a b : nat) : nat :=
  sum_list ((fun x_t => if collides x_t lengths widths a b
                        then 1%nat else 0%nat) <$> x).

End CollisionNotions.

(** An n x m tensor. *)
Definition is_shape {A : Type} (n m : nat) (c : list (list A)) : Prop :=
  length c = n /\ Forall (fun row => length row = m) c.

(** One pass of the inner loop body, for the pair [(i, j)] of compacted
    indices; [f] maps a compacted index to the original one. *)
Definition mark (P : nat -> nat -> bool) (f : nat -> nat)
    (c : Matrix) (ij : nat * nat) : Matrix :=
  if P ij.1 ij.2
  then mset (mset c (f ij.1) (f ij.2) 1) (f ij.2) (f ij.1) 1
  else c.

Definition hits (f : nat -> nat) (a b : nat) (ij : nat * nat) : bool :=
  bool_decide ((f ij.1 = a /\ f ij.2 = b) \/ (f ij.2 = a /\ f ij.1 = b)).

(** Sums over an initial segment of the indices. *)
Definition sumf (f : nat -> nat) (n : nat) : nat := sum_list (f <$> seq 0 n).

(** ** Reference notions for the simulator statements *)

(** The arc-length increment of vehicle [i] at the sample [k], in each of
    the three modes of [_generate_paths]. *)
Definition increment (delta : R) (n : nat) (is_distance override : bool)
    (s_i sd_i sm : tfloat) (k : nat) : tfloat :=
  if override then
    ((sm - s_i) / Fin (INR n) * Fin (INR n - 1) / Fin (INR n)
     * Fin (INR (S k)))%tf
  else if is_distance then (Fin delta * Fin (INR (S k)))%tf
  else (Fin delta * sd_i * Fin (INR (S k)))%tf.

(** The shapes of the fields agree with the number of vehicles. *)
Definition well_shaped (self : InteractionSimulator) : Prop :=
  length (_state self) = _nv self /\
  length (_exceeded self) = _nv self /\
  length (smax self) = _nv self /\
  length (svt_t0 (_svt self)) = _nv self /\
  length (svt_s0 (_svt self)) = _nv self /\
  length (svt_v0 (_svt self)) = _nv self.

(** The vehicle [i] has left the simulation: its exceeded flag is set and
    its arc state is undefined. *)
Definition gone (i : nat) (self : InteractionSimulator) : Prop :=
  well_shaped self /\
  _exceeded self !! i = Some true /\
  _state self !! i = Some (NaN, NaN).


(** ** Concrete scenes *)

(** One vehicle on a track of arc length 100, one time unit per step,
    accelerations bounded by -10 and 10; the vehicle is at arc length 99 with
    arc speed 5. *)
Definition svt_one : StackedVehicleTraj :=
  {| svt_nv := 1; svt_dt := 1; svt_minT := 0;
     svt_t0 := [Fin 0]; svt_s0 := [Fin 0]; svt_v0 := [Fin 5];
     svt_smax := [Fin 100];
     svt_xpoly := [[Fin 1; Fin 0]]; svt_dxpoly := [[Fin 1]];
     svt_ddxpoly := [[Fin 0]];
     svt_ypoly := [[Fin 0]]; svt_dypoly := [[Fin 0]];
     svt_ddypoly := [[Fin 0]];
     svt_lengths := [Fin 4]; svt_widths := [Fin 2] |}.

Definition sim_one : InteractionSimulator :=
  {| _svt := svt_one; _state := [(Fin 99, Fin 5)]; _ind := 0;
     _exceeded := [false];
     _stop_on_collision := false; _check_collisions := false;
     _min_acc := -10; _max_acc := 10;
     _mask_relstate := false; done := false |}.

(** A [Box.contains] for the scenes: every component lies within the bounds
    of the action space. *)
Definition within_bounds (self : InteractionSimulator) (action : list tfloat)
  : bool :=
  forallb (fun a => fle (Fin (_min_acc self)) a && fle a (Fin (_max_acc self)))
    action.

(** An intersection predicate for the scenes: the two corner lists overlap
    in both coordinates.  For footprints of heading 0, which are rectangles
    parallel to the axes, this is shapely's [intersects], touching borders
    included. *)
Definition bbox_intersects (p q : Polygon) : bool :=
  existsb (fun a => existsb (fun b => fle a.1 b.1) q) p &&
  existsb (fun a => existsb (fun b => fle b.1 a.1) q) p &&
  existsb (fun a => existsb (fun b => fle a.2 b.2) q) p &&
  existsb (fun a => existsb (fun b => fle b.2 a.2) q) p.

(** A vehicle standing at [(px, py)] with heading 0. *)
Definition pose_at (px py : R) : Pose := (Fin px, Fin py, Fin 0, Fin 0, Fin 0).

(** Two vehicles, 4 long and 2 wide, side by side: 3 apart they do not
    touch, 1 apart they overlap. *)
Definition lengths2 : list tfloat := [Fin 4; Fin 4].
Definition widths2 : list tfloat := [Fin 2; Fin 2].
Definition frame_apart : list Pose := [pose_at 0 0; pose_at 0 3].
Definition frame_together : list Pose := [pose_at 0 0; pose_at 0 1].

(** Six frames, the two vehicles colliding at frames 2 and 5. *)
Definition trajectory6 : list (list Pose) :=
  [frame_apart; frame_apart; frame_together;
   frame_apart; frame_apart; frame_together].

(** The second vehicle not spawned yet. *)
Definition frame_alone : list Pose :=
  [pose_at 0 0; (NaN, NaN, NaN, NaN, NaN)].

(** Two vehicles, relative state masked by an interaction graph with no
    edge. *)
Definition svt_two : StackedVehicleTraj :=
  {| svt_nv := 2; svt_dt := 1; svt_minT := 0;
     svt_t0 := [Fin 0; Fin 0]; svt_s0 := [Fin 0; Fin 0];
     svt_v0 := [Fin 5; Fin 5];
     svt_smax := [Fin 100; Fin 100];
     svt_xpoly := [[Fin 1; Fin 0]; [Fin 1; Fin 0]];
     svt_dxpoly := [[Fin 1]; [Fin 1]];
     svt_ddxpoly := [[Fin 0]; [Fin 0]];
     svt_ypoly := [[Fin 0]; [Fin 1]]; svt_dypoly := [[Fin 0]; [Fin 0]];
     svt_ddypoly := [[Fin 0]; [Fin 0]];
     svt_lengths := lengths2; svt_widths := widths2 |}.

Definition sim_two (mask_relstate : bool) : InteractionSimulator :=
  {| _svt := svt_two; _state := [(Fin 0, Fin 5); (Fin 0, Fin 5)]; _ind := 0;
     _exceeded := [false; false];
     _stop_on_collision := false; _check_collisions := false;
     _min_acc := -10; _max_acc := 10;
     _mask_relstate := mask_relstate; done := false |}.

Definition no_edges (self : InteractionSimulator) (nv : nat)
  : list (list bool) :=
  replicate nv (replicate nv false).

(** The projection for the track of [svt_one], the straight line
    [x(s) = s, y(s) = 0]: heading and yaw rate are zero and the speed is the
    arc speed. *)
Definition straight_projection (s sdot : list tfloat)
    (xpoly dxpoly ddxpoly ypoly dypoly ddypoly : Coefs) : list Pose :=
  zip_with (fun s_ v_ => (s_, Fin 0, v_, Fin 0, Fin 0)) s sdot.

(** The one vehicle in the middle of its track, at arc length 10 with arc
    speed 5; not spawned yet; and after the episode has ended. *)
Definition sim_mid : InteractionSimulator :=
  set_state sim_one [(Fin 10, Fin 5)].

Definition sim_wait : InteractionSimulator :=
  set_state sim_one [(NaN, NaN)].

Definition sim_done : InteractionSimulator := set_done sim_one true.
(** * Properties *)

(** ** Heading wrap *)

Lemma remainder_bounds (x m : R) : 0 < m -> 0 <= remainder x m < m.
Proof.
  intros Hm. unfold remainder.
  destruct (base_Int_part (x / m)) as [Hlo Hhi].
  assert (Hx : x = m * (x / m)) by (field; lra).
  set (k := IZR (Int_part (x / m))) in *.
  split.
  - assert (m * k <= m * (x / m)) by (apply Rmult_le_compat_l; lra). lra.
  - assert (m * (x / m - 1) < m * k) by (apply Rmult_lt_compat_l; lra). lra.
Qed.

Lemma remainder_small (x m : R) : 0 <= x < m -> remainder x m = x.
Proof.
  intros [Hlo Hhi]. unfold remainder.
  assert (Hm : 0 < m) by lra.
  assert (Hq : 0 <= x / m < 1).
  { split.
    - apply Rmult_le_reg_r with m; [lra|]. unfold Rdiv.
      rewrite Rmult_assoc, Rinv_l; lra.
    - apply Rmult_lt_reg_r with m; [lra|]. unfold Rdiv.
      rewrite Rmult_assoc, Rinv_l; lra. }
  rewrite <- (Int_part_spec (x / m) 0); [simpl; lra | simpl; lra].
Qed.

Lemma remainder_period (m : R) : 0 < m -> remainder m m = 0.
Proof.
  intros Hm. unfold remainder.
  replace (m / m) with 1 by (field; lra).
  rewrite <- (Int_part_spec 1 1); [simpl; lra | simpl; lra].
Qed.

Lemma to_circle_range (psi : R) :
  exists w, to_circle (Fin psi) = Fin w /\ - PI <= w < PI.
Proof.
  eexists; split; [reflexivity|].
  pose proof PI_RGT_0.
  pose proof (remainder_bounds (psi + PI) (2 * PI)). lra.
Qed.

Lemma to_circle_fixed (w : R) : - PI <= w < PI -> to_circle (Fin w) = Fin w.
Proof.
  intros Hw. simpl. rewrite remainder_small by lra. f_equal; lra.
Qed.

(** C2, as the specification words it: the wrapped heading would lie in the
    interval open at [-pi] and closed at [pi].  It does not: the heading [pi]
    is wrapped to [-pi]. *)
Lemma to_circle_pi_outside :
  to_circle (Fin PI) = Fin (- PI) /\
  ~ (forall psi w : R, to_circle (Fin psi) = Fin w -> - PI < w <= PI).
Proof.
  assert (E : to_circle (Fin PI) = Fin (- PI)).
  { simpl. replace (PI + PI) with (2 * PI) by lra.
    pose proof PI_RGT_0.
    rewrite remainder_period by lra. f_equal; lra. }
  split; [exact E|].
  intros H. specialize (H PI (- PI) E). lra.
Qed.

(** C2, amended: for every real heading [psi] the wrapped value is a finite
    value of the interval closed at [-pi] and open at [pi], and wrapping is
    idempotent: a wrapped value is wrapped to itself. *)
Theorem to_circle_wraps (psi : R) :
  exists w : R,
    to_circle (Fin psi) = Fin w /\
    - PI <= w < PI /\
    to_circle (to_circle (Fin psi)) = to_circle (Fin psi).
Proof.
  destruct (to_circle_range psi) as (w & E & Hw).
  exists w. split; [exact E|]. split; [exact Hw|].
  rewrite E. now apply to_circle_fixed.
Qed.

(** The heading channel of a projected state is a wrapped heading: undefined,
    or in the interval from [-pi] (included) to [pi] (excluded). *)
Lemma projected_heading_wrapped
    (ssdot_to_simstates :
       list tfloat -> list tfloat ->
       Coefs -> Coefs -> Coefs -> Coefs -> Coefs -> Coefs -> list Pose)
    (self : InteractionSimulator) (state : ArcState) (i : nat)
    (x y v psi psidot : tfloat) :
  _project_state ssdot_to_simstates self state !! i
  = Some (x, y, v, psi, psidot) ->
  psi = NaN \/ exists w, psi = Fin w /\ - PI <= w < PI.
Proof.
  unfold _project_state. cbv zeta. rewrite list_lookup_fmap.
  destruct (_ !! i) as [[[[[x0 y0] v0] psi0] psidot0]|]; [|discriminate].
  simpl. intros [= _ _ _ <- _].
  destruct psi0 as [|r]; [now left|right].
  destruct (to_circle_range r) as (w & E & Hw). eauto.
Qed.

(** ** Tensors as lists *)

Lemma entry_map2d {A B : Type} (f : A -> B) (m : list (list A)) (i j : nat) :
  entry (map2d f m) i j = f <$> entry m i j.
Proof.
  unfold entry, map2d. rewrite list_lookup_fmap.
  destruct (m !! i) as [row|]; [|reflexivity]. simpl.
  apply list_lookup_fmap.
Qed.

Lemma entry_ew2 {A B C : Type} (f : A -> B -> C)
    (m1 : list (list A)) (m2 : list (list B)) (i j : nat) :
  entry (ew2 f m1 m2) i j =
  entry m1 i j ≫= fun a => entry m2 i j ≫= fun b => Some (f a b).
Proof.
  unfold entry, ew2. rewrite lookup_zip_with.
  destruct (m1 !! i) as [r1|]; [|reflexivity].
  destruct (m2 !! i) as [r2|]; simpl.
  - apply lookup_zip_with.
  - now destruct (r1 !! j).
Qed.

Lemma entry_bcast_col {A B C : Type} (f : A -> B -> C)
    (m : list (list A)) (col : list B) (i j : nat) :
  entry (bcast_col f m col) i j =
  entry m i j ≫= fun a => col !! i ≫= fun c => Some (f a c).
Proof.
  unfold entry, bcast_col. rewrite lookup_zip_with.
  destruct (m !! i) as [row|]; [|reflexivity].
  destruct (col !! i) as [c|]; simpl.
  - rewrite list_lookup_fmap. now destruct (row !! j).
  - now destruct (row !! j).
Qed.

(** ** State integrator *)

Lemma existsb_lookup {A : Type} (f : A -> bool) (l : list A) :
  existsb f l = true <-> exists i x, l !! i = Some x /\ f x = true.
Proof.
  rewrite existsb_exists. split.
  - intros (x & Hin & Hf). apply list_elem_of_In, list_elem_of_lookup in Hin.
    destruct Hin as [i Hi]. eauto.
  - intros (i & x & Hi & Hf). exists x. split; [|exact Hf].
    apply list_elem_of_In, list_elem_of_lookup. eauto.
Qed.

Lemma clamp_id (lo hi : R) (a : R) :
  lo <= a <= hi -> clamp lo hi (Fin a) = Fin a.
Proof.
  intros [H1 H2]. simpl. rewrite Rmax_left by lra. rewrite Rmin_left by lra.
  reflexivity.
Qed.

Lemma clamp_min_nonneg (a : tfloat) :
  clamp_min 0 a = NaN \/ exists v, clamp_min 0 a = Fin v /\ 0 <= v.
Proof.
  destruct a as [|x]; [left; reflexivity|right].
  eexists; split; [reflexivity|]. apply Rmax_r.
Qed.

Section IntegratorFacts.

Variable action_space_contains : InteractionSimulator -> list tfloat -> bool.

Local Abbreviation next_state_of := (_next_state action_space_contains).

(** The single step raises exactly on a vehicle with a defined arc length and
    an undefined action. *)
Lemma _next_state_raises (self : InteractionSimulator)
    (state : ArcState) (action : list tfloat) :
  next_state_of self state action = None <->
  exists i st, state !! i = Some st /\ isnan st.1 = false /\
               action !! i = Some NaN.
Proof.
  unfold _next_state.
  destruct (existsb _ _) eqn:E.
  - split; [intros _|reflexivity].
    apply existsb_lookup in E. destruct E as (i & b & Hi & ->).
    rewrite lookup_zip_with, !list_lookup_fmap in Hi.
    destruct (state !! i) as [st|] eqn:Hs; [|discriminate].
    destruct (action !! i) as [a|] eqn:Ha; [|discriminate].
    simpl in Hi. injection Hi as Hi.
    apply andb_true_iff in Hi. destruct Hi as [H1 H2].
    exists i, st. destruct a; [|discriminate].
    destruct (isnan st.1); [discriminate|]. auto.
  - split; [discriminate|].
    intros (i & st & Hs & Hn & Ha). exfalso.
    assert (existsb (fun b : bool => b)
              (zip_with (fun b c : bool => b && negb c)
                 ((fun st => negb (isnan st.1)) <$> state)
                 ((fun a => negb (isnan a)) <$> action)) = true) as E'.
    { apply existsb_lookup. exists i, true. split; [|reflexivity].
      rewrite lookup_zip_with, !list_lookup_fmap, Hs, Ha. simpl.
      now rewrite Hn. }
    congruence.
Qed.

(** One vehicle of a single step that returns. *)
Lemma _next_state_lookup (self : InteractionSimulator)
    (state ns : ArcState) (action act : list tfloat) (ex : list bool)
    (i : nat) (s sd a m : tfloat) :
  next_state_of self state action = Some (ns, act, ex) ->
  state !! i = Some (s, sd) -> action !! i = Some a ->
  smax self !! i = Some m ->
  exists a',
    act !! i = Some a' /\
    (a' = (if isnan a then Fin 0 else a) \/
     a' = clamp (_min_acc self) (_max_acc self) (if isnan a then Fin 0 else a)) /\
    let nextv := clamp_min 0 (sd + a' * Fin (_dt self))%tf in
    let s' := (s + Fin (0.5 * _dt self) * (nextv + sd))%tf in
    ex !! i = Some (fgt s' m) /\
    ns !! i = Some (if fgt s' m then (NaN, NaN) else (s', nextv)).
Proof.
  unfold _next_state. destruct (existsb _ _); [discriminate|].
  intros H Hs Ha Hm. cbv zeta in H.
  apply (inj Some) in H. apply pair_equal_spec in H as [H <-].
  apply pair_equal_spec in H as [<- <-].
  set (act0 := zip_with _ action _).
  assert (H0 : act0 !! i = Some (if isnan a then Fin 0 else a)).
  { unfold act0. rewrite lookup_zip_with, list_lookup_fmap, Ha. simpl.
    now destruct (isnan a). }
  set (act1 := if negb _ then _ else act0).
  assert (exists a', act1 !! i = Some a' /\
            (a' = (if isnan a then Fin 0 else a) \/
             a' = clamp (_min_acc self) (_max_acc self)
                    (if isnan a then Fin 0 else a))) as (a' & H1 & Hor).
  { unfold act1. destruct (negb _).
    - eexists. rewrite list_lookup_fmap, H0. simpl. eauto.
    - eauto. }
  exists a'. split; [exact H1|]. split; [exact Hor|]. cbv zeta.
  assert (Hns : zip_with
      (fun st nv => ((st.1 + Fin (0.5 * _dt self) * (nv + st.2))%tf, nv)) state
      (clamp_min 0 <$> zip_with (fun st a0 => (st.2 + a0 * Fin (_dt self))%tf)
         state act1) !! i
      = Some ((s + Fin (0.5 * _dt self) *
                 (clamp_min 0 (sd + a' * Fin (_dt self)) + sd))%tf,
              clamp_min 0 (sd + a' * Fin (_dt self))%tf)).
  { rewrite lookup_zip_with, list_lookup_fmap, lookup_zip_with, Hs, H1.
    reflexivity. }
  assert (Hex : zip_with fgt (fst <$> zip_with
      (fun st nv => ((st.1 + Fin (0.5 * _dt self) * (nv + st.2))%tf, nv)) state
      (clamp_min 0 <$> zip_with (fun st a0 => (st.2 + a0 * Fin (_dt self))%tf)
         state act1)) (smax self) !! i
      = Some (fgt (s + Fin (0.5 * _dt self) *
                 (clamp_min 0 (sd + a' * Fin (_dt self)) + sd))%tf m)).
  { rewrite lookup_zip_with, list_lookup_fmap, Hns, Hm. reflexivity. }
  split; [exact Hex|].
  rewrite lookup_zip_with, Hns. cbn [mbind option_bind]. rewrite Hex. reflexivity.
Qed.

Lemma _next_state_lengths (self : InteractionSimulator)
    (state ns : ArcState) (action act : list tfloat) (ex : list bool)
    (n : nat) :
  next_state_of self state action = Some (ns, act, ex) ->
  length state = n -> length action = n -> length (smax self) = n ->
  length ns = n /\ length ex = n.
Proof.
  unfold _next_state. destruct (existsb _ _); [discriminate|].
  intros H Hs Ha Hm. cbv zeta in H. apply (inj Some) in H.
  apply pair_equal_spec in H as [H <-].
  apply pair_equal_spec in H as [<- _].
  assert (Hact : forall act0 : list tfloat, length act0 = n ->
            length (if negb (action_space_contains self act0)
                    then clamp (_min_acc self) (_max_acc self) <$> act0
                    else act0) = n).
  { intros act0 H0. destruct (negb _); [now rewrite length_fmap|exact H0]. }
  repeat (rewrite ?length_zip_with, ?length_fmap, ?Hact, ?Hs, ?Ha, ?Hm,
            ?Nat.min_id).
  all: try (split; reflexivity).
  all: rewrite length_zip_with, length_fmap, Ha; apply Nat.min_id.
Qed.

(** One vehicle of one batch element of the batched step. *)
Lemma _next_state_batch_lookup (self : InteractionSimulator)
    (state : list ArcState) (action : list (list tfloat))
    (b i : nat) (s sd a m : tfloat) :
  entry state b i = Some (s, sd) -> entry action b i = Some a ->
  smax self !! i = Some m ->
  let a' := clamp (_min_acc self) (_max_acc self) a in
  let nextv := clamp_min 0 (sd + a' * Fin (_dt self))%tf in
  let s' := (s + Fin (0.5 * _dt self) * (nextv + sd))%tf in
  let '(ns, act, ex) := _next_state_batch self state action in
  entry act b i = Some a' /\
  entry ex b i = Some (fgt s' m) /\
  entry ns b i = Some (if fgt s' m then (NaN, NaN) else (s', nextv)).
Proof.
  intros Hs Ha Hm. cbv zeta. unfold _next_state_batch.
  set (act := map2d _ action).
  assert (H1 : entry act b i
               = Some (clamp (_min_acc self) (_max_acc self) a)).
  { unfold act. now rewrite entry_map2d, Ha. }
  set (nextv := map2d (clamp_min 0) _).
  assert (H2 : entry nextv b i
               = Some (clamp_min 0
                         (sd + clamp (_min_acc self) (_max_acc self) a
                               * Fin (_dt self))%tf)).
  { unfold nextv. now rewrite entry_map2d, entry_ew2, Hs, H1. }
  set (ns0 := ew2 _ state nextv).
  assert (H3 : entry ns0 b i
               = Some ((s + Fin (0.5 * _dt self) *
                          (clamp_min 0
                             (sd + clamp (_min_acc self) (_max_acc self) a
                                   * Fin (_dt self)) + sd))%tf,
                       clamp_min 0
                         (sd + clamp (_min_acc self) (_max_acc self) a
                               * Fin (_dt self))%tf)).
  { unfold ns0. now rewrite entry_ew2, Hs, H2. }
  set (ex := _ <$> ns0).
  assert (H4 : entry ex b i
               = Some (fgt (s + Fin (0.5 * _dt self) *
                          (clamp_min 0
                             (sd + clamp (_min_acc self) (_max_acc self) a
                                   * Fin (_dt self)) + sd))%tf m)).
  { unfold ex, entry. rewrite list_lookup_fmap.
    unfold entry in H3. destruct (ns0 !! b) as [row|]; [|discriminate].
    simpl in *. now rewrite lookup_zip_with, list_lookup_fmap, H3, Hm. }
  split; [exact H1|]. split; [exact H4|].
  now rewrite entry_ew2, H3, H4.
Qed.


Lemma fgt_true (x : R) (m : tfloat) :
  fgt (Fin x) m = true <-> exists mm, m = Fin mm /\ mm < x.
Proof.
  destruct m as [|mm]; simpl.
  - split; [discriminate|]. intros (? & ? & _). discriminate.
  - destruct (Rlt_dec mm x); split; eauto; try discriminate.
    intros (? & [= <-] & ?). contradiction.
Qed.

(** C3: a vehicle with a defined arc state [(s, sd)] and a defined action [a]
    within the bounds, in a call where no active vehicle lacks an action.
    The call returns; with [sd' = max (sd + a dt) 0] and
    [s' = s + 0.5 dt (sd' + sd)], the exceeded flag of the vehicle is
    [s' > smax], and its next arc state is [(s', sd')], overwritten by
    [(NaN, NaN)] when the flag is set. *)
Theorem next_state_trapezoid (self : InteractionSimulator)
    (state : ArcState) (action : list tfloat) (i : nat)
    (s sd a : R) (m : tfloat) :
  length action = length state ->
  length (smax self) = length state ->
  (forall j st, state !! j = Some st -> isnan st.1 = false ->
                action !! j <> Some NaN) ->
  state !! i = Some (Fin s, Fin sd) ->
  action !! i = Some (Fin a) ->
  _min_acc self <= a <= _max_acc self ->
  smax self !! i = Some m ->
  let sd' := Rmax (sd + a * _dt self) 0 in
  let s' := s + 0.5 * _dt self * (sd' + sd) in
  exists ns act ex,
    next_state_of self state action = Some (ns, act, ex) /\
    ex !! i = Some (fgt (Fin s') m) /\
    ns !! i = Some (if fgt (Fin s') m then (NaN, NaN) else (Fin s', Fin sd')) /\
    (forall mm, m = Fin mm -> mm < s' ->
       ex !! i = Some true /\ ns !! i = Some (NaN, NaN)).
Proof.
  intros _ _ Hok Hs Ha Hb Hm sd' s'.
  destruct (next_state_of self state action) as [[[ns act] ex]|] eqn:E.
  - exists ns, act, ex. split; [reflexivity|].
    destruct (_next_state_lookup _ _ _ _ _ _ _ _ _ _ _ E Hs Ha Hm)
      as (a' & _ & Hor & Hex & Hns).
    assert (a' = Fin a) as ->.
    { destruct Hor as [->| ->]; [reflexivity|]. simpl isnan. cbv iota.
      now apply clamp_id. }
    change (ex !! i = Some (fgt (Fin s') m)) in Hex.
    change (ns !! i = Some (if fgt (Fin s') m then (NaN, NaN)
                            else (Fin s', Fin sd'))) in Hns.
    split; [exact Hex|]. split; [exact Hns|].
    intros mm -> Hlt.
    assert (Hg : fgt (Fin s') (Fin mm) = true) by (apply fgt_true; eauto).
    rewrite Hg in Hex, Hns. auto.
  - apply _next_state_raises in E. destruct E as (j & st & Hj & Hn & Hj').
    exfalso. exact (Hok j st Hj Hn Hj').
Qed.

(** C4, amended: whatever the input state and the requested accelerations,
    every arc speed that a single step which returns, or a batched step,
    produces is either undefined or at least zero; and in a single step that
    returns, a vehicle with a defined arc state that has not exceeded its
    track has a defined arc speed, at least zero. *)
Theorem next_speed_nonneg_or_undefined :
  (forall self state action ns act ex i st,
     next_state_of self state action = Some (ns, act, ex) ->
     ns !! i = Some st ->
     st.2 = NaN \/ exists v, st.2 = Fin v /\ 0 <= v) /\
  (forall self state action b i st,
     entry (_next_state_batch self state action).1.1 b i = Some st ->
     st.2 = NaN \/ exists v, st.2 = Fin v /\ 0 <= v) /\
  (forall self state action ns act ex i s sd a m,
     next_state_of self state action = Some (ns, act, ex) ->
     state !! i = Some (Fin s, Fin sd) -> action !! i = Some a ->
     smax self !! i = Some m -> ex !! i = Some false ->
     exists s' v, ns !! i = Some (Fin s', Fin v) /\ 0 <= v).
Proof.
  split; [|split].
  - intros self state action ns act ex i st E Hi.
    unfold _next_state in E. destruct (existsb _ _); [discriminate|].
    cbv zeta in E. apply (inj Some) in E.
    apply pair_equal_spec in E as [E _]. apply pair_equal_spec in E as [<- _].
    apply lookup_zip_with_Some in Hi as (st0 & e & -> & H0 & _).
    apply lookup_zip_with_Some in H0 as (st1 & nv & -> & _ & Hnv).
    apply list_lookup_fmap_Some in Hnv as (y & -> & Hy).
    destruct e; [left; reflexivity|]. apply clamp_min_nonneg.
  - intros self state action b i st Hi.
    unfold _next_state_batch in Hi. cbv zeta in Hi. cbn [fst] in Hi.
    rewrite entry_ew2 in Hi.
    destruct (entry (ew2 _ state _) b i) as [st0|] eqn:H0; [|discriminate].
    simpl in Hi. destruct (entry (_ <$> _) b i) as [e|]; [|discriminate].
    injection Hi as <-.
    rewrite entry_ew2 in H0.
    destruct (entry state b i) as [st1|]; [|discriminate]. simpl in H0.
    destruct (entry (map2d _ _) b i) as [nv|] eqn:Hnv; [|discriminate].
    injection H0 as <-.
    rewrite entry_map2d in Hnv.
    destruct (entry (ew2 _ state _) b i) as [y|]; [|discriminate].
    injection Hnv as <-.
    destruct e; [left; reflexivity|]. apply clamp_min_nonneg.
  - intros self state action ns act ex i s sd a m E Hs Ha Hm Hex.
    destruct (_next_state_lookup _ _ _ _ _ _ _ _ _ _ _ E Hs Ha Hm)
      as (a' & _ & Hor & Hex' & Hns).
    rewrite Hex in Hex'. apply (inj Some) in Hex'. rewrite <- Hex' in Hns.
    destruct a as [|a].
    { assert (next_state_of self state action = None) as E'.
      { apply _next_state_raises. exists i, (Fin s, Fin sd). auto. }
      congruence. }
    assert (exists a1, a' = Fin a1) as (a1 & ->).
    { destruct Hor as [->| ->]; simpl; eauto. }
    simpl in Hns. eexists _, _. split; [exact Hns|]. apply Rmax_r.
Qed.

(** C5: the single step raises exactly when some vehicle with a defined arc
    length receives an undefined action.  The batched step is a total
    function with no such check: there the same vehicle comes out with an
    undefined action, an undefined arc state and a clear exceeded flag. *)
Theorem nan_action_raises_only_unbatched :
  (forall self state action,
     length action = length state ->
     (next_state_of self state action = None <->
      exists i st, state !! i = Some st /\ isnan st.1 = false /\
                   action !! i = Some NaN)) /\
  (forall self state action b i st m,
     entry state b i = Some st -> entry action b i = Some NaN ->
     smax self !! i = Some m ->
     let '(ns, act, ex) := _next_state_batch self state action in
     entry act b i = Some NaN /\
     entry ns b i = Some (NaN, NaN) /\
     entry ex b i = Some false).
Proof.
  split.
  - intros self state action _. apply _next_state_raises.
  - intros self state action b i [s sd] m Hs Ha Hm.
    pose proof (_next_state_batch_lookup self state action b i s sd NaN m
                  Hs Ha Hm) as H.
    cbv zeta in H.
    destruct (_next_state_batch self state action) as [[ns act] ex].
    destruct H as (H1 & H2 & H3).
    assert (Hnv : (sd + clamp (_min_acc self) (_max_acc self) NaN
                        * Fin (_dt self))%tf = NaN) by now destruct sd.
    rewrite Hnv in H2, H3. destruct s; simpl in H2, H3; auto.
Qed.

End IntegratorFacts.

(** The scene at the end of the track: from arc length 99 at speed 5, with
    action 0, the trapezoidal position is 104, beyond the track length 100. *)
Lemma track_end_position : 99 + 0.5 * 1 * (Rmax (5 + 0 * 1) 0 + 5) = 104.
Proof. rewrite Rmax_left by lra. lra. Qed.

Lemma track_end_run (k : nat) :
  exists act,
    _next_state within_bounds (set_ind sim_one k) [(Fin 99, Fin 5)] [Fin 0]
    = Some ([(NaN, NaN)], act, [true]).
Proof.
  destruct (_next_state within_bounds (set_ind sim_one k)
              [(Fin 99, Fin 5)] [Fin 0])
    as [[[ns act] ex]|] eqn:E.
  - destruct (_next_state_lookup within_bounds (set_ind sim_one k)
                _ _ _ _ _ 0%nat
                (Fin 99) (Fin 5) (Fin 0) (Fin 100) E eq_refl eq_refl eq_refl)
      as (a' & _ & Hor & Hex & Hns).
    assert (a' = Fin 0) as ->.
    { destruct Hor as [->| ->]; [reflexivity|].
      apply clamp_id. simpl. lra. }
    assert (Hg : fgt (Fin 99 + Fin (0.5 * _dt (set_ind sim_one k)) *
                        (clamp_min 0
                           (Fin 5 + Fin 0 * Fin (_dt (set_ind sim_one k)))
                         + Fin 5))%tf (Fin 100) = true).
    { apply fgt_true. exists 100. split; [reflexivity|].
      change (100 < 99 + 0.5 * 1 * (Rmax (5 + 0 * 1) 0 + 5)).
      rewrite track_end_position. lra. }
    rewrite Hg in Hex, Hns.
    destruct (_next_state_lengths within_bounds _ _ _ _ _ _ 1%nat E
                eq_refl eq_refl eq_refl) as [Hl1 Hl2].
    destruct ns as [|st [|]]; try discriminate.
    destruct ex as [|e [|]]; try discriminate.
    simpl in Hex, Hns. injection Hex as ->. injection Hns as ->.
    exists act. reflexivity.
  - apply _next_state_raises in E.
    destruct E as ([|[|j]] & st & Hs & Hn & Ha); discriminate.
Qed.

(** C3 at the end of the track: with track length 100, arc length 99, arc
    speed 5, time step 1 and action 0, the computed position is 104, the
    exceeded flag is set and the arc state is undefined in both components. *)
Lemma next_state_trapezoid_at_track_end :
  99 + 0.5 * 1 * (Rmax (5 + 0 * 1) 0 + 5) = 104 /\
  exists ns act ex,
    _next_state within_bounds sim_one [(Fin 99, Fin 5)] [Fin 0]
    = Some (ns, act, ex) /\
    ex !! 0%nat = Some true /\
    ns !! 0%nat = Some (NaN, NaN).
Proof.
  split; [exact track_end_position|].
  destruct (next_state_trapezoid within_bounds sim_one
              [(Fin 99, Fin 5)] [Fin 0] 0%nat 99 5 0 (Fin 100))
    as (ns & act & ex & E & _ & _ & H).
  - reflexivity.
  - reflexivity.
  - intros [|[|j]] st Hs Hn; discriminate.
  - reflexivity.
  - reflexivity.
  - simpl. lra.
  - reflexivity.
  - exists ns, act, ex. split; [exact E|].
    apply (H 100 eq_refl).
    change (100 < 99 + 0.5 * 1 * (Rmax (5 + 0 * 1) 0 + 5)).
    rewrite track_end_position. lra.
Defined.

(** C4, as the specification words it: every resulting arc speed would be at
    least zero.  The vehicle that runs past the end of its track gets the
    undefined arc speed, which is not at least zero. *)
Lemma next_speed_undefined_past_track_end :
  exists ns act ex st,
    _next_state within_bounds sim_one [(Fin 99, Fin 5)] [Fin 0]
    = Some (ns, act, ex) /\
    ns !! 0%nat = Some st /\
    st.2 = NaN /\
    fle (Fin 0) st.2 = false.
Proof.
  destruct (track_end_run 0) as [act E].
  exists [(NaN, NaN)], act, [true], (NaN, NaN). repeat split. exact E.
Qed.

Lemma next_speed_nonneg_or_undefined_at_track_end :
  exists ns act ex st,
    _next_state within_bounds sim_one [(Fin 99, Fin 5)] [Fin 0]
    = Some (ns, act, ex) /\
    ns !! 0%nat = Some st /\
    (st.2 = NaN \/ exists v, st.2 = Fin v /\ 0 <= v).
Proof.
  destruct (track_end_run 0) as [act E].
  exists [(NaN, NaN)], act, [true], (NaN, NaN).
  split; [exact E|]. split; [reflexivity|].
  exact (proj1 (next_speed_nonneg_or_undefined within_bounds)
           sim_one _ _ _ _ _ 0%nat _ E eq_refl).
Defined.

(** C5 on the scene: an undefined action for the active vehicle makes the
    single step raise. *)
Lemma nan_action_raises_only_unbatched_on_scene :
  length [NaN] = length [(Fin 99, Fin 5)] /\
  _next_state within_bounds sim_one [(Fin 99, Fin 5)] [NaN] = None.
Proof.
  split; [reflexivity|].
  apply (proj1 (nan_action_raises_only_unbatched within_bounds)
           sim_one [(Fin 99, Fin 5)] [NaN] eq_refl).
  exists 0%nat, (Fin 99, Fin 5). repeat split.
Defined.

(** ** Mask indexing *)

Lemma where_from_ge (k : nat) (mask : list bool) (n i : nat) :
  where_from k mask !! n = Some i -> (k <= i)%nat.
Proof.
  revert k n. induction mask as [|b mask IH]; intros k n H; [discriminate|].
  simpl in H. destruct b.
  - destruct n as [|n]; simpl in H.
    + injection H as <-. lia.
    + apply IH in H. lia.
  - apply IH in H. lia.
Qed.

Lemma where_from_mask (k : nat) (mask : list bool) (n i : nat) :
  where_from k mask !! n = Some i -> mask !! (i - k)%nat = Some true.
Proof.
  revert k n. induction mask as [|b mask IH]; intros k n H; [discriminate|].
  simpl in H. destruct b.
  - destruct n as [|n]; simpl in H.
    + injection H as <-. now rewrite Nat.sub_diag.
    + pose proof (where_from_ge _ _ _ _ H). apply IH in H.
      replace (i - k)%nat with (S (i - S k)) by lia. exact H.
  - pose proof (where_from_ge _ _ _ _ H). apply IH in H.
    replace (i - k)%nat with (S (i - S k)) by lia. exact H.
Qed.

Lemma where_from_increasing (k : nat) (mask : list bool) (n1 n2 i1 i2 : nat) :
  where_from k mask !! n1 = Some i1 -> where_from k mask !! n2 = Some i2 ->
  (n1 < n2)%nat -> (i1 < i2)%nat.
Proof.
  revert k n1 n2. induction mask as [|b mask IH]; intros k n1 n2 H1 H2 Hlt;
    [discriminate|].
  simpl in H1, H2. destruct b.
  - destruct n2 as [|n2]; [lia|]. simpl in H2.
    destruct n1 as [|n1]; simpl in H1.
    + injection H1 as <-. apply where_from_ge in H2. lia.
    + apply (IH (S k) n1 n2); [assumption|assumption|lia].
  - now apply (IH (S k) n1 n2).
Qed.

Lemma where_from_complete (k : nat) (mask : list bool) (j : nat) :
  mask !! j = Some true -> exists n, where_from k mask !! n = Some (k + j)%nat.
Proof.
  revert k j. induction mask as [|b mask IH]; intros k j H; [discriminate|].
  destruct j as [|j]; simpl in H.
  - injection H as ->. exists 0%nat. simpl. f_equal. lia.
  - destruct (IH (S k) j H) as [n Hn].
    replace (k + S j)%nat with (S k + j)%nat by lia.
    simpl. destruct b; [exists (S n)|exists n]; exact Hn.
Qed.

Lemma mask_select_lookup {A : Type} (l : list A) (mask : list bool)
    (k n : nat) :
  length l = length mask ->
  mask_select l mask !! n
  = where_from k mask !! n ≫= fun i => l !! (i - k)%nat.
Proof.
  revert l k n. induction mask as [|b mask IH]; intros l k n Hlen.
  - destruct l; [reflexivity|discriminate].
  - destruct l as [|a l]; [discriminate|]. simpl in Hlen.
    assert (Hl : length l = length mask) by lia.
    assert (Hshift : forall n', where_from (S k) mask !! n' ≫=
                       (fun i => l !! (i - S k)%nat)
                     = where_from (S k) mask !! n' ≫=
                       (fun i => (a :: l) !! (i - k)%nat)).
    { intros n'. destruct (where_from (S k) mask !! n') as [i|] eqn:E;
        [|reflexivity].
      apply where_from_ge in E. simpl.
      now replace (i - k)%nat with (S (i - S k)) by lia. }
    simpl. destruct b.
    + destruct n as [|n]; simpl.
      * now rewrite Nat.sub_diag.
      * rewrite (IH l (S k) n Hl). apply Hshift.
    + rewrite (IH l (S k) n Hl). apply Hshift.
Qed.

Lemma mask_select_length {A : Type} (l : list A) (mask : list bool) (k : nat) :
  length l = length mask ->
  length (mask_select l mask) = length (where_from k mask).
Proof.
  revert l k. induction mask as [|b mask IH]; intros l k Hlen.
  - destruct l; [reflexivity|discriminate].
  - destruct l as [|a l]; [discriminate|]. simpl in *.
    destruct b; simpl; [f_equal|]; apply IH; lia.
Qed.

(** ** Polygon construction *)

Lemma active_lookup (x : list Pose) (i : nat) :
  active x i = true <->
  ((fun x_ => negb (isnan (pose_x x_))) <$> x) !! i = Some true.
Proof.
  unfold active. rewrite list_lookup_fmap.
  destruct (x !! i) as [x_|]; simpl; [|split; discriminate].
  split; [now intros ->|now intros [= ->]].
Qed.

Section PolygonFacts.

Variables (x : list Pose) (lengths widths : list tfloat).
Hypothesis Hlengths : length x = length lengths.
Hypothesis Hwidths : length widths = length lengths.

Let vp := (states_to_polygons x lengths widths).1.
Let inds := (states_to_polygons x lengths widths).2.

Lemma inds_active (k i : nat) : inds !! k = Some i -> active x i = true.
Proof.
  intros H. apply active_lookup. apply where_from_mask in H.
  now rewrite Nat.sub_0_r in H.
Qed.

Lemma inds_complete (i : nat) :
  active x i = true -> exists k, inds !! k = Some i.
Proof.
  intros H. apply active_lookup in H.
  apply (where_from_complete 0) in H. exact H.
Qed.

Lemma inds_increasing (k1 k2 i1 i2 : nat) :
  inds !! k1 = Some i1 -> inds !! k2 = Some i2 ->
  (k1 < k2)%nat -> (i1 < i2)%nat.
Proof. apply where_from_increasing. Qed.

Lemma inds_injective (k1 k2 i : nat) :
  inds !! k1 = Some i -> inds !! k2 = Some i -> k1 = k2.
Proof.
  intros H1 H2. destruct (Nat.lt_trichotomy k1 k2) as [H|[H|H]]; [|exact H|].
  - pose proof (inds_increasing _ _ _ _ H1 H2 H). lia.
  - pose proof (inds_increasing _ _ _ _ H2 H1 H). lia.
Qed.

Lemma inds_bound (k i : nat) : inds !! k = Some i -> (i < length x)%nat.
Proof.
  intros H. apply inds_active in H. unfold active in H.
  destruct (x !! i) eqn:E; [|discriminate].
  apply lookup_lt_is_Some. eauto.
Qed.

Lemma vp_length : length vp = length inds.
Proof.
  unfold vp, inds, states_to_polygons, zip3_with, torch_where. simpl.
  set (nni := _ <$> x).
  assert (Hn : length nni = length x) by (unfold nni; apply length_fmap).
  rewrite length_zip_with, length_zip.
  rewrite (mask_select_length x nni 0), (mask_select_length lengths nni 0),
    (mask_select_length widths nni 0) by lia.
  lia.
Qed.

Lemma vp_lookup (k i : nat) :
  inds !! k = Some i -> vp !! k = Some (footprint x lengths widths i).
Proof.
  intros H. pose proof (inds_bound _ _ H) as Hi.
  unfold vp, inds, states_to_polygons, zip3_with, torch_where in *.
  simpl in *. set (nni := _ <$> x) in *.
  assert (Hn : length nni = length x) by (unfold nni; apply length_fmap).
  rewrite lookup_zip_with, lookup_zip_with.
  rewrite (mask_select_lookup x nni 0), (mask_select_lookup lengths nni 0),
    (mask_select_lookup widths nni 0) by lia.
  rewrite H. simpl. rewrite Nat.sub_0_r.
  unfold footprint.
  rewrite (list_lookup_lookup_total_lt x i) by lia.
  rewrite (list_lookup_lookup_total_lt lengths i) by lia.
  rewrite (list_lookup_lookup_total_lt widths i) by lia.
  reflexivity.
Qed.

End PolygonFacts.

(** ** Matrices *)

Lemma entry_zeros (n m a b : nat) :
  (a < n)%nat -> (b < m)%nat -> entry (zeros n m) a b = Some 0%nat.
Proof.
  intros Ha Hb. unfold entry, zeros.
  rewrite (proj2 (lookup_replicate n (replicate m 0%nat) _ a)) by auto.
  simpl. now apply lookup_replicate.
Qed.

Lemma zeros_shape (n m : nat) : is_shape n m (zeros n m).
Proof.
  split; [apply length_replicate|].
  apply Forall_forall. intros row Hin.
  apply elem_of_replicate in Hin as [-> _]. apply length_replicate.
Qed.

Lemma entry_mset (c : Matrix) (i j v a b x : nat) :
  entry c a b = Some x ->
  entry (mset c i j v) a b = Some (if decide (i = a /\ j = b) then v else x).
Proof.
  unfold entry, mset. intros H. rewrite list_lookup_alter.
  destruct (decide (i = a)) as [->|Hia].
  - destruct (c !! a) as [row|]; [|discriminate]. simpl in *.
    rewrite list_lookup_insert.
    destruct (decide (j = b)) as [->|Hjb].
    + assert (b < length row)%nat by (apply lookup_lt_is_Some; eauto).
      rewrite decide_True by auto. now rewrite decide_True by auto.
    + rewrite decide_False by (intros [? _]; contradiction).
      rewrite decide_False by (intros [_ ?]; contradiction). exact H.
  - rewrite decide_False by (intros [? _]; contradiction). exact H.
Qed.

Lemma mset_shape (n m : nat) (c : Matrix) (i j v : nat) :
  is_shape n m c -> is_shape n m (mset c i j v).
Proof.
  intros [Hl Hr]. unfold mset. split; [now rewrite length_alter|].
  apply Forall_lookup. intros a row Ha. rewrite list_lookup_alter in Ha.
  rewrite Forall_lookup in Hr.
  destruct (decide (i = a)) as [->|_]; [|eauto].
  destruct (c !! a) as [row0|] eqn:E; [|discriminate].
  injection Ha as <-. rewrite length_insert. eauto.
Qed.

Lemma ew2_shape {A B C : Type} (f : A -> B -> C) (n m : nat)
    (c : list (list A)) (d : list (list B)) :
  is_shape n m c -> is_shape n m d -> is_shape n m (ew2 f c d).
Proof.
  intros [Hc Hrc] [Hd Hrd]. unfold ew2. split.
  - rewrite length_zip_with. lia.
  - apply Forall_lookup. intros a row Ha.
    apply lookup_zip_with_Some in Ha as (r1 & r2 & -> & H1 & H2).
    rewrite Forall_lookup in Hrc. rewrite Forall_lookup in Hrd.
    rewrite length_zip_with, (Hrc _ _ H1), (Hrd _ _ H2). lia.
Qed.

(** A matrix of known shape is the table of its entries. *)
Lemma shape_tabulate {A : Type} (n m : nat) (c : list (list A))
    (g : nat -> nat -> A) :
  is_shape n m c ->
  (forall a b, (a < n)%nat -> (b < m)%nat -> entry c a b = Some (g a b)) ->
  c = (fun a => g a <$> seq 0 m) <$> seq 0 n.
Proof.
  intros [Hl Hr] Hg. apply list_eq. intros a.
  rewrite list_lookup_fmap.
  destruct (decide (a < n)%nat) as [Ha|Ha].
  - rewrite (proj2 (lookup_seq 0 n a a)) by auto. simpl.
    destruct (c !! a) as [row|] eqn:E.
    + f_equal. apply list_eq. intros b. rewrite list_lookup_fmap.
      rewrite Forall_lookup in Hr. pose proof (Hr _ _ E) as Hrow.
      destruct (decide (b < m)%nat) as [Hb|Hb].
      * rewrite (proj2 (lookup_seq 0 m b b)) by auto. simpl.
        specialize (Hg a b Ha Hb). unfold entry in Hg. now rewrite E in Hg.
      * rewrite lookup_ge_None_2 by lia.
        rewrite lookup_ge_None_2 by (rewrite length_seq; lia). reflexivity.
    + apply lookup_ge_None in E. lia.
  - rewrite lookup_ge_None_2 by lia.
    rewrite lookup_ge_None_2 by (rewrite length_seq; lia). reflexivity.
Qed.

(** ** The loops of [collision_matrix] *)

Lemma foldl_bind {A B C : Type} (f : A -> B -> A) (g : C -> list B)
    (l : list C) (a : A) :
  foldl f a (l ≫= g) = foldl (fun a x => foldl f a (g x)) a l.
Proof.
  revert a. induction l as [|x l IH]; intros a; [reflexivity|].
  rewrite bind_cons, foldl_app. simpl. apply IH.
Qed.

Lemma elem_of_upairs (n i j : nat) :
  (i, j) ∈ upairs n <-> (j < i < n)%nat.
Proof.
  unfold upairs. rewrite list_elem_of_bind. split.
  - intros (i' & Hj & Hi). apply elem_of_seq in Hi.
    apply list_elem_of_fmap in Hj as (j' & [= -> ->] & Hj).
    apply elem_of_seq in Hj. lia.
  - intros H. exists i. split.
    + apply list_elem_of_fmap. exists j. split; [reflexivity|].
      apply elem_of_seq. lia.
    + apply elem_of_seq. lia.
Qed.

Lemma nested_loops_marks (P : nat -> nat -> bool) (f : nat -> nat)
    (c : Matrix) (nv : nat) :
  foldl (fun c_mat i =>
    foldl (fun c_mat j =>
      if P i j then mset (mset c_mat (f i) (f j) 1) (f j) (f i) 1 else c_mat)
      c_mat (seq 0 i))
    c (seq 1 (nv - 1))
  = foldl (mark P f) c (upairs nv).
Proof.
  unfold upairs. rewrite foldl_bind.
  revert c. induction (seq 1 (nv - 1)) as [|i l IH]; intros c; [reflexivity|].
  simpl. rewrite <- IH. f_equal. now rewrite foldl_fmap.
Qed.

Lemma mark_entry (P : nat -> nat -> bool) (f : nat -> nat) (c : Matrix)
    (ij : nat * nat) (a b x : nat) :
  entry c a b = Some x ->
  entry (mark P f c ij) a b
  = Some (if P ij.1 ij.2 && hits f a b ij then 1%nat else x).
Proof.
  intros H. unfold mark, hits. destruct (P ij.1 ij.2); simpl; [|exact H].
  rewrite (entry_mset _ _ _ _ _ _ _ (entry_mset _ _ _ _ _ _ _ H)).
  f_equal. repeat case_decide; case_bool_decide; try reflexivity; tauto.
Qed.

Lemma marks_entry (P : nat -> nat -> bool) (f : nat -> nat)
    (l : list (nat * nat)) (c : Matrix) (a b x : nat) :
  entry c a b = Some x ->
  entry (foldl (mark P f) c l) a b
  = Some (if existsb (fun ij => P ij.1 ij.2 && hits f a b ij) l
          then 1%nat else x).
Proof.
  revert c x. induction l as [|ij l IH]; intros c x H; [exact H|].
  simpl. rewrite (IH _ _ (mark_entry P f c ij a b x H)).
  f_equal. destruct (P ij.1 ij.2 && hits f a b ij); simpl; [|reflexivity].
  now destruct (existsb _ l).
Qed.

Lemma marks_shape (P : nat -> nat -> bool) (f : nat -> nat)
    (l : list (nat * nat)) (c : Matrix) (n m : nat) :
  is_shape n m c -> is_shape n m (foldl (mark P f) c l).
Proof.
  revert c. induction l as [|ij l IH]; intros c H; [exact H|].
  simpl. apply IH. unfold mark. destruct (P ij.1 ij.2); [|exact H].
  now do 2 apply mset_shape.
Qed.

(** ** The collision matrix, entry by entry *)

Section CollisionFacts.

Variable intersects : Polygon -> Polygon -> bool.
Variables (x : list Pose) (lengths widths : list tfloat).
Hypothesis Hlengths : length x = length lengths.
Hypothesis Hwidths : length widths = length lengths.

Let vp := (states_to_polygons x lengths widths).1.
Let inds := (states_to_polygons x lengths widths).2.
Let P (i j : nat) : bool := intersects (vp !!! i) (vp !!! j).
Let f (i : nat) : nat := inds !!! i.

Lemma collision_matrix_marks :
  collision_matrix intersects x lengths widths
  = foldl (mark P f) (zeros (length lengths) (length lengths))
      (upairs (length vp)).
Proof.
  unfold collision_matrix.
  change (states_to_polygons x lengths widths) with (vp, inds).
  cbv zeta. cbn iota beta.
  exact (nested_loops_marks P f _ _).
Qed.

Lemma collision_matrix_shape :
  is_shape (length lengths) (length lengths)
    (collision_matrix intersects x lengths widths).
Proof. rewrite collision_matrix_marks. apply marks_shape, zeros_shape. Qed.

Lemma marked_collides (a b : nat) :
  existsb (fun ij => P ij.1 ij.2 && hits f a b ij) (upairs (length vp))
  = collides intersects x lengths widths a b.
Proof.
  pose proof (vp_length x lengths widths Hlengths Hwidths) as Hlen.
  fold vp inds in Hlen.
  assert (Hf : forall k, (k < length vp)%nat -> inds !! k = Some (f k)).
  { intros k Hk. apply list_lookup_lookup_total_lt. lia. }
  assert (HP : forall k, (k < length vp)%nat ->
                 vp !!! k = footprint x lengths widths (f k)).
  { intros k Hk. apply list_lookup_total_correct.
    apply (vp_lookup x lengths widths Hlengths Hwidths), Hf, Hk. }
  apply eq_true_iff_eq. split.
  - intros H. apply existsb_exists in H as ([i j] & Hin & H).
    apply list_elem_of_In, elem_of_upairs in Hin. simpl in H.
    apply andb_true_iff in H as [HPij Hhit].
    unfold P in HPij. rewrite !HP in HPij by lia.
    pose proof (inds_increasing x lengths widths _ _ _ _ (Hf j ltac:(lia)) (Hf i ltac:(lia))
                  ltac:(lia)) as Hlt.
    pose proof (inds_active x lengths widths _ _ (Hf i ltac:(lia))) as Hai.
    pose proof (inds_active x lengths widths _ _ (Hf j ltac:(lia))) as Haj.
    unfold hits in Hhit. apply bool_decide_eq_true in Hhit. simpl in Hhit.
    unfold collides.
    destruct Hhit as [[<- <-]|[<- <-]].
    + rewrite Nat.max_l, Nat.min_r by lia.
      rewrite Hai, Haj, HPij, bool_decide_eq_true_2 by lia. reflexivity.
    + rewrite Nat.max_r, Nat.min_l by lia.
      rewrite Hai, Haj, HPij, bool_decide_eq_true_2 by lia. reflexivity.
  - unfold collides. intros H.
    apply andb_true_iff in H as [H Hint]. apply andb_true_iff in H as [H Hb].
    apply andb_true_iff in H as [Hne Ha]. apply bool_decide_eq_true in Hne.
    destruct (inds_complete x lengths widths a Ha) as [ka Hka].
    destruct (inds_complete x lengths widths b Hb) as [kb Hkb].
    fold inds in Hka, Hkb.
    assert (Hka' : (ka < length vp)%nat)
      by (rewrite Hlen; apply lookup_lt_is_Some; eauto).
    assert (Hkb' : (kb < length vp)%nat)
      by (rewrite Hlen; apply lookup_lt_is_Some; eauto).
    assert (Hfa : f ka = a) by (pose proof (Hf ka Hka'); congruence).
    assert (Hfb : f kb = b) by (pose proof (Hf kb Hkb'); congruence).
    apply existsb_exists.
    destruct (Nat.lt_trichotomy ka kb) as [Hk|[Hk|Hk]].
    + pose proof (inds_increasing x lengths widths _ _ _ _ Hka Hkb Hk) as Hab.
      rewrite Nat.max_r, Nat.min_l in Hint by lia.
      exists (kb, ka). split.
      * apply list_elem_of_In, elem_of_upairs. lia.
      * simpl. unfold P, hits. rewrite !HP, Hfa, Hfb, Hint by lia. simpl.
        apply bool_decide_eq_true_2. auto.
    + subst kb. congruence.
    + pose proof (inds_increasing x lengths widths _ _ _ _ Hkb Hka Hk) as Hab.
      rewrite Nat.max_l, Nat.min_r in Hint by lia.
      exists (ka, kb). split.
      * apply list_elem_of_In, elem_of_upairs. lia.
      * simpl. unfold P, hits. rewrite !HP, Hfa, Hfb, Hint by lia. simpl.
        apply bool_decide_eq_true_2. auto.
Qed.

Lemma collision_matrix_entry (a b : nat) :
  (a < length lengths)%nat -> (b < length lengths)%nat ->
  entry (collision_matrix intersects x lengths widths) a b
  = Some (if collides intersects x lengths widths a b then 1%nat else 0%nat).
Proof.
  intros Ha Hb. rewrite collision_matrix_marks.
  rewrite (marks_entry P f _ _ a b 0%nat (entry_zeros _ _ a b Ha Hb)).
  now rewrite marked_collides.
Qed.

End CollisionFacts.

Lemma collides_sym (intersects : Polygon -> Polygon -> bool)
    (x : list Pose) (lengths widths : list tfloat) (a b : nat) :
  collides intersects x lengths widths a b
  = collides intersects x lengths widths b a.
Proof.
  unfold collides. rewrite (Nat.max_comm a b), (Nat.min_comm a b).
  destruct (active x a), (active x b);
    repeat case_bool_decide; simpl; try reflexivity; congruence.
Qed.

Lemma collides_irrefl (intersects : Polygon -> Polygon -> bool)
    (x : list Pose) (lengths widths : list tfloat) (a : nat) :
  collides intersects x lengths widths a a = false.
Proof. unfold collides. now rewrite bool_decide_eq_false_2 by auto. Qed.

Lemma collides_active (intersects : Polygon -> Polygon -> bool)
    (x : list Pose) (lengths widths : list tfloat) (a b : nat) :
  active x a = false ->
  collides intersects x lengths widths a b = false /\
  collides intersects x lengths widths b a = false.
Proof.
  intros H. unfold collides. rewrite H. split.
  - now rewrite andb_false_r.
  - now rewrite andb_false_r, andb_false_l.
Qed.

(** ** Counting the non-zero entries of a symmetric matrix *)

Lemma sum_list_app (l k : list nat) :
  sum_list (l ++ k) = (sum_list l + sum_list k)%nat.
Proof. induction l as [|a l IH]; simpl; lia. Qed.

Lemma sumf_S (f : nat -> nat) (n : nat) : sumf f (S n) = (sumf f n + f n)%nat.
Proof.
  unfold sumf. rewrite seq_S, fmap_app, sum_list_app. simpl. lia.
Qed.

Lemma sumf_ext (f g : nat -> nat) (n : nat) :
  (forall a, (a < n)%nat -> f a = g a) -> sumf f n = sumf g n.
Proof.
  intros H. induction n as [|n IH]; [reflexivity|].
  rewrite !sumf_S, IH, H by (intros; try apply H; lia). reflexivity.
Qed.

Lemma sumf_add (f g : nat -> nat) (n : nat) :
  sumf (fun a => f a + g a)%nat n = (sumf f n + sumf g n)%nat.
Proof.
  induction n as [|n IH]; [reflexivity|]. rewrite !sumf_S, IH. lia.
Qed.

Lemma length_filter_fmap {A B : Type} (P : B -> Prop)
    `{!forall y, Decision (P y)} (f : A -> B) (l : list A) :
  length (filter P (f <$> l))
  = sum_list ((fun a => if decide (P (f a)) then 1%nat else 0%nat) <$> l).
Proof.
  induction l as [|a l IH]; [reflexivity|].
  rewrite !fmap_cons, filter_cons. simpl.
  destruct (decide (P (f a))); simpl; now rewrite IH.
Qed.

Lemma upairs_S (n : nat) :
  upairs (S n) = upairs n ++ ((fun j => (n, j)) <$> seq 0 n).
Proof.
  unfold upairs. destruct n as [|n]; [reflexivity|].
  replace (S (S n) - 1)%nat with (S n) by lia.
  replace (S n - 1)%nat with n by lia.
  rewrite seq_S, bind_app. f_equal.
  change ([(1 + n)%nat] ≫= _) with (((fun j => (S n, j)) <$> seq 0 (S n)) ++ []).
  apply app_nil_r.
Qed.

Section SymmetricCount.

Variable g : nat -> nat -> nat.
Hypothesis g_sym : forall a b, g a b = g b a.
Hypothesis g_diag : forall a, g a a = 0%nat.

Let h (a b : nat) : nat := if decide (g a b ≠ 0%nat) then 1%nat else 0%nat.

Lemma count_nonzero_table (n m : nat) :
  count_nonzero ((fun a => g a <$> seq 0 m) <$> seq 0 n)
  = sumf (fun a => sumf (h a) m) n.
Proof.
  unfold count_nonzero, sumf. rewrite <- list_fmap_compose. f_equal.
  apply list_fmap_ext. intros _ a _. simpl.
  rewrite (length_filter_fmap (fun v => v ≠ 0%nat)). reflexivity.
Qed.

Lemma count_upairs (n : nat) :
  length (filter (fun ab => g ab.1 ab.2 ≠ 0%nat) (upairs n))
  = sumf (fun a => sumf (h a) a) n.
Proof.
  induction n as [|n IH]; [reflexivity|].
  rewrite upairs_S, filter_app, length_app, IH, sumf_S. f_equal.
  rewrite (length_filter_fmap (fun ab : nat * nat => g ab.1 ab.2 ≠ 0%nat)).
  reflexivity.
Qed.

Lemma square_twice_triangle (n : nat) :
  sumf (fun a => sumf (h a) n) n = (2 * sumf (fun a => sumf (h a) a) n)%nat.
Proof.
  induction n as [|n IH]; [reflexivity|].
  rewrite !sumf_S.
  rewrite (sumf_ext (fun a => sumf (h a) (S n))
             (fun a => sumf (h a) n + h a n)%nat)
    by (intros; apply sumf_S).
  rewrite sumf_add, IH.
  rewrite (sumf_ext (fun a => h a n) (h n))
    by (intros a _; unfold h; now rewrite (g_sym a n)).
  assert (h n n = 0%nat) as ->.
  { unfold h. rewrite g_diag. now rewrite decide_False by auto. }
  lia.
Qed.

Lemma count_nonzero_symmetric (n : nat) :
  count_nonzero ((fun a => g a <$> seq 0 n) <$> seq 0 n)
  = (2 * length (filter (fun ab => g ab.1 ab.2 ≠ 0%nat) (upairs n)))%nat.
Proof. now rewrite count_nonzero_table, square_twice_triangle, count_upairs. Qed.

End SymmetricCount.

(** ** Collisions along a trajectory *)

Section TrajectoryFacts.

Variable intersects : Polygon -> Polygon -> bool.
Variables (lengths widths : list tfloat).
Hypothesis Hwidths : length widths = length lengths.

Let n := length lengths.

Local Abbreviation hit_count := (frames_hit intersects lengths widths).

Lemma frames_hit_sym (x : list (list Pose)) (a b : nat) :
  hit_count x a b = hit_count x b a.
Proof.
  unfold frames_hit. f_equal. apply list_fmap_ext. intros _ x_t _.
  now rewrite collides_sym.
Qed.

Lemma frames_hit_diag (x : list (list Pose)) (a : nat) :
  hit_count x a a = 0%nat.
Proof.
  induction x as [|x_t x IH]; [reflexivity|].
  change (hit_count (x_t :: x) a a)
    with ((if collides intersects x_t lengths widths a a then 1 else 0)
          + hit_count x a a)%nat.
  now rewrite collides_irrefl, IH.
Qed.

Lemma frames_hit_nonzero (x : list (list Pose)) (a b : nat) :
  hit_count x a b ≠ 0%nat <->
  existsb (fun x_t => collides intersects x_t lengths widths a b) x = true.
Proof.
  induction x as [|x_t x IH].
  - simpl. split; [contradiction|discriminate].
  - change (hit_count (x_t :: x) a b)
      with ((if collides intersects x_t lengths widths a b then 1 else 0)
            + hit_count x a b)%nat.
    simpl existsb.
    destruct (collides intersects x_t lengths widths a b); simpl.
    + split; [reflexivity|lia].
    + exact IH.
Qed.

Lemma accumulate_shape (x : list (list Pose)) (cols : Matrix) :
  Forall (fun x_t => length x_t = n) x ->
  is_shape n n cols ->
  is_shape n n
    (foldl (fun cols x_t =>
              madd cols (collision_matrix intersects x_t lengths widths))
       cols x).
Proof.
  intros Hx. revert cols. induction Hx as [|x_t x Ht Hx IH]; intros cols Hc;
    [exact Hc|].
  simpl. apply IH. apply ew2_shape; [exact Hc|].
  apply collision_matrix_shape.
Qed.

Lemma accumulate_entry (x : list (list Pose)) (cols : Matrix) (a b v : nat) :
  Forall (fun x_t => length x_t = n) x ->
  (a < n)%nat -> (b < n)%nat ->
  entry cols a b = Some v ->
  entry
    (foldl (fun cols x_t =>
              madd cols (collision_matrix intersects x_t lengths widths))
       cols x) a b
  = Some (v + hit_count x a b)%nat.
Proof.
  intros Hx Ha Hb. revert cols v.
  induction Hx as [|x_t x Ht Hx IH]; intros cols v Hc.
  - simpl. rewrite Hc. f_equal. unfold frames_hit. simpl. lia.
  - simpl foldl.
    rewrite (IH _ (v + (if collides intersects x_t lengths widths a b
                        then 1 else 0))%nat).
    + f_equal.
      change (hit_count (x_t :: x) a b)
        with ((if collides intersects x_t lengths widths a b then 1 else 0)
              + hit_count x a b)%nat.
      lia.
    + unfold madd. rewrite entry_ew2, Hc.
      rewrite (collision_matrix_entry intersects x_t lengths widths Ht Hwidths
                 a b Ha Hb).
      reflexivity.
Qed.

(** The summed matrix has two non-zero entries for each pair that collides
    in some frame. *)
Lemma accumulated_nonzero (x : list (list Pose)) :
  Forall (fun x_t => length x_t = n) x ->
  count_nonzero
    (foldl (fun cols x_t =>
              madd cols (collision_matrix intersects x_t lengths widths))
       (zeros n n) x)
  = (2 * length (colliding_pairs intersects x lengths widths))%nat.
Proof.
  intros Hx.
  rewrite (shape_tabulate n n _ (hit_count x)
             (accumulate_shape x _ Hx (zeros_shape n n))).
  - rewrite (count_nonzero_symmetric _ (frames_hit_sym x) (frames_hit_diag x)).
    do 2 f_equal. unfold colliding_pairs.
    apply list_filter_iff. intros [a b]. apply frames_hit_nonzero.
  - intros a b Ha Hb.
    now rewrite (accumulate_entry x _ a b 0%nat Hx Ha Hb
                   (entry_zeros n n a b Ha Hb)).
Qed.

(** Frame by frame: the count of one frame is the number of colliding
    pairs of that frame. *)
Lemma count_collisions_pairs (x_t : list Pose) :
  length x_t = n ->
  count_collisions intersects x_t lengths widths
  = length (filter (fun '(a, b) =>
                      collides intersects x_t lengths widths a b = true)
              (upairs n)).
Proof.
  intros Ht. unfold count_collisions. cbv zeta.
  set (g := fun a b => if collides intersects x_t lengths widths a b
                       then 1%nat else 0%nat).
  rewrite (shape_tabulate n n _ g
             (collision_matrix_shape intersects x_t lengths widths)).
  - rewrite (count_nonzero_symmetric g).
    + rewrite Nat.mul_comm, Nat.div_mul by lia. f_equal.
      apply list_filter_iff. intros [a b]. unfold g. simpl.
      destruct (collides intersects x_t lengths widths a b);
        split; auto; discriminate.
    + intros a b. unfold g. now rewrite collides_sym.
    + intros a. unfold g. now rewrite collides_irrefl.
  - intros a b Ha Hb.
    apply (collision_matrix_entry intersects x_t lengths widths Ht Hwidths
             a b Ha Hb).
Qed.

End TrajectoryFacts.

(** ** The collision statements *)

(** C1, amended: for every trajectory whose frames all have one row per
    vehicle, [count_collisions_trajectory] is the number of vehicle pairs
    that collide in at least one frame; a pair counts once, in however many
    frames it collides. *)
Theorem count_collisions_trajectory_counts_pairs
    (intersects : Polygon -> Polygon -> bool)
    (x : list (list Pose)) (lengths widths : list tfloat) :
  length widths = length lengths ->
  Forall (fun x_t => length x_t = length lengths) x ->
  count_collisions_trajectory intersects x lengths widths
  = length (colliding_pairs intersects x lengths widths).
Proof.
  intros Hw Hx. unfold count_collisions_trajectory. cbv zeta.
  destruct x as [|x0 x'] eqn:Ex.
  - (* no frame: the accumulator is empty and no pair ever collides *)
    unfold colliding_pairs. symmetry.
    induction (upairs (length lengths)) as [|[a b] l IH]; [reflexivity|].
    rewrite filter_cons. now rewrite decide_False by discriminate.
  - rewrite <- Ex in *.
    assert (Hs : shape1 x = length lengths).
    { rewrite Ex in Hx |- *. now inversion Hx. }
    rewrite Hs, (accumulated_nonzero intersects lengths widths Hw x Hx).
    rewrite Nat.mul_comm. apply Nat.div_mul. lia.
Qed.

(** C6: the collision matrix of a frame is a square matrix with
    [c[i,j] = c[j,i]] for all indices and [c[i,i] = 0] on the diagonal. *)
Theorem collision_matrix_symmetric
    (intersects : Polygon -> Polygon -> bool)
    (x : list Pose) (lengths widths : list tfloat) :
  length x = length lengths ->
  length widths = length lengths ->
  let c := collision_matrix intersects x lengths widths in
  is_shape (length lengths) (length lengths) c /\
  (forall i j, entry c i j = entry c j i) /\
  (forall i, (i < length lengths)%nat -> entry c i i = Some 0%nat).
Proof.
  intros Hx Hw c.
  pose proof (collision_matrix_shape intersects x lengths widths) as Hs.
  fold c in Hs. split; [exact Hs|]. split.
  - assert (Hout : forall i j, (length lengths <= i)%nat ->
                     entry c i j = None /\ entry c j i = None).
    { intros i j Hi. destruct Hs as [Hl Hr]. unfold entry. split.
      - now rewrite lookup_ge_None_2 by lia.
      - destruct (c !! j) as [row|] eqn:E; [|reflexivity]. simpl.
        rewrite Forall_lookup in Hr. apply lookup_ge_None_2.
        rewrite (Hr _ _ E). lia. }
    intros i j.
    destruct (decide (i < length lengths)%nat) as [Hi|Hi].
    + destruct (decide (j < length lengths)%nat) as [Hj|Hj].
      * unfold c.
        rewrite !(collision_matrix_entry intersects x lengths widths Hx Hw)
          by assumption.
        now rewrite collides_sym.
      * destruct (Hout j i ltac:(lia)) as [-> ->]. reflexivity.
    + destruct (Hout i j ltac:(lia)) as [-> ->]. reflexivity.
  - intros i Hi. unfold c.
    rewrite (collision_matrix_entry intersects x lengths widths Hx Hw)
      by assumption.
    now rewrite collides_irrefl.
Qed.

(** C7: polygons are built for exactly the vehicles whose first pose
    coordinate is defined, in index order, so a vehicle whose first
    coordinate is undefined has none; its row and its column of the
    collision matrix are zero; and the entry at the original indices
    [(a, b)] tells whether the vehicles [a] and [b] collide. *)
Theorem inactive_vehicle_excluded
    (intersects : Polygon -> Polygon -> bool)
    (x : list Pose) (lengths widths : list tfloat) :
  length x = length lengths ->
  length widths = length lengths ->
  let polys := (states_to_polygons x lengths widths).1 in
  let inds := (states_to_polygons x lengths widths).2 in
  let c := collision_matrix intersects x lengths widths in
  length polys = length inds /\
  (forall k i, inds !! k = Some i ->
     polys !! k = Some (footprint x lengths widths i)) /\
  (forall i x_, x !! i = Some x_ ->
     (isnan (pose_x x_) = true <-> i ∉ inds)) /\
  (forall i j x_, x !! i = Some x_ -> isnan (pose_x x_) = true ->
     (j < length lengths)%nat ->
     entry c i j = Some 0%nat /\ entry c j i = Some 0%nat) /\
  (forall a b, (a < length lengths)%nat -> (b < length lengths)%nat ->
     entry c a b
     = Some (if collides intersects x lengths widths a b
             then 1%nat else 0%nat)).
Proof.
  intros Hx Hw polys inds c.
  split; [exact (vp_length x lengths widths Hx Hw)|].
  split; [exact (vp_lookup x lengths widths Hx Hw)|].
  split; [|split].
  - intros i x_ Hi. split.
    + intros Hnan Hin. apply list_elem_of_lookup in Hin as [k Hk].
      apply inds_active in Hk. unfold active in Hk. rewrite Hi, Hnan in Hk.
      discriminate.
    + intros Hin. destruct (isnan (pose_x x_)) eqn:E; [reflexivity|].
      exfalso. apply Hin.
      destruct (inds_complete x lengths widths i) as [k Hk].
      * unfold active. now rewrite Hi, E.
      * apply list_elem_of_lookup. eauto.
  - intros i j x_ Hi Hnan Hj.
    assert (Ha : active x i = false) by (unfold active; now rewrite Hi, Hnan).
    assert (Hlt : (i < length lengths)%nat).
    { rewrite <- Hx. apply lookup_lt_is_Some. eauto. }
    destruct (collides_active intersects x lengths widths i j Ha) as [E1 E2].
    unfold c.
    rewrite !(collision_matrix_entry intersects x lengths widths Hx Hw)
      by assumption.
    now rewrite E1, E2.
  - intros a b Ha Hb.
    exact (collision_matrix_entry intersects x lengths widths Hx Hw a b Ha Hb).
Qed.

(** ** The collision statements on the scenes *)

Lemma footprint_heading0 (px py li wi : R) :
  state_to_polygon (pose_at px py) (Fin li) (Fin wi)
  = [(Fin (px - li / 2), Fin (py + wi / 2));
     (Fin (px - li / 2), Fin (py - wi / 2));
     (Fin (px + li / 2), Fin (py - wi / 2));
     (Fin (px + li / 2), Fin (py + wi / 2))].
Proof.
  unfold state_to_polygon, pose_at, vadd, vsub, vscale. simpl.
  rewrite cos_0, sin_0.
  repeat match goal with
    | |- _ :: _ = _ :: _ => apply (f_equal2 cons)
    | |- (_, _) = (_, _) => apply (f_equal2 pair)
    | |- Fin _ = Fin _ => apply (f_equal Fin); lra
    end.
  reflexivity.
Qed.

Ltac decide_fle :=
  unfold fle;
  repeat match goal with
    | |- context [Rle_dec ?a ?b] =>
        destruct (Rle_dec a b); [try (exfalso; lra)|try (exfalso; lra)]
    end.

Lemma together_intersect :
  bbox_intersects (footprint frame_together lengths2 widths2 1)
                  (footprint frame_together lengths2 widths2 0) = true.
Proof.
  unfold footprint, frame_together, lengths2, widths2.
  cbn [lookup_total list_lookup_total].
  rewrite !footprint_heading0.
  unfold bbox_intersects. cbn [existsb fst snd]. decide_fle. reflexivity.
Qed.

Lemma apart_disjoint :
  bbox_intersects (footprint frame_apart lengths2 widths2 1)
                  (footprint frame_apart lengths2 widths2 0) = false.
Proof.
  unfold footprint, frame_apart, lengths2, widths2.
  cbn [lookup_total list_lookup_total].
  rewrite !footprint_heading0.
  unfold bbox_intersects. cbn [existsb fst snd]. decide_fle. reflexivity.
Qed.

Lemma collides_together :
  collides bbox_intersects frame_together lengths2 widths2 1 0 = true.
Proof.
  unfold collides. cbn [Nat.max Nat.min]. rewrite together_intersect.
  reflexivity.
Qed.

Lemma collides_apart :
  collides bbox_intersects frame_apart lengths2 widths2 1 0 = false.
Proof.
  unfold collides. cbn [Nat.max Nat.min]. rewrite apart_disjoint.
  apply andb_false_r.
Qed.

Lemma pairs_of_two : upairs (length lengths2) = [(1%nat, 0%nat)].
Proof. reflexivity. Qed.

Lemma trajectory6_shape :
  Forall (fun x_t : list Pose => length x_t = length lengths2) trajectory6.
Proof. repeat constructor. Qed.

Lemma trajectory6_pairs :
  colliding_pairs bbox_intersects trajectory6 lengths2 widths2
  = [(1%nat, 0%nat)].
Proof.
  unfold colliding_pairs. rewrite pairs_of_two, filter_cons.
  rewrite decide_True; [reflexivity|].
  unfold trajectory6. cbn [existsb].
  now rewrite collides_apart, collides_together.
Qed.

Lemma count_together :
  count_collisions bbox_intersects frame_together lengths2 widths2 = 1%nat.
Proof.
  rewrite (count_collisions_pairs bbox_intersects lengths2 widths2 eq_refl
             frame_together eq_refl).
  rewrite pairs_of_two, filter_cons.
  now rewrite decide_True by apply collides_together.
Qed.

Lemma count_apart :
  count_collisions bbox_intersects frame_apart lengths2 widths2 = 0%nat.
Proof.
  rewrite (count_collisions_pairs bbox_intersects lengths2 widths2 eq_refl
             frame_apart eq_refl).
  rewrite pairs_of_two, filter_cons.
  now rewrite decide_False by (rewrite collides_apart; discriminate).
Qed.

(** C1, as the specification words it: the trajectory count would be the
    number of colliding (pair, frame) incidents, 2 for two vehicles that
    collide at exactly the frames 2 and 5 of six.  On that trajectory the
    frames 2 and 5 are the ones with a collision and there are 2 incidents,
    but the count is 1. *)
Lemma trajectory_counts_the_pair_once :
  check_collisions_trajectory bbox_intersects trajectory6 lengths2 widths2
  = [false; false; true; false; false; true] /\
  incidents bbox_intersects trajectory6 lengths2 widths2 = 2%nat /\
  count_collisions_trajectory bbox_intersects trajectory6 lengths2 widths2
  = 1%nat /\
  count_collisions_trajectory bbox_intersects trajectory6 lengths2 widths2
  ≠ incidents bbox_intersects trajectory6 lengths2 widths2.
Proof.
  assert (Hc : count_collisions_trajectory bbox_intersects trajectory6
                 lengths2 widths2 = 1%nat).
  { unfold count_collisions_trajectory. cbv zeta.
    change (shape1 trajectory6) with (length lengths2).
    rewrite (accumulated_nonzero bbox_intersects lengths2 widths2 eq_refl
               trajectory6 trajectory6_shape).
    now rewrite trajectory6_pairs. }
  assert (Hi : incidents bbox_intersects trajectory6 lengths2 widths2 = 2%nat).
  { unfold incidents, trajectory6. rewrite pairs_of_two, !fmap_cons.
    rewrite !filter_cons.
    rewrite !(decide_True (P := collides _ frame_together _ _ _ _ = true))
      by apply collides_together.
    rewrite !(decide_False (P := collides _ frame_apart _ _ _ _ = true))
      by (rewrite collides_apart; discriminate).
    reflexivity. }
  split; [|split; [exact Hi|split; [exact Hc|]]].
  - unfold check_collisions_trajectory, trajectory6, check_collisions.
    rewrite !fmap_cons. now rewrite count_apart, count_together.
  - rewrite Hc, Hi. discriminate.
Qed.

(** C1 on the six frames: the one pair that collides, at frames 2 and 5,
    is counted once. *)
Lemma count_collisions_trajectory_six_frames :
  length widths2 = length lengths2 /\
  count_collisions_trajectory bbox_intersects trajectory6 lengths2 widths2
  = length (colliding_pairs bbox_intersects trajectory6 lengths2 widths2).
Proof.
  split; [reflexivity|].
  exact (count_collisions_trajectory_counts_pairs bbox_intersects trajectory6
           lengths2 widths2 eq_refl trajectory6_shape).
Defined.

(** C6 on the overlapping frame. *)
Lemma collision_matrix_symmetric_together :
  entry (collision_matrix bbox_intersects frame_together lengths2 widths2) 0 1
  = entry (collision_matrix bbox_intersects frame_together lengths2 widths2)
      1 0 /\
  entry (collision_matrix bbox_intersects frame_together lengths2 widths2) 1 1
  = Some 0%nat.
Proof.
  destruct (collision_matrix_symmetric bbox_intersects frame_together
              lengths2 widths2 eq_refl eq_refl) as (_ & Hsym & Hdiag).
  split; [apply Hsym|]. apply Hdiag. simpl. lia.
Defined.

(** C7 on the frame whose second vehicle has not been spawned. *)
Lemma inactive_vehicle_excluded_alone :
  (states_to_polygons frame_alone lengths2 widths2).2 = [0%nat] /\
  entry (collision_matrix bbox_intersects frame_alone lengths2 widths2) 1 0
  = Some 0%nat /\
  entry (collision_matrix bbox_intersects frame_alone lengths2 widths2) 0 1
  = Some 0%nat.
Proof.
  split; [reflexivity|].
  destruct (inactive_vehicle_excluded bbox_intersects frame_alone
              lengths2 widths2 eq_refl eq_refl) as (_ & _ & _ & Hzero & _).
  apply (Hzero 1%nat 0%nat (NaN, NaN, NaN, NaN, NaN)).
  - reflexivity.
  - reflexivity.
  - simpl. lia.
Defined.

(** ** Path generation *)

Lemma fle_true (a b : R) : fle (Fin a) (Fin b) = true <-> a <= b.
Proof. simpl. destruct (Rle_dec a b); split; auto; discriminate. Qed.

Lemma fle_false (a b : R) : fle (Fin a) (Fin b) = false <-> b < a.
Proof.
  simpl. destruct (Rle_dec a b); split; auto; try discriminate; lra.
Qed.

Lemma entry_steps (nv n i k : nat) :
  (i < nv)%nat -> (k < n)%nat ->
  entry (replicate nv (arange1 n)) i k = Some (Fin (INR (S k))).
Proof.
  intros Hi Hk. unfold entry, arange1.
  rewrite (proj2 (lookup_replicate nv _ _ i)) by auto. simpl.
  rewrite list_lookup_fmap, (proj2 (lookup_seq 1 n k (S k))) by auto.
  reflexivity.
Qed.

(** C8: the sample [k] of the path of vehicle [i] is taken at the arc length
    [s = increment + s_i].  Where [s <= smax_i] holds, the position is the
    Horner evaluation of the position polynomials at [s]; elsewhere it is the
    position at [smax_i] plus [(s - smax_i)] times the derivative polynomial
    at [smax_i].  The choice is made for each element against the bound of
    its own vehicle. *)
Theorem generate_paths_extrapolates (self : InteractionSimulator)
    (delta : R) (n : nat) (is_distance override : bool) (i k : nat)
    (s_i sd_i sm : tfloat) (px py dpx dpy : list tfloat) :
  (i < _nv self)%nat -> (k < n)%nat ->
  _state self !! i = Some (s_i, sd_i) ->
  smax self !! i = Some sm ->
  _xpoly self !! i = Some px -> _ypoly self !! i = Some py ->
  svt_dxpoly (_svt self) !! i = Some dpx ->
  svt_dypoly (_svt self) !! i = Some dpy ->
  let s := (increment delta n is_distance override s_i sd_i sm k + s_i)%tf in
  let position (p dp : list tfloat) :=
    if fle s sm then horner_scheme s p
    else (horner_scheme sm p + (s - sm) * horner_scheme sm dp)%tf in
  let '(x, y) := _generate_paths self delta n is_distance override in
  entry x i k = Some (position px dpx) /\
  entry y i k = Some (position py dpy) /\
  (forall sr mr, s = Fin sr -> sm = Fin mr -> sr <= mr ->
     position px dpx = horner_scheme s px /\
     position py dpy = horner_scheme s py) /\
  (forall sr mr, s = Fin sr -> sm = Fin mr -> mr < sr ->
     position px dpx
     = (horner_scheme sm px + (s - sm) * horner_scheme sm dpx)%tf /\
     position py dpy
     = (horner_scheme sm py + (s - sm) * horner_scheme sm dpy)%tf).
Proof.
  intros Hi Hk Hst Hsm Hpx Hpy Hdpx Hdpy s position.
  unfold _generate_paths. cbv zeta.
  set (steps := replicate (_nv self) (arange1 n)).
  pose proof (entry_steps (_nv self) n i k Hi Hk) as Hsteps. fold steps in Hsteps.
  set (ds := if override then _ else _).
  assert (Hds : entry ds i k
                = Some (increment delta n is_distance override s_i sd_i sm k)).
  { unfold ds, increment. destruct override; [|destruct is_distance].
    - rewrite entry_bcast_col, Hsteps. simpl.
      now rewrite lookup_zip_with, list_lookup_fmap, Hsm, Hst.
    - now rewrite entry_map2d, Hsteps.
    - rewrite entry_bcast_col, Hsteps. simpl.
      now rewrite list_lookup_fmap, Hst. }
  set (sg := bcast_col fadd ds (fst <$> _state self)).
  assert (Hs : entry sg i k = Some s).
  { unfold sg. rewrite entry_bcast_col, Hds. simpl.
    now rewrite list_lookup_fmap, Hst. }
  assert (Hn : entry (bcast_col fle sg (smax self)) i k = Some (fle s sm)).
  { rewrite entry_bcast_col, Hs. simpl. now rewrite Hsm. }
  assert (Hpos : forall (p dp : list tfloat) (ps dps : Coefs),
            ps !! i = Some p -> dps !! i = Some dp ->
            entry
              (ew2 (fun (b : bool) (vl : tfloat * tfloat) =>
                      if b then vl.1 else vl.2)
                 (bcast_col fle sg (smax self))
                 (ew2 pair (bcast_col horner_scheme sg ps)
                    (bcast_col (fun r pm => (pm + r)%tf)
                       (bcast_col fmul (bcast_col fsub sg (smax self))
                          (zip_with horner_scheme (smax self) dps))
                       (zip_with horner_scheme (smax self) ps)))) i k
            = Some (position p dp)).
  { intros p dp ps dps Hp Hdp.
    rewrite entry_ew2, Hn. simpl.
    rewrite entry_ew2, !entry_bcast_col, Hs. simpl.
    rewrite !lookup_zip_with, Hsm, Hp, Hdp. simpl.
    unfold position. now destruct (fle s sm). }
  split; [exact (Hpos px dpx _ _ Hpx Hdpx)|].
  split; [exact (Hpos py dpy _ _ Hpy Hdpy)|].
  unfold position. split.
  - intros sr mr Es Em Hle. rewrite Es, Em in *.
    now rewrite (proj2 (fle_true sr mr) Hle).
  - intros sr mr Es Em Hlt. rewrite Es, Em in *.
    now rewrite (proj2 (fle_false sr mr) Hlt).
Qed.

(** C8 on the scene: ten units ahead of arc length 99 on the track of
    length 100 of the line [x(s) = s, y(s) = 0], the path is continued along
    the tangent at the end of the track, to [x = 109]. *)
Lemma generate_paths_extrapolates_on_scene :
  entry (_generate_paths sim_one 10 20 true false).1 0 0 = Some (Fin 109) /\
  entry (_generate_paths sim_one 10 20 true false).2 0 0 = Some (Fin 0).
Proof.
  pose proof (generate_paths_extrapolates sim_one 10 20 true false 0 0
                (Fin 99) (Fin 5) (Fin 100) [Fin 1; Fin 0] [Fin 0]
                [Fin 1] [Fin 0]
                ltac:(unfold _nv; simpl; lia) ltac:(lia)
                eq_refl eq_refl eq_refl eq_refl eq_refl eq_refl) as H.
  cbv zeta in H.
  destruct (_generate_paths sim_one 10 20 true false) as [x y].
  destruct H as (Hx & Hy & _ & Hline).
  destruct (Hline (10 * INR 1 + 99) 100 eq_refl eq_refl) as [Ex Ey].
  { simpl. lra. }
  cbn [fst snd]. rewrite Hx, Hy, Ex, Ey. simpl.
  split; do 2 f_equal; lra.
Defined.

(** ** Relative state *)

Lemma entry_imap2 {A : Type} (f : nat -> nat -> A -> A) (m : list (list A))
    (i j : nat) :
  entry (imap (fun i row => imap (f i) row) m) i j = f i j <$> entry m i j.
Proof.
  unfold entry. rewrite list_lookup_imap.
  destruct (m !! i) as [row|]; [|reflexivity]. simpl.
  apply list_lookup_imap.
Qed.

Lemma entry_outer {A B : Type} (f : A -> A -> B) (l : list A) (i j : nat) :
  entry ((fun a => (fun b => f a b) <$> l) <$> l) i j
  = l !! i ≫= fun a => l !! j ≫= fun b => Some (f a b).
Proof.
  unfold entry. rewrite list_lookup_fmap.
  destruct (l !! i) as [a|]; [|reflexivity]. simpl.
  rewrite list_lookup_fmap. now destruct (l !! j).
Qed.

Section RelativeStateFacts.

Variable adjacency_matrix : InteractionSimulator -> nat -> list (list bool).

(** C9, amended: for a pair [i <> j] that is not masked out (masking by the
    interaction graph is off, or the pair is adjacent in the graph) the
    entry [(i, j)] of the relative state is the pose of [j] minus the pose
    of [i] in the channels [x, y, v cos psi, v sin psi, psi, psidot], the
    heading difference wrapped by [to_circle]; a diagonal entry is undefined
    in all six channels. *)
Theorem relative_state_entries (self : InteractionSimulator)
    (projstate : list Pose) (i j : nat)
    (x_i y_i v_i psi_i psidot_i x_j y_j v_j psi_j psidot_j : tfloat) :
  projstate !! i = Some (x_i, y_i, v_i, psi_i, psidot_i) ->
  projstate !! j = Some (x_j, y_j, v_j, psi_j, psidot_j) ->
  let relstate := _relative_state adjacency_matrix self projstate in
  let adj := adjacency_matrix self (_nv self) in
  (i <> j ->
   _mask_relstate self = false \/ entry adj i j = Some true ->
   entry relstate i j
   = Some (x_j - x_i, y_j - y_i,
           v_j * fcos psi_j - v_i * fcos psi_i,
           v_j * fsin psi_j - v_i * fsin psi_i,
           to_circle (psi_j - psi_i), psidot_j - psidot_i)%tf) /\
  (_mask_relstate self = false \/ is_Some (entry adj i i) ->
   entry relstate i i = Some nan6).
Proof.
  intros Hi Hj relstate adj.
  set (six := fun p : Pose =>
         let '(x, y, v, psi, psidot) := p in
         (x, y, (v * fcos psi)%tf, (v * fsin psi)%tf, psi, psidot)).
  set (wrap := fun r : RelPose =>
         let '(dx, dy, dvx, dvy, dpsi, dpsidot) := r in
         (dx, dy, dvx, dvy, to_circle dpsi, dpsidot)).
  set (rel0 :=
         imap (fun i row =>
                 imap (fun j r => if decide (i = j) then nan6 else r) row)
           (map2d wrap
              ((fun p_i => (fun p_j => sub6 p_j p_i) <$> (six <$> projstate))
                 <$> (six <$> projstate)))).
  assert (H0 : forall a b pa pb,
            projstate !! a = Some pa -> projstate !! b = Some pb ->
            entry rel0 a b
            = Some (if decide (a = b) then nan6
                    else wrap (sub6 (six pb) (six pa)))).
  { intros a b pa pb Ha Hb. unfold rel0.
    rewrite (entry_imap2 (fun i j r => if decide (i = j) then nan6 else r)).
    rewrite entry_map2d.
    rewrite (entry_outer (fun p_i p_j => sub6 p_j p_i)).
    now rewrite !list_lookup_fmap, Ha, Hb. }
  assert (Hrel : relstate
                 = if _mask_relstate self
                   then zip_with
                          (zip_with (fun r (adj : bool) =>
                                       if adj then r else nan6))
                          rel0 adj
                   else rel0) by reflexivity.
  split.
  - intros Hne Hmask. rewrite Hrel.
    assert (E : entry rel0 i j
                = Some (x_j - x_i, y_j - y_i,
                        v_j * fcos psi_j - v_i * fcos psi_i,
                        v_j * fsin psi_j - v_i * fsin psi_i,
                        to_circle (psi_j - psi_i), psidot_j - psidot_i)%tf).
    { rewrite (H0 i j _ _ Hi Hj). now rewrite decide_False by exact Hne. }
    destruct (_mask_relstate self).
    + destruct Hmask as [?|Hadj]; [discriminate|].
      change (zip_with (zip_with ?f) rel0 adj) with (ew2 f rel0 adj).
      now rewrite entry_ew2, E, Hadj.
    + exact E.
  - intros Hmask. rewrite Hrel.
    assert (E : entry rel0 i i = Some nan6).
    { rewrite (H0 i i _ _ Hi Hi). now rewrite decide_True by reflexivity. }
    destruct (_mask_relstate self).
    + destruct Hmask as [?|[b Hadj]]; [discriminate|].
      change (zip_with (zip_with ?f) rel0 adj) with (ew2 f rel0 adj).
      rewrite entry_ew2, E, Hadj. simpl. now destruct b.
    + exact E.
Qed.

End RelativeStateFacts.

(** C9, as the specification words it: every entry off the diagonal would be
    the difference of the two poses.  With masking on and no edge in the
    interaction graph, the entry of two vehicles that stand one unit apart
    is undefined in all six channels. *)
Lemma relative_state_masked :
  frame_together !! 0%nat = Some (pose_at 0 0) /\
  frame_together !! 1%nat = Some (pose_at 0 1) /\
  entry (_relative_state no_edges (sim_two true) frame_together) 0 1
  = Some nan6 /\
  nan6 ≠ (Fin 0 - Fin 0, Fin 1 - Fin 0,
          Fin 0 * fcos (Fin 0) - Fin 0 * fcos (Fin 0),
          Fin 0 * fsin (Fin 0) - Fin 0 * fsin (Fin 0),
          to_circle (Fin 0 - Fin 0), Fin 0 - Fin 0)%tf.
Proof.
  split; [reflexivity|]. split; [reflexivity|]. split.
  - reflexivity.
  - discriminate.
Qed.

(** C9 on the two vehicles one unit apart, without masking. *)
Lemma relative_state_entries_together :
  entry (_relative_state no_edges (sim_two false) frame_together) 0 1
  = Some (Fin 0 - Fin 0, Fin 1 - Fin 0,
          Fin 0 * fcos (Fin 0) - Fin 0 * fcos (Fin 0),
          Fin 0 * fsin (Fin 0) - Fin 0 * fsin (Fin 0),
          to_circle (Fin 0 - Fin 0), Fin 0 - Fin 0)%tf /\
  entry (_relative_state no_edges (sim_two false) frame_together) 1 1
  = Some nan6.
Proof.
  destruct (relative_state_entries no_edges (sim_two false) frame_together
              0 1 _ _ _ _ _ _ _ _ _ _ eq_refl eq_refl) as [H _].
  destruct (relative_state_entries no_edges (sim_two false) frame_together
              1 1 _ _ _ _ _ _ _ _ _ _ eq_refl eq_refl) as [_ Hd].
  split.
  - apply H; [discriminate|left; reflexivity].
  - apply Hd. left; reflexivity.
Defined.

(** ** Stepping the simulation *)

Section StepFacts.

Variable intersects : Polygon -> Polygon -> bool.
Variable action_space_contains : InteractionSimulator -> list tfloat -> bool.
Variable ssdot_to_simstates :
  list tfloat -> list tfloat ->
  Coefs -> Coefs -> Coefs -> Coefs -> Coefs -> Coefs -> list Pose.

Local Abbreviation step_of :=
  (step intersects action_space_contains ssdot_to_simstates).
Local Abbreviation next_state_of := (_next_state action_space_contains).
Local Abbreviation run_of :=
  (run intersects action_space_contains ssdot_to_simstates).

Lemma should_spawn_exceeded (self : InteractionSimulator) (nns : list bool)
    (i : nat) :
  _exceeded self !! i = Some true ->
  should_spawn self nns !! i = Some true -> False.
Proof.
  intros He H. unfold should_spawn in H. cbv zeta in H.
  apply lookup_zip_with_Some in H as (b1 & b2 & Hb & H1 & _).
  apply lookup_zip_with_Some in H1 as (b3 & b4 & -> & H3 & _).
  apply lookup_zip_with_Some in H3 as (b5 & b6 & -> & _ & H6).
  rewrite list_lookup_fmap, He in H6. injection H6 as <-.
  now rewrite andb_false_r in Hb.
Qed.

(** The three ways through [step]. *)
Lemma step_raises_done (self : InteractionSimulator) (action : list tfloat) :
  done self = true -> step_of self action = (self, Raised).
Proof. intros H. unfold step. now rewrite H. Qed.

Lemma step_raises_action (self : InteractionSimulator) (action : list tfloat) :
  done self = false ->
  next_state_of (set_ind self (S (_ind self))) (_state self) action = None ->
  step_of self action = (set_ind self (S (_ind self)), Raised).
Proof.
  intros Hd Hn. unfold step. rewrite Hd. cbv zeta.
  change (_state (set_ind self (S (_ind self)))) with (_state self).
  now rewrite Hn.
Qed.

Lemma step_returns (self : InteractionSimulator) (action : list tfloat)
    (ns : ArcState) (act : list tfloat) (ex : list bool) :
  done self = false ->
  next_state_of (set_ind self (S (_ind self))) (_state self) action
  = Some (ns, act, ex) ->
  exists self' mid,
    let nns := (fun st : tfloat * tfloat => negb (isnan st.1)) <$> _state self in
    let sp := should_spawn mid nns in
    step_of self action = (self', Returned sp) /\
    _svt mid = _svt self /\
    _exceeded mid = zip_with orb (_exceeded self) ex /\
    _svt self' = _svt self /\
    _exceeded self' = zip_with orb (_exceeded self) ex /\
    _state self'
    = zip_with (fun st '(sp, v0) => if sp : bool then (st.1, v0) else st)
        (zip_with (fun st '(sp, s0) => if sp : bool then (s0, st.2) else st)
           ns (zip sp (svt_s0 (_svt self))))
        (zip sp (svt_v0 (_svt self))).
Proof.
  intros Hd Hn. unfold step. rewrite Hd. cbv zeta.
  change (_state (set_ind self (S (_ind self)))) with (_state self).
  rewrite Hn.
  eexists _, _.
  cbv zeta. split; [reflexivity|].
  split; [reflexivity|]. split; [reflexivity|].
  destruct (_ || _); [destruct (_ && _)|]; repeat split; reflexivity.
Qed.

Lemma should_spawn_length (mid : InteractionSimulator) (nns : list bool)
    (n : nat) :
  _nv mid = n -> length (svt_t0 (_svt mid)) = n ->
  length (_exceeded mid) = n -> length nns = n ->
  length (should_spawn mid nns) = n.
Proof.
  intros Hn Ht He Hs. unfold should_spawn. cbv zeta.
  rewrite !length_zip_with, !length_fmap, length_replicate, Hn, Ht, He, Hs.
  lia.
Qed.

Lemma spawn_untouched (ns : ArcState) (sp : list bool) (s0 v0 : list tfloat)
    (i : nat) (st : tfloat * tfloat) (a b : tfloat) :
  ns !! i = Some st -> sp !! i = Some false ->
  s0 !! i = Some a -> v0 !! i = Some b ->
  zip_with (fun st '(sp, v0) => if sp : bool then (st.1, v0) else st)
    (zip_with (fun st '(sp, s0) => if sp : bool then (s0, st.2) else st)
       ns (zip sp s0))
    (zip sp v0) !! i = Some st.
Proof.
  intros Hns Hsp Hs0 Hv0.
  rewrite !lookup_zip_with.
  now rewrite Hns, Hsp, Hs0, Hv0.
Qed.

Lemma well_shaped_step (self : InteractionSimulator) (action : list tfloat) :
  well_shaped self -> length action = _nv self ->
  well_shaped (step_of self action).1 /\
  _svt (step_of self action).1 = _svt self.
Proof.
  intros Hw Ha. destruct (done self) eqn:Hd.
  { now rewrite step_raises_done. }
  destruct (next_state_of (set_ind self (S (_ind self))) (_state self) action)
    as [[[ns act] ex]|] eqn:Hn.
  2: { rewrite step_raises_action by assumption. split; [exact Hw|reflexivity]. }
  destruct (step_returns self action ns act ex Hd Hn)
    as (self' & mid & Hstep & Hmid & Hmide & Hsvt & Hex & Hst).
  cbv zeta in Hstep. rewrite Hstep. cbn [fst]. split; [|exact Hsvt].
  destruct Hw as (H1 & H2 & H3 & H4 & H5 & H6).
  destruct (_next_state_lengths _ _ _ _ _ _ _ (_nv self) Hn H1 Ha H3)
    as [Hlns Hlex].
  assert (Hnv : _nv self' = _nv self) by (unfold _nv; now rewrite Hsvt).
  assert (Hsp : length (should_spawn mid
                  ((fun st : tfloat * tfloat => negb (isnan st.1))
                     <$> _state self)) = _nv self).
  { apply should_spawn_length.
    - unfold _nv. now rewrite Hmid.
    - now rewrite Hmid.
    - rewrite Hmide, length_zip_with, H2, Hlex. apply Nat.min_id.
    - now rewrite length_fmap. }
  unfold well_shaped, smax. rewrite Hnv, Hsvt, Hst, Hex.
  repeat split; try assumption.
  - rewrite !length_zip_with, Hlns, Hsp, H5, H6. lia.
  - rewrite length_zip_with, H2, Hlex. apply Nat.min_id.
Qed.

Lemma gone_step (i : nat) (self : InteractionSimulator)
    (action : list tfloat) :
  gone i self -> length action = _nv self ->
  gone i (step_of self action).1 /\
  (forall sp, (step_of self action).2 = Returned sp -> sp !! i = Some false).
Proof.
  intros (Hw & He & Hs) Ha.
  pose proof (well_shaped_step self action Hw Ha) as [Hw' Hsvt'].
  destruct (done self) eqn:Hd.
  { rewrite step_raises_done by assumption.
    split; [now split|]. discriminate. }
  destruct (next_state_of (set_ind self (S (_ind self))) (_state self) action)
    as [[[ns act] ex]|] eqn:Hn.
  2: { rewrite step_raises_action by assumption.
       split; [now split|]. discriminate. }
  destruct (step_returns self action ns act ex Hd Hn)
    as (self' & mid & Hstep & Hmid & Hmide & Hsvt & Hex & Hst).
  cbv zeta in Hstep. rewrite Hstep in *. cbn [fst snd] in *.
  pose proof Hw as (H1 & H2 & H3 & H4 & H5 & H6).
  assert (Hi : (i < _nv self)%nat).
  { rewrite <- H2. apply lookup_lt_is_Some. eauto. }
  destruct (_next_state_lengths _ _ _ _ _ _ _ (_nv self) Hn H1 Ha H3)
    as [Hlns Hlex].
  destruct (lookup_lt_is_Some_2 action i ltac:(lia)) as [a Hai].
  destruct (lookup_lt_is_Some_2 (smax self) i ltac:(lia)) as [m Hm].
  destruct (lookup_lt_is_Some_2 (svt_s0 (_svt self)) i ltac:(lia)) as [a0 Ha0].
  destruct (lookup_lt_is_Some_2 (svt_v0 (_svt self)) i ltac:(lia)) as [b0 Hb0].
  destruct (_next_state_lookup _ _ _ _ _ _ _ _ _ _ _ _ Hn Hs Hai Hm)
    as (a' & _ & _ & Hexi & Hnsi).
  simpl in Hexi, Hnsi.
  assert (Hflag : zip_with orb (_exceeded self) ex !! i = Some true).
  { now rewrite lookup_zip_with, He, Hexi. }
  set (sp := should_spawn mid _) in *.
  assert (Hspi : sp !! i = Some false).
  { assert (Hl : length sp = _nv self).
    { apply should_spawn_length.
      - unfold _nv. now rewrite Hmid.
      - now rewrite Hmid.
      - rewrite Hmide, length_zip_with, H2, Hlex. apply Nat.min_id.
      - now rewrite length_fmap. }
    destruct (lookup_lt_is_Some_2 sp i ltac:(lia)) as [[|] Hb]; [|exact Hb].
    exfalso. revert Hb. unfold sp. apply should_spawn_exceeded.
    now rewrite Hmide. }
  split.
  - split; [exact Hw'|]. split; [now rewrite Hex|].
    rewrite Hst. now apply (spawn_untouched _ _ _ _ _ _ a0 b0).
  - intros sp' [= <-]. exact Hspi.
Qed.

Lemma gone_marked (i : nat) (self : InteractionSimulator)
    (action : list tfloat) :
  well_shaped self -> length action = _nv self ->
  _exceeded self !! i = Some false ->
  _exceeded (step_of self action).1 !! i = Some true ->
  gone i (step_of self action).1.
Proof.
  intros Hw Ha He He'.
  pose proof (well_shaped_step self action Hw Ha) as [Hw' Hsvt'].
  split; [exact Hw'|]. split; [exact He'|].
  destruct (done self) eqn:Hd.
  { rewrite step_raises_done in He' by assumption. cbn [fst] in He'.
    congruence. }
  destruct (next_state_of (set_ind self (S (_ind self))) (_state self) action)
    as [[[ns act] ex]|] eqn:Hn.
  2: { rewrite step_raises_action in He' by assumption.
       cbn in He'. congruence. }
  destruct (step_returns self action ns act ex Hd Hn)
    as (self' & mid & Hstep & Hmid & Hmide & Hsvt & Hex & Hst).
  cbv zeta in Hstep. rewrite Hstep in *. cbn [fst snd] in *.
  pose proof Hw as (H1 & H2 & H3 & H4 & H5 & H6).
  assert (Hi : (i < _nv self)%nat).
  { rewrite <- H2. apply lookup_lt_is_Some. eauto. }
  destruct (_next_state_lengths _ _ _ _ _ _ _ (_nv self) Hn H1 Ha H3)
    as [Hlns Hlex].
  destruct (lookup_lt_is_Some_2 (_state self) i ltac:(lia)) as [[s sd] Hs].
  destruct (lookup_lt_is_Some_2 action i ltac:(lia)) as [a Hai].
  destruct (lookup_lt_is_Some_2 (smax self) i ltac:(lia)) as [m Hm].
  destruct (lookup_lt_is_Some_2 (svt_s0 (_svt self)) i ltac:(lia)) as [a0 Ha0].
  destruct (lookup_lt_is_Some_2 (svt_v0 (_svt self)) i ltac:(lia)) as [b0 Hb0].
  destruct (_next_state_lookup _ _ _ _ _ _ _ _ _ _ _ _ Hn Hs Hai Hm)
    as (a' & _ & _ & Hexi & Hnsi).
  cbv zeta in Hexi, Hnsi.
  set (g := fgt _ m) in Hexi, Hnsi.
  rewrite Hex, lookup_zip_with, He, Hexi in He'.
  assert (Hg : g = true) by (now destruct g).
  clearbody g. subst g.
  set (sp := should_spawn mid _) in *.
  assert (Hspi : sp !! i = Some false).
  { assert (Hl : length sp = _nv self).
    { apply should_spawn_length.
      - unfold _nv. now rewrite Hmid.
      - now rewrite Hmid.
      - rewrite Hmide, length_zip_with, H2, Hlex. apply Nat.min_id.
      - now rewrite length_fmap. }
    destruct (lookup_lt_is_Some_2 sp i ltac:(lia)) as [[|] Hb]; [|exact Hb].
    exfalso. revert Hb. unfold sp. apply should_spawn_exceeded.
    now rewrite Hmide, lookup_zip_with, He, Hexi. }
  rewrite Hst. now apply (spawn_untouched _ _ _ _ _ _ a0 b0).
Qed.

Lemma gone_run (i : nat) (self : InteractionSimulator)
    (actions : list (list tfloat)) :
  gone i self ->
  Forall (fun a => length a = _nv self) actions ->
  gone i (run_of self actions) /\ _svt (run_of self actions) = _svt self.
Proof.
  intros Hg Ha. revert self Hg Ha.
  induction actions as [|a actions IH]; intros self Hg Ha; [now split|].
  apply Forall_cons in Ha as [Ha Has].
  destruct (gone_step i self a Hg Ha) as [Hg' _].
  destruct (well_shaped_step self a (proj1 Hg) Ha) as [_ Hsvt].
  destruct (IH (step_of self a).1 Hg') as [Hr Hs].
  - unfold _nv. now rewrite Hsvt.
  - split; [exact Hr|]. unfold run in *. simpl. now rewrite Hs.
Qed.

(** C10: when a step sets the exceeded flag of vehicle [i], then after any
    number of further calls of [step] the flag is still set and the arc
    state of the vehicle is undefined, and in every further call that
    returns the vehicle does not satisfy the spawn condition. *)
Theorem exceeded_is_permanent (i : nat) (self : InteractionSimulator)
    (action : list tfloat) (actions : list (list tfloat)) :
  well_shaped self ->
  length action = _nv self ->
  Forall (fun a => length a = _nv self) actions ->
  _exceeded self !! i = Some false ->
  _exceeded (step_of self action).1 !! i = Some true ->
  let self' := run_of (step_of self action).1 actions in
  _exceeded self' !! i = Some true /\
  _state self' !! i = Some (NaN, NaN) /\
  (forall a sp, length a = _nv self ->
     (step_of self' a).2 = Returned sp -> sp !! i = Some false).
Proof.
  intros Hw Ha Has He He' self'.
  pose proof (gone_marked i self action Hw Ha He He') as Hg.
  destruct (well_shaped_step self action Hw Ha) as [_ Hsvt].
  assert (Hnv : _nv (step_of self action).1 = _nv self)
    by (unfold _nv; now rewrite Hsvt).
  destruct (gone_run i (step_of self action).1 actions Hg) as [Hg' Hsvt'].
  { now rewrite Hnv. }
  fold self' in Hg', Hsvt'.
  split; [exact (proj1 (proj2 Hg'))|]. split; [exact (proj2 (proj2 Hg'))|].
  intros a sp Hla. apply (gone_step i self' a Hg').
  unfold _nv. now rewrite Hsvt', Hsvt.
Qed.

End StepFacts.

(** C10 on the scene: the vehicle runs past the end of its track in the
    first step and stays gone through two more. *)
Lemma exceeded_is_permanent_on_scene :
  let step_ := step bbox_intersects within_bounds straight_projection in
  let self' :=
    run bbox_intersects within_bounds straight_projection
      (step_ sim_one [Fin 0]).1 [[Fin 0]; [Fin 3]] in
  _exceeded sim_one !! 0%nat = Some false /\
  _exceeded (step_ sim_one [Fin 0]).1 !! 0%nat = Some true /\
  _exceeded self' !! 0%nat = Some true /\
  _state self' !! 0%nat = Some (NaN, NaN).
Proof.
  intros step_ self'.
  assert (H1 : _exceeded (step_ sim_one [Fin 0]).1 !! 0%nat = Some true).
  { destruct (track_end_run 1) as [act E].
    destruct (step_returns bbox_intersects within_bounds straight_projection
                sim_one [Fin 0] _ _ _ eq_refl E)
      as (s1 & mid & Hstep & _ & _ & _ & Hex & _).
    cbv zeta in Hstep. unfold step_. rewrite Hstep. cbn [fst].
    now rewrite Hex. }
  split; [reflexivity|]. split; [exact H1|].
  destruct (exceeded_is_permanent bbox_intersects within_bounds
              straight_projection 0%nat sim_one [Fin 0] [[Fin 0]; [Fin 3]])
    as (Hflag & Hstate & _).
  - repeat split.
  - reflexivity.
  - repeat constructor.
  - reflexivity.
  - exact H1.
  - split; assumption.
Defined.

(** * Further properties *)

(** ** Collisions in a frame and along a trajectory *)

Lemma filter_nonempty {A : Type} (P : A -> Prop) `{!forall x, Decision (P x)}
    (l : list A) :
  (0 < length (filter P l))%nat <-> exists x, x ∈ l /\ P x.
Proof.
  split.
  - intros Hpos. destruct (filter P l) as [|x k] eqn:E; [simpl in Hpos; lia|].
    assert (Hx : x ∈ filter P l) by (rewrite E; left).
    apply list_elem_of_filter in Hx. exists x. tauto.
  - intros (x & Hin & HP).
    assert (Hx : x ∈ filter P l) by (apply list_elem_of_filter; auto).
    destruct (filter P l); [inversion Hx|simpl; lia].
Qed.

Lemma filter_length_mono {A : Type} (P Q : A -> Prop)
    `{!forall x, Decision (P x)} `{!forall x, Decision (Q x)} (l : list A) :
  (forall x, P x -> Q x) ->
  (length (filter P l) <= length (filter Q l))%nat.
Proof.
  intros Himp. induction l as [|x l IH]; [reflexivity|].
  rewrite !filter_cons.
  destruct (decide (P x)) as [HP|HP]; destruct (decide (Q x)) as [HQ|HQ];
    simpl; try lia.
  exfalso. auto.
Qed.

Lemma filter_length_or {A : Type} (p q : A -> bool) (l : list A) :
  (length (filter (fun x => p x || q x = true) l)
   <= length (filter (fun x => p x = true) l)
      + length (filter (fun x => q x = true) l))%nat.
Proof.
  induction l as [|x l IH]; [reflexivity|].
  rewrite !filter_cons.
  destruct (p x), (q x); simpl;
    repeat (case_decide; try discriminate; try congruence); simpl; lia.
Qed.

Section FrameFacts.

Variable intersects : Polygon -> Polygon -> bool.
Variables (lengths widths : list tfloat).
Hypothesis Hwidths : length widths = length lengths.

(** A colliding pair is listed among the index pairs, the larger index
    first. *)
Lemma collides_listed (x : list Pose) (a b : nat) :
  length x = length lengths ->
  collides intersects x lengths widths a b = true ->
  exists a' b', (a', b') ∈ upairs (length lengths) /\
    collides intersects x lengths widths a' b' = true.
Proof.
  intros Hx H. pose proof H as H'. unfold collides in H'.
  apply andb_true_iff in H' as [H' _]. apply andb_true_iff in H' as [H' Hb].
  apply andb_true_iff in H' as [Hne Ha]. apply bool_decide_eq_true in Hne.
  assert (Hlt : forall i, active x i = true -> (i < length lengths)%nat).
  { intros i Hi. unfold active in Hi. rewrite <- Hx.
    destruct (x !! i) eqn:E; [|discriminate].
    apply lookup_lt_is_Some. eauto. }
  pose proof (Hlt a Ha). pose proof (Hlt b Hb).
  destruct (decide (b < a)%nat).
  - exists a, b. split; [apply elem_of_upairs; lia|exact H].
  - exists b, a. split; [apply elem_of_upairs; lia|].
    now rewrite collides_sym.
Qed.

Lemma check_collisions_pairs (x : list Pose) :
  length x = length lengths ->
  check_collisions intersects x lengths widths = true <->
  exists a b, collides intersects x lengths widths a b = true.
Proof.
  intros Hx. unfold check_collisions.
  rewrite (count_collisions_pairs intersects lengths widths Hwidths x Hx).
  rewrite Nat.ltb_lt, filter_nonempty. split.
  - intros ([a b] & _ & H). eauto.
  - intros (a & b & H).
    destruct (collides_listed x a b Hx H) as (a' & b' & Hin & H').
    exists (a', b'). auto.
Qed.

End FrameFacts.

(** X1: the collision count of a frame is the number of pairs of distinct
    active vehicles whose footprints intersect. *)
Theorem count_collisions_counts_pairs
    (intersects : Polygon -> Polygon -> bool)
    (x : list Pose) (lengths widths : list tfloat) :
  length x = length lengths ->
  length widths = length lengths ->
  count_collisions intersects x lengths widths
  = length (filter (fun '(a, b) =>
                      collides intersects x lengths widths a b = true)
              (upairs (length lengths))).
Proof.
  intros Hx Hw.
  exact (count_collisions_pairs intersects lengths widths Hw x Hx).
Qed.

(** X2: a frame has a collision exactly when two of its vehicles collide. *)
Theorem check_collisions_iff_some_pair
    (intersects : Polygon -> Polygon -> bool)
    (x : list Pose) (lengths widths : list tfloat) :
  length x = length lengths ->
  length widths = length lengths ->
  check_collisions intersects x lengths widths = true <->
  exists a b, a <> b /\ active x a = true /\ active x b = true /\
    intersects (footprint x lengths widths (a `max` b))
               (footprint x lengths widths (a `min` b)) = true.
Proof.
  intros Hx Hw.
  rewrite (check_collisions_pairs intersects lengths widths Hw x Hx).
  split.
  - intros (a & b & H). exists a, b. unfold collides in H.
    apply andb_true_iff in H as [H Hi]. apply andb_true_iff in H as [H Hb].
    apply andb_true_iff in H as [Hne Ha]. apply bool_decide_eq_true in Hne.
    auto.
  - intros (a & b & Hne & Ha & Hb & Hi). exists a, b. unfold collides.
    now rewrite Ha, Hb, Hi, bool_decide_eq_true_2 by exact Hne.
Qed.

(** X3: a frame with at most one active vehicle, the empty frame included,
    has a zero collision matrix, no collision counted and no collision
    flagged. *)
Theorem lone_vehicle_never_collides
    (intersects : Polygon -> Polygon -> bool)
    (x : list Pose) (lengths widths : list tfloat) :
  length x = length lengths ->
  length widths = length lengths ->
  (forall a b, active x a = true -> active x b = true -> a = b) ->
  (forall a b, (a < length lengths)%nat -> (b < length lengths)%nat ->
     entry (collision_matrix intersects x lengths widths) a b = Some 0%nat) /\
  count_collisions intersects x lengths widths = 0%nat /\
  check_collisions intersects x lengths widths = false.
Proof.
  intros Hx Hw Hone.
  assert (Hno : forall a b, collides intersects x lengths widths a b = false).
  { intros a b. unfold collides.
    destruct (bool_decide (a ≠ b)) eqn:Hne; [|reflexivity].
    apply bool_decide_eq_true in Hne.
    destruct (active x a) eqn:Ha; [|reflexivity].
    destruct (active x b) eqn:Hb; [|reflexivity].
    exfalso. apply Hne. now apply Hone. }
  assert (Hc : count_collisions intersects x lengths widths = 0%nat).
  { rewrite (count_collisions_pairs intersects lengths widths Hw x Hx).
    induction (upairs (length lengths)) as [|[a b] l IH]; [reflexivity|].
    rewrite filter_cons, decide_False; [exact IH|].
    rewrite Hno. discriminate. }
  split; [|split; [exact Hc|]].
  - intros a b Ha Hb.
    rewrite (collision_matrix_entry intersects x lengths widths Hx Hw a b Ha Hb).
    now rewrite Hno.
  - unfold check_collisions. now rewrite Hc.
Qed.

Section TrajectoryBounds.

Variable intersects : Polygon -> Polygon -> bool.
Variables (lengths widths : list tfloat).
Hypothesis Hwidths : length widths = length lengths.
Variable x : list (list Pose).
Hypothesis Hx : Forall (fun x_t => length x_t = length lengths) x.

Lemma trajectory_count_length :
  count_collisions_trajectory intersects x lengths widths
  = length (colliding_pairs intersects x lengths widths).
Proof.
  unfold count_collisions_trajectory. cbv zeta.
  destruct x as [|x0 x'] eqn:Ex.
  - unfold colliding_pairs. symmetry.
    induction (upairs (length lengths)) as [|[a b] l IH]; [reflexivity|].
    rewrite filter_cons. now rewrite decide_False by discriminate.
  - rewrite <- Ex in *.
    assert (Hs : shape1 x = length lengths).
    { rewrite Ex in Hx |- *. now inversion Hx. }
    rewrite Hs, (accumulated_nonzero intersects lengths widths Hwidths x Hx).
    rewrite Nat.mul_comm. apply Nat.div_mul. lia.
Qed.

Lemma trajectory_count_positive :
  (0 < count_collisions_trajectory intersects x lengths widths)%nat <->
  exists x_t a b, x_t ∈ x /\
    collides intersects x_t lengths widths a b = true.
Proof.
  rewrite trajectory_count_length. unfold colliding_pairs.
  rewrite filter_nonempty. split.
  - intros ([a b] & _ & H). apply existsb_exists in H as (x_t & Hin & H).
    exists x_t, a, b. split; [now apply list_elem_of_In|exact H].
  - intros (x_t & a & b & Hin & H).
    assert (Hl : length x_t = length lengths).
    { rewrite Forall_forall in Hx. now apply Hx. }
    destruct (collides_listed intersects lengths widths Hwidths x_t a b Hl H)
      as (a' & b' & Hin' & H').
    exists (a', b'). split; [exact Hin'|].
    apply existsb_exists. exists x_t. split; [now apply list_elem_of_In|exact H'].
Qed.

End TrajectoryBounds.

Lemma any_flag_iff_count
    (intersects : Polygon -> Polygon -> bool)
    (x : list (list Pose)) (lengths widths : list tfloat) :
  length widths = length lengths ->
  Forall (fun x_t => length x_t = length lengths) x ->
  existsb (fun b : bool => b)
    (check_collisions_trajectory intersects x lengths widths)
  = (0 <? count_collisions_trajectory intersects x lengths widths)%nat.
Proof.
  intros Hw Hx. apply eq_true_iff_eq.
  rewrite Nat.ltb_lt,
    (trajectory_count_positive intersects lengths widths Hw x Hx).
  rewrite existsb_exists. unfold check_collisions_trajectory. split.
  - intros (b & Hin & ->).
    apply list_elem_of_In, list_elem_of_fmap in Hin as (x_t & Hc & Hin).
    assert (Hl : length x_t = length lengths).
    { rewrite Forall_forall in Hx. now apply Hx. }
    symmetry in Hc.
    apply (check_collisions_pairs intersects lengths widths Hw x_t Hl) in Hc
      as (a & b & H).
    eauto.
  - intros (x_t & a & b & Hin & H). exists true. split; [|reflexivity].
    apply list_elem_of_In, list_elem_of_fmap. exists x_t. split; [|exact Hin].
    assert (Hl : length x_t = length lengths).
    { rewrite Forall_forall in Hx. now apply Hx. }
    symmetry.
    apply (check_collisions_pairs intersects lengths widths Hw x_t Hl). eauto.
Qed.


(** X4: some frame of a trajectory is flagged by
    [check_collisions_trajectory] exactly when
    [count_collisions_trajectory] counts a collision. *)
Theorem trajectory_flagged_iff_counted
    (intersects : Polygon -> Polygon -> bool)
    (x : list (list Pose)) (lengths widths : list tfloat) :
  length widths = length lengths ->
  Forall (fun x_t => length x_t = length lengths) x ->
  existsb (fun b : bool => b)
    (check_collisions_trajectory intersects x lengths widths)
  = (0 <? count_collisions_trajectory intersects x lengths widths)%nat.
Proof.
  intros Hw Hx. exact (any_flag_iff_count intersects x lengths widths Hw Hx).
Qed.

(** X5: the trajectory count is at least the count of each of its frames
    and at most the sum of the counts of its frames. *)
Theorem trajectory_count_bounds
    (intersects : Polygon -> Polygon -> bool)
    (x : list (list Pose)) (lengths widths : list tfloat) :
  length widths = length lengths ->
  Forall (fun x_t => length x_t = length lengths) x ->
  (forall x_t, x_t ∈ x ->
     (count_collisions intersects x_t lengths widths
      <= count_collisions_trajectory intersects x lengths widths)%nat) /\
  (count_collisions_trajectory intersects x lengths widths
   <= sum_list ((fun x_t => count_collisions intersects x_t lengths widths)
                  <$> x))%nat.
Proof.
  intros Hw Hx.
  rewrite (trajectory_count_length intersects lengths widths Hw x Hx).
  unfold colliding_pairs. split.
  - intros x_t Hin.
    assert (Hl : length x_t = length lengths).
    { rewrite Forall_forall in Hx. now apply Hx. }
    rewrite (count_collisions_pairs intersects lengths widths Hw x_t Hl).
    apply filter_length_mono. intros [a b] H.
    apply existsb_exists. exists x_t. split; [now apply list_elem_of_In|exact H].
  - induction Hx as [|x_t x' Hl Hx' IH].
    + simpl. induction (upairs (length lengths)) as [|[a b] l IHl];
        [reflexivity|].
      rewrite filter_cons. now rewrite decide_False by discriminate.
    + rewrite fmap_cons. simpl sum_list.
      rewrite (count_collisions_pairs intersects lengths widths Hw x_t Hl).
      set (p := fun ab : nat * nat =>
                  collides intersects x_t lengths widths ab.1 ab.2).
      set (q := fun ab : nat * nat =>
                  existsb (fun x_t' =>
                             collides intersects x_t' lengths widths
                               ab.1 ab.2) x').
      set (U := upairs (length lengths)) in *.
      assert (E1 : filter (fun '(a, b) =>
                     existsb (fun x_t' =>
                                collides intersects x_t' lengths widths a b)
                       (x_t :: x') = true) U
                   = filter (fun ab => p ab || q ab = true) U).
      { apply list_filter_iff. intros [a b]. reflexivity. }
      assert (E2 : filter (fun '(a, b) =>
                     collides intersects x_t lengths widths a b = true) U
                   = filter (fun ab => p ab = true) U).
      { apply list_filter_iff. intros [a b]. reflexivity. }
      assert (E3 : filter (fun '(a, b) =>
                     existsb (fun x_t' =>
                                collides intersects x_t' lengths widths a b)
                       x' = true) U
                   = filter (fun ab => q ab = true) U).
      { apply list_filter_iff. intros [a b]. reflexivity. }
      rewrite E1, E2. rewrite E3 in IH.
      pose proof (filter_length_or p q U). lia.
Qed.

(** X6: the footprint of a vehicle with a defined position and heading is
    the rectangle around [(px, py)]: both diagonals have the position as
    their midpoint, the two long sides are [li] times the unit heading, the
    two short sides [wi] times the unit normal, of lengths [li] and [wi];
    speed and yaw rate play no part. *)
Theorem footprint_is_rectangle (px py psi li wi : R) (v psidot : tfloat) :
  exists llx lly lrx lry urx ury ulx uly : R,
    state_to_polygon (Fin px, Fin py, v, Fin psi, psidot) (Fin li) (Fin wi)
    = [(Fin llx, Fin lly); (Fin lrx, Fin lry);
       (Fin urx, Fin ury); (Fin ulx, Fin uly)] /\
    (llx + urx = 2 * px /\ lly + ury = 2 * py /\
     lrx + ulx = 2 * px /\ lry + uly = 2 * py) /\
    (urx - lrx = li * cos psi /\ ury - lry = li * sin psi /\
     ulx - llx = li * cos psi /\ uly - lly = li * sin psi) /\
    (ulx - urx = wi * - sin psi /\ uly - ury = wi * cos psi /\
     llx - lrx = wi * - sin psi /\ lly - lry = wi * cos psi) /\
    (urx - lrx) * (urx - lrx) + (ury - lry) * (ury - lry) = li * li /\
    (ulx - urx) * (ulx - urx) + (uly - ury) * (uly - ury) = wi * wi.
Proof.
  pose proof (sin2_cos2 psi) as H. unfold Rsqr in H.
  do 8 eexists. split; [reflexivity|].
  set (c := cos psi) in *. set (s := sin psi) in *.
  repeat split; try field.
  - transitivity (li * li * (s * s + c * c)); [field|rewrite H; ring].
  - transitivity (wi * wi * (s * s + c * c)); [field|rewrite H; ring].
Qed.

(** ** The integrator: applied action, direction of travel, batches *)

Lemma clamp_nearest (lo hi x : R) :
  lo <= hi ->
  exists y, clamp lo hi (Fin x) = Fin y /\ lo <= y <= hi /\
    (x < lo -> y = lo) /\ (hi < x -> y = hi) /\ (lo <= x <= hi -> y = x).
Proof.
  intros Hb. eexists. split; [reflexivity|].
  unfold Rmin, Rmax.
  destruct (Rle_dec x lo), (Rle_dec lo hi), (Rle_dec x hi);
    repeat split; intros; lra.
Qed.

Lemma within_bounds_sound (self : InteractionSimulator)
    (action : list tfloat) (i : nat) (r : R) :
  within_bounds self action = true -> action !! i = Some (Fin r) ->
  _min_acc self <= r <= _max_acc self.
Proof.
  unfold within_bounds. intros H Hi.
  rewrite forallb_forall in H.
  specialize (H (Fin r)). rewrite <- list_elem_of_In in H.
  specialize (H ltac:(apply list_elem_of_lookup; eauto)).
  apply andb_true_iff in H as [H1 H2].
  apply fle_true in H1. apply fle_true in H2. lra.
Qed.

Lemma entry_singleton {A : Type} (row : list A) (i : nat) :
  entry [row] 0 i = row !! i.
Proof. reflexivity. Qed.

Lemma singleton_rows {A : Type} (m : list (list A)) (row : list A) :
  length m = 1%nat -> (forall i, entry m 0 i = row !! i) -> m = [row].
Proof.
  intros Hl H. destruct m as [|r [|]]; try discriminate.
  f_equal. apply list_eq. exact H.
Qed.

Section IntegratorExtras.

Variable action_space_contains : InteractionSimulator -> list tfloat -> bool.

(** [Box.contains] accepts nothing outside the bounds of the action
    space. *)
Hypothesis contains_sound :
  forall self action i r,
    action_space_contains self action = true ->
    action !! i = Some (Fin r) ->
    _min_acc self <= r <= _max_acc self.

Local Abbreviation next_state_of := (_next_state action_space_contains).

Lemma applied_action (self : InteractionSimulator)
    (state ns : ArcState) (action act : list tfloat) (ex : list bool)
    (i : nat) (a : tfloat) :
  next_state_of self state action = Some (ns, act, ex) ->
  action !! i = Some a ->
  act !! i
  = Some (clamp (_min_acc self) (_max_acc self)
            (if isnan a then Fin 0 else a)).
Proof.
  unfold _next_state. destruct (existsb _ _); [discriminate|].
  intros H Ha. cbv zeta in H. apply (inj Some) in H.
  apply pair_equal_spec in H as [H _].
  apply pair_equal_spec in H as [_ <-].
  set (act0 := zip_with _ action _).
  assert (H0 : act0 !! i = Some (if isnan a then Fin 0 else a)).
  { unfold act0. rewrite lookup_zip_with, list_lookup_fmap, Ha. simpl.
    now destruct (isnan a). }
  destruct (negb (action_space_contains self act0)) eqn:Hc.
  - now rewrite list_lookup_fmap, H0.
  - apply negb_false_iff in Hc. rewrite H0. f_equal.
    assert (exists r, (if isnan a then Fin 0 else a) = Fin r) as [r Hr]
      by (destruct a; simpl; eauto).
    rewrite Hr in *. symmetry. apply clamp_id.
    exact (contains_sound self act0 i r Hc H0).
Qed.

(** X7: the action a step applies is the requested one, an undefined
    request counting as 0 in the single step, moved to the nearest bound of
    the action space: it lies within the bounds, is the lower bound for a
    request below it, the upper bound for a request above it, and the
    request itself in between.  The batched step leaves an undefined request
    undefined. *)
Theorem applied_action_nearest_bound (self : InteractionSimulator) :
  _min_acc self <= _max_acc self ->
  (forall state ns action act ex i a,
     next_state_of self state action = Some (ns, act, ex) ->
     action !! i = Some a ->
     let r := match a with NaN => 0 | Fin r => r end in
     exists y, act !! i = Some (Fin y) /\
       _min_acc self <= y <= _max_acc self /\
       (r < _min_acc self -> y = _min_acc self) /\
       (_max_acc self < r -> y = _max_acc self) /\
       (_min_acc self <= r <= _max_acc self -> y = r)) /\
  (forall state action b i r,
     entry action b i = Some (Fin r) ->
     exists y,
       entry (_next_state_batch self state action).1.2 b i = Some (Fin y) /\
       _min_acc self <= y <= _max_acc self /\
       (r < _min_acc self -> y = _min_acc self) /\
       (_max_acc self < r -> y = _max_acc self) /\
       (_min_acc self <= r <= _max_acc self -> y = r)) /\
  (forall state action b i,
     entry action b i = Some NaN ->
     entry (_next_state_batch self state action).1.2 b i = Some NaN).
Proof.
  intros Hb. split; [|split].
  - intros state ns action act ex i a E Ha r.
    rewrite (applied_action self state ns action act ex i a E Ha).
    destruct (clamp_nearest (_min_acc self) (_max_acc self) r Hb)
      as (y & Ey & Hy).
    exists y. split; [|exact Hy]. f_equal. rewrite <- Ey.
    now destruct a.
  - intros state action b i r Ha.
    destruct (clamp_nearest (_min_acc self) (_max_acc self) r Hb)
      as (y & Ey & Hy).
    exists y. split; [|exact Hy].
    unfold _next_state_batch. cbv zeta. cbn [fst snd].
    now rewrite entry_map2d, Ha, <- Ey.
  - intros state action b i Ha.
    unfold _next_state_batch. cbv zeta. cbn [fst snd].
    now rewrite entry_map2d, Ha.
Qed.

(** X8: a vehicle never moves backward.  In a single step that returns,
    with a time step that is not negative, a vehicle with a defined arc
    state and an arc speed that is not negative, which stays on its track,
    has a next arc length at least the current one and at most the length of
    its track, and a next arc speed that is not negative. *)
Theorem never_moves_backward (self : InteractionSimulator)
    (state ns : ArcState) (action act : list tfloat) (ex : list bool)
    (i : nat) (s sd m : R) (a : tfloat) :
  next_state_of self state action = Some (ns, act, ex) ->
  state !! i = Some (Fin s, Fin sd) ->
  action !! i = Some a ->
  smax self !! i = Some (Fin m) ->
  ex !! i = Some false ->
  0 <= _dt self -> 0 <= sd ->
  exists s' sd', ns !! i = Some (Fin s', Fin sd') /\
    s <= s' <= m /\ 0 <= sd'.
Proof.
  intros E Hs Ha Hm Hex Hdt Hsd.
  destruct (_next_state_lookup _ _ _ _ _ _ _ _ _ _ _ _ E Hs Ha Hm)
    as (a' & Hact & Hor & Hex' & Hns).
  cbv zeta in Hex', Hns.
  destruct a as [|r].
  { assert (next_state_of self state action = None) as E'.
    { apply _next_state_raises. exists i, (Fin s, Fin sd). auto. }
    congruence. }
  assert (exists a1, a' = Fin a1) as (a1 & ->).
  { destruct Hor as [->| ->]; simpl; eauto. }
  set (g := fgt _ (Fin m)) in Hex', Hns.
  rewrite Hex in Hex'. apply (inj Some) in Hex'.
  assert (Hg : g = false) by congruence. rewrite Hg in Hns.
  eexists _, _. split; [exact Hns|].
  pose proof (Rmax_r (sd + a1 * _dt self) 0) as Hv.
  unfold g in Hg. simpl in Hg.
  destruct (Rlt_dec _ _) as [|Hle] in Hg; [discriminate|].
  repeat split; [|lra|exact Hv].
  assert (0 <= 0.5 * _dt self * (Rmax (sd + a1 * _dt self) 0 + sd)).
  { apply Rmult_le_pos; lra. }
  lra.
Qed.

Lemma _next_state_batch_length (self : InteractionSimulator)
    (state : list ArcState) (action : list (list tfloat)) :
  length state = length action ->
  length (_next_state_batch self state action).1.1 = length state /\
  length (_next_state_batch self state action).2 = length state.
Proof.
  intros Hl. unfold _next_state_batch, ew2, map2d. cbv zeta. cbn [fst snd].
  repeat rewrite ?length_zip_with, ?length_fmap.
  lia.
Qed.

Lemma _next_state_batch_outside (self : InteractionSimulator)
    (state : list ArcState) (action : list (list tfloat)) (b i : nat) :
  entry state b i = None ->
  entry (_next_state_batch self state action).1.1 b i = None /\
  entry (_next_state_batch self state action).2 b i = None.
Proof.
  intros Hs. unfold _next_state_batch. cbv zeta. cbn [fst snd].
  set (ns0 := ew2 _ state _).
  assert (H0 : entry ns0 b i = None).
  { unfold ns0. now rewrite entry_ew2, Hs. }
  assert (H1 : entry ((fun row : ArcState =>
                         zip_with fgt (fst <$> row) (smax self)) <$> ns0) b i
               = None).
  { unfold entry in *. rewrite list_lookup_fmap.
    destruct (ns0 !! b) as [row|]; [|reflexivity]. simpl in *.
    now rewrite lookup_zip_with, list_lookup_fmap, H0. }
  split; [|exact H1]. now rewrite entry_ew2, H0.
Qed.

(** X9: the batched step agrees with the single step.  Where the single
    step returns, on an arc state whose arc speed is undefined wherever the
    arc length is, the batched step on the batch of that one state and
    action yields the same next state and the same exceeded flags, and the
    same applied action wherever an action was requested. *)
Theorem batch_agrees_with_single_step (self : InteractionSimulator)
    (state ns : ArcState) (action act : list tfloat) (ex : list bool) :
  length action = length state ->
  length (smax self) = length state ->
  (forall i s sd, state !! i = Some (s, sd) -> isnan s = true ->
                  isnan sd = true) ->
  next_state_of self state action = Some (ns, act, ex) ->
  (_next_state_batch self [state] [action]).1.1 = [ns] /\
  (_next_state_batch self [state] [action]).2 = [ex] /\
  (forall i r, action !! i = Some (Fin r) ->
     entry (_next_state_batch self [state] [action]).1.2 0 i = act !! i).
Proof.
  intros Ha Hm Hinv E.
  destruct (_next_state_lengths action_space_contains _ _ _ _ _ _
              (length state) E eq_refl Ha Hm) as [Hlns Hlex].
  destruct (_next_state_batch_length self [state] [action] eq_refl)
    as [Hb1 Hb2].
  assert (Hrow : forall i,
            entry (_next_state_batch self [state] [action]).1.1 0 i = ns !! i /\
            entry (_next_state_batch self [state] [action]).2 0 i = ex !! i).
  { intros i. destruct (state !! i) as [[s sd]|] eqn:Hs.
    2: { destruct (_next_state_batch_outside self [state] [action] 0 i)
           as [-> ->]; [exact Hs|].
         apply lookup_ge_None in Hs.
         now rewrite !lookup_ge_None_2 by lia. }
    assert (Hi : (i < length state)%nat)
      by (apply lookup_lt_is_Some; eauto).
    destruct (lookup_lt_is_Some_2 action i ltac:(lia)) as [a Hai].
    destruct (lookup_lt_is_Some_2 (smax self) i ltac:(lia)) as [m Hmi].
    destruct (_next_state_lookup _ _ _ _ _ _ _ _ _ _ _ _ E Hs Hai Hmi)
      as (a' & Hact & _ & Hex & Hns).
    rewrite (applied_action self state ns action act ex i a E Hai) in Hact.
    apply (inj Some) in Hact. subst a'.
    pose proof (_next_state_batch_lookup self [state] [action] 0 i s sd a m
                  Hs Hai Hmi) as Hb.
    cbv zeta in Hb, Hex, Hns.
    destruct (_next_state_batch self [state] [action]) as [[nsb actb] exb].
    destruct Hb as (_ & Hbe & Hbn). cbn [fst snd].
    rewrite Hbe, Hbn, Hex, Hns.
    destruct a as [|r]; [|split; reflexivity].
    (* an undefined action: the single step returned, so the arc length
       and with it the arc speed are undefined *)
    destruct (isnan s) eqn:Hnan.
    - pose proof (Hinv i s sd Hs Hnan) as Hsd.
      destruct s; [|discriminate]. destruct sd; [|discriminate].
      split; reflexivity.
    - assert (next_state_of self state action = None) as E'.
      { apply _next_state_raises. exists i, (s, sd). auto. }
      congruence. }
  split; [|split].
  - apply singleton_rows; [exact Hb1|]. intros i. apply Hrow.
  - apply singleton_rows; [exact Hb2|]. intros i. apply Hrow.
  - intros i r Hai.
    rewrite (applied_action self state ns action act ex i _ E Hai).
    unfold _next_state_batch. cbv zeta. cbn [fst snd].
    rewrite entry_map2d. change (entry [action] 0 i) with (action !! i).
    now rewrite Hai.
Qed.

(** X20: the integrator leaves an inactive vehicle inactive.  A vehicle with
    an undefined arc length comes out of a single step that returns, and of
    a batched step, with an undefined arc length and a clear exceeded
    flag. *)
Theorem inactive_stays_inactive (self : InteractionSimulator) :
  (forall state ns action act ex i sd a m,
     next_state_of self state action = Some (ns, act, ex) ->
     state !! i = Some (NaN, sd) -> action !! i = Some a ->
     smax self !! i = Some m ->
     exists sd', ns !! i = Some (NaN, sd') /\ ex !! i = Some false) /\
  (forall state action b i sd a m,
     entry state b i = Some (NaN, sd) -> entry action b i = Some a ->
     smax self !! i = Some m ->
     exists sd',
       entry (_next_state_batch self state action).1.1 b i = Some (NaN, sd') /\
       entry (_next_state_batch self state action).2 b i = Some false).
Proof.
  split.
  - intros state ns action act ex i sd a m E Hs Ha Hm.
    destruct (_next_state_lookup _ _ _ _ _ _ _ _ _ _ _ _ E Hs Ha Hm)
      as (a' & _ & _ & Hex & Hns).
    simpl in Hex, Hns. eauto.
  - intros state action b i sd a m Hs Ha Hm.
    pose proof (_next_state_batch_lookup self state action b i NaN sd a m
                  Hs Ha Hm) as H.
    cbv zeta in H.
    destruct (_next_state_batch self state action) as [[ns act] ex].
    destruct H as (_ & Hex & Hns). simpl in Hex, Hns. cbn [fst snd]. eauto.
Qed.

End IntegratorExtras.

(** ** Targeting an arc length *)

Lemma target_state_lookup (self : InteractionSimulator) (ssdot : ArcState)
    (mu : R) (act : list tfloat) (i : nat) (s sd ts tv : tfloat) :
  target_state self ssdot mu = Some act ->
  _state self !! i = Some (s, sd) -> ssdot !! i = Some (ts, tv) ->
  act !! i
  = Some (if isnan s || isnan ts then Fin 0
          else (Fin 2 * (ts - s - Fin (_dt self) * sd)
                / Fin (_dt self ^ 2 + 4 * mu / _dt self ^ 2))%tf).
Proof.
  unfold target_state. destruct (negb _); [discriminate|].
  intros [= <-] Hs Ht.
  rewrite !lookup_zip_with, !list_lookup_fmap, Hs, Ht. reflexivity.
Qed.

Section TargetFacts.

Variable action_space_contains : InteractionSimulator -> list tfloat -> bool.

Local Abbreviation next_state_of := (_next_state action_space_contains).

(** X10: with a time step and a divisor that are not zero, [target_state]
    raises exactly when the target has not one row per vehicle.  Otherwise,
    on an arc state whose arc speed is defined wherever the arc length is,
    it returns one action per vehicle, none of them undefined, and 0 for a
    vehicle whose arc length or target is undefined; the single step
    accepts that action. *)
Theorem target_state_is_accepted (self : InteractionSimulator)
    (ssdot : ArcState) (mu : R) :
  _dt self <> 0 ->
  _dt self ^ 2 + 4 * mu / _dt self ^ 2 <> 0 ->
  length (_state self) = _nv self ->
  (forall i s sd, _state self !! i = Some (s, sd) -> isnan s = false ->
                  isnan sd = false) ->
  (target_state self ssdot mu = None <-> length ssdot <> _nv self) /\
  (forall act, target_state self ssdot mu = Some act ->
     length act = _nv self /\
     (forall i, act !! i <> Some NaN) /\
     (forall i s sd ts tv,
        _state self !! i = Some (s, sd) -> ssdot !! i = Some (ts, tv) ->
        isnan s || isnan ts = true -> act !! i = Some (Fin 0)) /\
     next_state_of self (_state self) act <> None).
Proof.
  intros _ _ Hl Hinv. split.
  - unfold target_state.
    destruct (length ssdot =? _nv self)%nat eqn:E; simpl.
    + apply Nat.eqb_eq in E. split; [discriminate|contradiction].
    + apply Nat.eqb_neq in E. split; auto.
  - intros act Hact.
    assert (Hls : length ssdot = _nv self).
    { unfold target_state in Hact.
      destruct (length ssdot =? _nv self)%nat eqn:E; [|discriminate].
      now apply Nat.eqb_eq. }
    assert (Hla : length act = _nv self).
    { unfold target_state in Hact. destruct (negb _); [discriminate|].
      injection Hact as <-.
      repeat rewrite ?length_zip_with, ?length_fmap. lia. }
    assert (Hnn : forall i, act !! i <> Some NaN).
    { intros i Hi.
      assert (Hlt : (i < _nv self)%nat)
        by (rewrite <- Hla; apply lookup_lt_is_Some; eauto).
      destruct (lookup_lt_is_Some_2 (_state self) i ltac:(lia))
        as [[s sd] Hs].
      destruct (lookup_lt_is_Some_2 ssdot i ltac:(lia)) as [[ts tv] Ht].
      rewrite (target_state_lookup self ssdot mu act i s sd ts tv Hact Hs Ht)
        in Hi.
      destruct s as [|s]; [discriminate|].
      destruct ts as [|ts]; [discriminate|].
      pose proof (Hinv i (Fin s) sd Hs eq_refl) as Hsd.
      destruct sd; discriminate. }
    split; [exact Hla|]. split; [exact Hnn|]. split.
    + intros i s sd ts tv Hs Ht Hm.
      rewrite (target_state_lookup self ssdot mu act i s sd ts tv Hact Hs Ht).
      now rewrite Hm.
    + intros E. apply _next_state_raises in E as (i & st & _ & _ & Hi).
      exact (Hnn i Hi).
Qed.

(** X11: with no smoothing, the action of [target_state] reaches the
    target.  For a vehicle with a defined arc state [(s, sd)] and the
    target arc length [ts], the action is [2 (ts - s - dt sd) / dt^2]; when
    it lies within the bounds of the action space and does not ask for a
    negative arc speed, the single step takes the vehicle, if it stays on
    its track, to the arc length [ts], with arc speed
    [2 (ts - s) / dt - sd]. *)
Theorem target_state_reaches_target (self : InteractionSimulator)
    (ssdot ns : ArcState) (act act' : list tfloat) (ex : list bool)
    (i : nat) (s sd ts : R) (tv m : tfloat) :
  _dt self <> 0 ->
  _state self !! i = Some (Fin s, Fin sd) ->
  ssdot !! i = Some (Fin ts, tv) ->
  smax self !! i = Some m ->
  target_state self ssdot 0 = Some act ->
  let a := 2 * (ts - s - _dt self * sd) / (_dt self * _dt self) in
  act !! i = Some (Fin a) /\
  (_min_acc self <= a <= _max_acc self ->
   0 <= 2 * (ts - s) / _dt self - sd ->
   next_state_of self (_state self) act = Some (ns, act', ex) ->
   ex !! i = Some false ->
   ns !! i = Some (Fin ts, Fin (2 * (ts - s) / _dt self - sd))).
Proof.
  intros Hdt Hs Ht Hm Hact a.
  assert (Hsd : sd + a * _dt self = 2 * (ts - s) / _dt self - sd).
  { unfold a. revert Hdt. generalize (_dt self). intros d Hd. field.
    exact Hd. }
  assert (Hts : s + 0.5 * _dt self * (2 * (ts - s) / _dt self - sd + sd)
                = ts).
  { revert Hdt. generalize (_dt self). intros d Hd.
    replace 0.5 with (1 / 2) by lra. field. exact Hd. }
  assert (Ha : act !! i = Some (Fin a)).
  { rewrite (target_state_lookup self ssdot 0 act i _ _ _ _ Hact Hs Ht).
    simpl. do 2 f_equal. unfold a. clear Hsd a. revert Hdt.
    generalize (_dt self). intros d Hd. field. exact Hd. }
  split; [exact Ha|]. intros Hb Hv E Hex.
  destruct (_next_state_lookup _ _ _ _ _ _ _ _ _ _ _ _ E Hs Ha Hm)
    as (a' & _ & Hor & Hex' & Hns).
  assert (a' = Fin a) as ->.
  { destruct Hor as [->| ->]; [reflexivity|]. now apply clamp_id. }
  cbv zeta in Hex', Hns.
  set (g := fgt _ m) in Hex', Hns.
  rewrite Hex in Hex'. apply (inj Some) in Hex'. rewrite <- Hex' in Hns.
  rewrite Hns. simpl.
  rewrite Hsd, Rmax_left by lra. now rewrite Hts.
Qed.

End TargetFacts.

(** ** One call of [step] *)

Section StepExtras.

Variable intersects : Polygon -> Polygon -> bool.
Variable action_space_contains : InteractionSimulator -> list tfloat -> bool.
Variable ssdot_to_simstates :
  list tfloat -> list tfloat ->
  Coefs -> Coefs -> Coefs -> Coefs -> Coefs -> Coefs -> list Pose.

Local Abbreviation step_of :=
  (step intersects action_space_contains ssdot_to_simstates).
Local Abbreviation next_state_of := (_next_state action_space_contains).
Local Abbreviation run_of :=
  (run intersects action_space_contains ssdot_to_simstates).

(** Every field after a call that returns. *)
Lemma step_returns_fields (self : InteractionSimulator)
    (action : list tfloat) (ns : ArcState) (act : list tfloat)
    (ex : list bool) :
  done self = false ->
  next_state_of (set_ind self (S (_ind self))) (_state self) action
  = Some (ns, act, ex) ->
  let nns := (fun st : tfloat * tfloat => negb (isnan st.1)) <$> _state self in
  let exc := zip_with orb (_exceeded self) ex in
  let mid := set_exceeded (set_state (set_ind self (S (_ind self))) ns) exc in
  let sp := should_spawn mid nns in
  exists self',
    step_of self action = (self', Returned sp) /\
    _svt self' = _svt self /\
    _ind self' = S (_ind self) /\
    _exceeded self' = exc /\
    _state self'
    = zip_with (fun st '(sp, v0) => if sp : bool then (st.1, v0) else st)
        (zip_with (fun st '(sp, s0) => if sp : bool then (s0, st.2) else st)
           ns (zip sp (svt_s0 (_svt self))))
        (zip sp (svt_v0 (_svt self))) /\
    (_stop_on_collision self' = _stop_on_collision self /\
     _check_collisions self' = _check_collisions self /\
     _min_acc self' = _min_acc self /\ _max_acc self' = _max_acc self /\
     _mask_relstate self' = _mask_relstate self) /\
    done self'
    = forallb (fun b : bool => b) exc
      || (_stop_on_collision self
          && check_collisions intersects
               (projected_state ssdot_to_simstates self')
               (_lengths self) (_widths self)).
Proof.
  intros Hd Hn. unfold step. rewrite Hd. cbv zeta.
  change (_state (set_ind self (S (_ind self)))) with (_state self).
  rewrite Hn.
  cbn [_stop_on_collision _check_collisions set_state set_exceeded set_done
       set_ind].
  match goal with
  | |- context [check_collisions ?i ?p ?l ?w] =>
      set (col := check_collisions i p l w)
  end.
  destruct (_stop_on_collision self) eqn:Hstop,
    (_check_collisions self) eqn:Hcheck, col eqn:Hcol;
    cbn [orb andb]; eexists; (split; [reflexivity|]);
    cbn [_svt _ind _exceeded _state _stop_on_collision _check_collisions
         _min_acc _max_acc _mask_relstate done set_state set_exceeded
         set_done set_ind];
    rewrite ?Hstop, ?Hcheck;
    repeat split;
    try (change (check_collisions intersects _ _ _) with col; rewrite Hcol);
    cbn [orb andb]; rewrite ?orb_true_r, ?orb_false_r; reflexivity.
Qed.

(** X12: when [step] raises on the way to its new state.  It raises
    exactly when the episode is done or a vehicle with a defined arc length
    is given an undefined action.  In the first case it changes nothing; in
    the second the time index has already advanced, and nothing else has
    changed. *)
Theorem step_raises_iff (self : InteractionSimulator) (action : list tfloat) :
  length action = length (_state self) ->
  ((step_of self action).2 = Raised <->
   done self = true \/
   exists i st, _state self !! i = Some st /\ isnan st.1 = false /\
                action !! i = Some NaN) /\
  ((step_of self action).2 = Raised ->
   let self' := (step_of self action).1 in
   _ind self' = (if done self then _ind self else S (_ind self)) /\
   _state self' = _state self /\ _exceeded self' = _exceeded self /\
   done self' = done self /\ _svt self' = _svt self).
Proof.
  intros _. destruct (done self) eqn:Hd.
  { rewrite step_raises_done by assumption. cbn [fst snd].
    split; [split; auto|]. intros _. now rewrite Hd. }
  destruct (next_state_of (set_ind self (S (_ind self))) (_state self) action)
    as [[[ns act] ex]|] eqn:Hn.
  - destruct (step_returns_fields self action ns act ex Hd Hn)
      as (self' & Hstep & _).
    cbv zeta in Hstep. rewrite Hstep. cbn [fst snd].
    split; [|discriminate]. split; [discriminate|].
    intros [?|H]; [discriminate|].
    apply (_next_state_raises action_space_contains
             (set_ind self (S (_ind self)))) in H.
    congruence.
  - rewrite step_raises_action by assumption. cbn [fst snd].
    split; [|intros _; repeat split; exact Hd].
    split; [|reflexivity]. intros _. right.
    now apply (_next_state_raises action_space_contains) in Hn.
Qed.

(** X13: which vehicles a returning call spawns.  Vehicle [i] satisfies the
    spawn condition exactly when its spawn time has come at the new time
    index, its exceeded flag is clear after the state update, and it was
    inactive before the call; it then starts at [(s0, v0)], and otherwise
    keeps the arc state the integrator gave it.  A vehicle that was active
    before the call is never put back to its spawn state. *)
Theorem step_spawn_rule (self : InteractionSimulator) (action : list tfloat)
    (ns : ArcState) (act : list tfloat) (ex : list bool)
    (i : nat) (st st_i : tfloat * tfloat) (e_old e_new : bool)
    (t0 s0 v0 : tfloat) :
  well_shaped self ->
  length action = _nv self ->
  done self = false ->
  next_state_of (set_ind self (S (_ind self))) (_state self) action
  = Some (ns, act, ex) ->
  _state self !! i = Some st -> ns !! i = Some st_i ->
  _exceeded self !! i = Some e_old -> ex !! i = Some e_new ->
  svt_t0 (_svt self) !! i = Some t0 ->
  svt_s0 (_svt self) !! i = Some s0 ->
  svt_v0 (_svt self) !! i = Some v0 ->
  let spawn :=
    fle t0 (Fin (svt_minT (_svt self) + _dt self * INR (S (_ind self))))
    && negb (e_old || e_new) && isnan st.1 in
  exists self' sp,
    step_of self action = (self', Returned sp) /\
    sp !! i = Some spawn /\
    _state self' !! i = Some (if spawn then (s0, v0) else st_i) /\
    (isnan st.1 = false -> _state self' !! i = Some st_i).
Proof.
  intros Hw Ha Hd Hn Hst Hns He Hex Ht0 Hs0 Hv0 spawn.
  destruct (step_returns_fields self action ns act ex Hd Hn)
    as (self' & Hstep & _ & _ & _ & Hstate & _).
  cbv zeta in Hstep, Hstate.
  set (sp := should_spawn _ _) in Hstep, Hstate.
  exists self', sp. split; [exact Hstep|].
  assert (Hi : (i < _nv self)%nat).
  { destruct Hw as (H1 & _). rewrite <- H1.
    apply lookup_lt_is_Some. eauto. }
  assert (Hsp : sp !! i = Some spawn).
  { unfold sp, should_spawn. cbv zeta.
    rewrite !lookup_zip_with, !list_lookup_fmap.
    cbn [_svt _exceeded set_exceeded set_state set_ind].
    rewrite Ht0, lookup_zip_with, He, Hex, Hst.
    change (_nv (set_exceeded _ _)) with (_nv self).
    rewrite (proj2 (lookup_replicate (_nv self) true true i)) by auto.
    cbn [fmap option_fmap option_map mbind option_bind].
    unfold spawn. rewrite negb_involutive, andb_true_r. reflexivity. }
  assert (Hst' : _state self' !! i = Some (if spawn then (s0, v0) else st_i)).
  { rewrite Hstate, !lookup_zip_with, Hns, Hsp, Hs0, Hv0.
    cbn [mbind option_bind]. now destruct spawn. }
  split; [exact Hsp|]. split; [exact Hst'|].
  intros Hact. rewrite Hst'. unfold spawn. rewrite Hact.
  now rewrite andb_false_r.
Qed.

(** X14: how an episode ends.  After a call that returns, the episode is
    done exactly when every exceeded flag is set, or the simulator stops on
    collisions and the new projected state has one.  Once the episode is
    done, further calls of [step] leave the simulator as it is. *)
Theorem episode_end (self : InteractionSimulator) :
  (forall action self' sp,
     step_of self action = (self', Returned sp) ->
     done self'
     = forallb (fun b : bool => b) (_exceeded self')
       || (_stop_on_collision self'
           && check_collisions intersects
                (projected_state ssdot_to_simstates self')
                (_lengths self') (_widths self'))) /\
  (done self = true -> forall actions, run_of self actions = self).
Proof.
  split.
  - intros action self' sp Hstep.
    destruct (done self) eqn:Hd.
    { rewrite step_raises_done in Hstep by assumption. discriminate. }
    destruct (next_state_of (set_ind self (S (_ind self))) (_state self)
                action) as [[[ns act] ex]|] eqn:Hn.
    2: { rewrite step_raises_action in Hstep by assumption. discriminate. }
    destruct (step_returns_fields self action ns act ex Hd Hn)
      as (self1 & Hstep1 & Hsvt & _ & Hexc & _ & (Hstop & _) & Hdone).
    cbv zeta in Hstep1. rewrite Hstep1 in Hstep.
    apply pair_equal_spec in Hstep as [<- _].
    unfold _lengths, _widths in *. now rewrite Hdone, Hexc, Hstop, Hsvt.
  - intros Hd actions. unfold run.
    induction actions as [|a actions IH]; [reflexivity|].
    simpl. now rewrite step_raises_done by assumption.
Qed.

(** X15: what a returning call keeps.  The time index advances by one and
    the time by one time step; the trajectory data and the configuration
    stay as they are; and the shapes of the fields still agree with the
    number of vehicles. *)
Theorem step_keeps_frame (self self' : InteractionSimulator)
    (action : list tfloat) (sp : list bool) :
  well_shaped self ->
  length action = _nv self ->
  step_of self action = (self', Returned sp) ->
  well_shaped self' /\
  length sp = _nv self /\
  _ind self' = S (_ind self) /\
  t self' = t self + _dt self /\
  _svt self' = _svt self /\
  _stop_on_collision self' = _stop_on_collision self /\
  _check_collisions self' = _check_collisions self /\
  _min_acc self' = _min_acc self /\ _max_acc self' = _max_acc self /\
  _mask_relstate self' = _mask_relstate self.
Proof.
  intros Hw Ha Hstep.
  destruct (well_shaped_step intersects action_space_contains
              ssdot_to_simstates self action Hw Ha) as [Hw' _].
  rewrite Hstep in Hw'. cbn [fst] in Hw'.
  destruct (done self) eqn:Hd.
  { rewrite step_raises_done in Hstep by assumption. discriminate. }
  destruct (next_state_of (set_ind self (S (_ind self))) (_state self)
              action) as [[[ns act] ex]|] eqn:Hn.
  2: { rewrite step_raises_action in Hstep by assumption. discriminate. }
  destruct (step_returns_fields self action ns act ex Hd Hn)
    as (self1 & Hstep1 & Hsvt & Hind & _ & _ & Hcfg & _).
  cbv zeta in Hstep1. rewrite Hstep1 in Hstep.
  apply pair_equal_spec in Hstep as [<- Hsp].
  destruct Hcfg as (H1 & H2 & H3 & H4 & H5).
  split; [exact Hw'|]. split.
  - injection Hsp as <-.
    destruct Hw as (W1 & W2 & W3 & W4 & W5 & W6).
    destruct (_next_state_lengths action_space_contains _ _ _ _ _ _
                (_nv self) Hn W1 Ha W3) as [_ Hlex].
    apply should_spawn_length.
    + reflexivity.
    + exact W4.
    + cbn [_exceeded set_exceeded]. rewrite length_zip_with, W2, Hlex.
      apply Nat.min_id.
    + now rewrite length_fmap.
  - repeat split; try assumption.
    unfold t, _dt. rewrite Hsvt, Hind, S_INR. lra.
Qed.

End StepExtras.

(** ** Rollouts *)

Section RolloutFacts.

Variable intersects : Polygon -> Polygon -> bool.
Variable action_space_contains : InteractionSimulator -> list tfloat -> bool.
Variable ssdot_to_simstates :
  list tfloat -> list tfloat ->
  Coefs -> Coefs -> Coefs -> Coefs -> Coefs -> Coefs -> list Pose.

Local Abbreviation propagate_profile_of :=
  (propagate_profile action_space_contains ssdot_to_simstates).
Local Abbreviation propagate_of :=
  (propagate_action_profile action_space_contains ssdot_to_simstates).
Local Abbreviation check_future_of :=
  (check_future_collisions intersects action_space_contains
     ssdot_to_simstates).




(** The projection yields one pose for each vehicle. *)
Hypothesis projection_length :
  forall (state : ArcState) xpoly dxpoly ddxpoly ypoly dypoly ddypoly,
    length (ssdot_to_simstates (fst <$> state) (snd <$> state)
              xpoly dxpoly ddxpoly ypoly dypoly ddypoly) = length state.

Lemma propagate_profile_frames (self : InteractionSimulator)
    (state : ArcState) (action : list (list tfloat)) (x : list (list Pose))
    (n : nat) :
  length state = n -> length (smax self) = n ->
  Forall (fun a => length a = n) action ->
  propagate_profile_of self state action = Some x ->
  Forall (fun x_t => length x_t = n) x.
Proof.
  intros Hs Hm Ha. revert state x Hs.
  induction Ha as [|a action Hla _ IH]; intros state x Hs H.
  - injection H as <-. constructor.
  - simpl in H.
    destruct (_next_state _ self state a) as [[[state' act] ex]|] eqn:E;
      [|discriminate].
    destruct (_next_state_lengths action_space_contains _ _ _ _ _ _ n E
                Hs Hla Hm) as [Hs' _].
    destruct (propagate_profile_of self state' action) as [x'|] eqn:Ex;
      [|discriminate].
    injection H as <-. constructor; [|exact (IH state' x' Hs' Ex)].
    unfold _project_state. cbv zeta.
    now rewrite length_fmap, projection_length.
Qed.

(** X17: [check_future_collisions] raises when the rollout does;
    otherwise it flags a profile exactly when the trajectory played from it
    has a collision counted by [count_collisions_trajectory]. *)
Theorem check_future_collisions_counts (self : InteractionSimulator)
    (actions : list (list (list tfloat))) :
  well_shaped self ->
  length (_lengths self) = _nv self ->
  length (_widths self) = _nv self ->
  Forall (Forall (fun a => length a = _nv self)) actions ->
  check_future_of self actions
  = fmap (M := list)
      (fun states_iB =>
         (0 <? count_collisions_trajectory intersects states_iB
                 (_lengths self) (_widths self))%nat)
    <$> propagate_of self actions.
Proof.
  intros Hw Hl Hwd Ha. unfold check_future_collisions.
  destruct (propagate_of self actions) as [states|] eqn:E; [|reflexivity].
  simpl. f_equal. apply list_fmap_ext. intros b x Hx.
  unfold propagate_action_profile in E.
  pose proof (length_mapM _ _ _ E) as Hlen.
  assert (Hb : (b < length actions)%nat).
  { rewrite Hlen. apply lookup_lt_is_Some. eauto. }
  destruct (lookup_lt_is_Some_2 actions b Hb) as [action Hact].
  assert (Hp : propagate_profile_of self (_state self) action = Some x).
  { apply mapM_Some_1 in E. rewrite Forall2_lookup in E. specialize (E b).
    rewrite Hact, Hx in E. now inversion E. }
  apply any_flag_iff_count; [congruence|].
  rewrite Hl. destruct Hw as (W1 & _ & W3 & _).
  apply (propagate_profile_frames self (_state self) action x (_nv self)
           W1 W3); [|exact Hp].
  rewrite Forall_lookup in Ha. exact (Ha b action Hact).
Qed.

End RolloutFacts.

(** ** Paths on the valid part of the track; relative state *)

Lemma generate_paths_entry (self : InteractionSimulator)
    (delta : R) (n : nat) (is_distance override : bool) (i k : nat)
    (s_i sd_i sm : tfloat) (px py dpx dpy : list tfloat) :
  (i < _nv self)%nat -> (k < n)%nat ->
  _state self !! i = Some (s_i, sd_i) ->
  smax self !! i = Some sm ->
  _xpoly self !! i = Some px -> _ypoly self !! i = Some py ->
  svt_dxpoly (_svt self) !! i = Some dpx ->
  svt_dypoly (_svt self) !! i = Some dpy ->
  let s := (increment delta n is_distance override s_i sd_i sm k + s_i)%tf in
  let position (p dp : list tfloat) :=
    if fle s sm then horner_scheme s p
    else (horner_scheme sm p + (s - sm) * horner_scheme sm dp)%tf in
  entry (_generate_paths self delta n is_distance override).1 i k
  = Some (position px dpx) /\
  entry (_generate_paths self delta n is_distance override).2 i k
  = Some (position py dpy).
Proof.
  intros Hi Hk Hst Hsm Hpx Hpy Hdpx Hdpy s position.
  unfold _generate_paths. cbv zeta. cbn [fst snd].
  pose proof (entry_steps (_nv self) n i k Hi Hk) as Hsteps.
  set (steps := replicate (_nv self) (arange1 n)) in *.
  set (ds := if override then _ else _).
  assert (Hds : entry ds i k
                = Some (increment delta n is_distance override s_i sd_i sm k)).
  { unfold ds, increment. destruct override; [|destruct is_distance].
    - rewrite entry_bcast_col, Hsteps. simpl.
      now rewrite lookup_zip_with, list_lookup_fmap, Hsm, Hst.
    - now rewrite entry_map2d, Hsteps.
    - rewrite entry_bcast_col, Hsteps. simpl.
      now rewrite list_lookup_fmap, Hst. }
  set (sg := bcast_col fadd ds (fst <$> _state self)).
  assert (Hs : entry sg i k = Some s).
  { unfold sg. rewrite entry_bcast_col, Hds. simpl.
    now rewrite list_lookup_fmap, Hst. }
  assert (Hn : entry (bcast_col fle sg (smax self)) i k = Some (fle s sm)).
  { rewrite entry_bcast_col, Hs. simpl. now rewrite Hsm. }
  split.
  - rewrite entry_ew2, Hn. simpl.
    rewrite entry_ew2, !entry_bcast_col, Hs. simpl.
    rewrite !lookup_zip_with, Hsm, Hpx, Hdpx. simpl.
    unfold position. now destruct (fle s sm).
  - rewrite entry_ew2, Hn. simpl.
    rewrite entry_ew2, !entry_bcast_col, Hs. simpl.
    rewrite !lookup_zip_with, Hsm, Hpy, Hdpy. simpl.
    unfold position. now destruct (fle s sm).
Qed.

Lemma override_fraction (c N K : R) :
  0 <= c -> 1 <= K <= N ->
  0 <= c / N * (N - 1) / N * K <= c.
Proof.
  intros Hc [HK HN].
  set (a := (N - 1) / N). set (b := K / N).
  assert (Ha : 0 <= a <= 1).
  { unfold a. split.
    - apply Rmult_le_reg_r with N; [lra|]. unfold Rdiv.
      rewrite Rmult_assoc, Rinv_l by lra. lra.
    - apply Rmult_le_reg_r with N; [lra|]. unfold Rdiv.
      rewrite Rmult_assoc, Rinv_l by lra. lra. }
  assert (Hb : 0 <= b <= 1).
  { unfold b. split.
    - apply Rmult_le_reg_r with N; [lra|]. unfold Rdiv.
      rewrite Rmult_assoc, Rinv_l by lra. lra.
    - apply Rmult_le_reg_r with N; [lra|]. unfold Rdiv.
      rewrite Rmult_assoc, Rinv_l by lra. lra. }
  replace (c / N * (N - 1) / N * K) with (c * (a * b))
    by (unfold a, b; field; lra).
  assert (0 <= a * b <= 1) by nra.
  nra.
Qed.

(** X18: with [override], the points of [_generate_paths] stay on the valid
    part of the path.  For an active vehicle at arc length [s] on a track of
    length [m >= s], the sample [k] of [n] is taken at the arc length
    [s + (m - s) / n * (n - 1) / n * (k + 1)], which lies between [s] and
    [m]; its position is the Horner evaluation of the position polynomials
    there, never the extrapolation. *)
Theorem override_stays_on_track (self : InteractionSimulator)
    (delta : R) (n : nat) (is_distance : bool) (i k : nat)
    (s m : R) (sd : tfloat) (px py dpx dpy : list tfloat) :
  (i < _nv self)%nat -> (k < n)%nat ->
  _state self !! i = Some (Fin s, sd) ->
  smax self !! i = Some (Fin m) ->
  s <= m ->
  _xpoly self !! i = Some px -> _ypoly self !! i = Some py ->
  svt_dxpoly (_svt self) !! i = Some dpx ->
  svt_dypoly (_svt self) !! i = Some dpy ->
  let s_k := (m - s) / INR n * (INR n - 1) / INR n * INR (S k) + s in
  s <= s_k <= m /\
  entry (_generate_paths self delta n is_distance true).1 i k
  = Some (horner_scheme (Fin s_k) px) /\
  entry (_generate_paths self delta n is_distance true).2 i k
  = Some (horner_scheme (Fin s_k) py).
Proof.
  intros Hi Hk Hst Hsm Hle Hpx Hpy Hdpx Hdpy s_k.
  assert (Hb : s <= s_k <= m).
  { assert (HK : 1 <= INR (S k) <= INR n).
    { split.
      - replace 1 with (INR 1) by reflexivity. apply le_INR. lia.
      - apply le_INR. lia. }
    pose proof (override_fraction (m - s) (INR n) (INR (S k))
                  ltac:(lra) HK).
    unfold s_k. lra. }
  split; [exact Hb|].
  destruct (generate_paths_entry self delta n is_distance true i k
              (Fin s) sd (Fin m) px py dpx dpy Hi Hk Hst Hsm Hpx Hpy
              Hdpx Hdpy) as [Hx Hy].
  cbv zeta in Hx, Hy.
  change (increment delta n is_distance true (Fin s) sd (Fin m) k
          + Fin s)%tf with (Fin s_k) in Hx, Hy.
  rewrite (proj2 (fle_true s_k m)) in Hx, Hy by lra.
  split; assumption.
Qed.

Lemma fsub_antisym (a b : tfloat) : (a - b)%tf = fneg (b - a)%tf.
Proof. destruct a, b; simpl; try reflexivity. f_equal. lra. Qed.

Section RelativeStateExtras.

Variable adjacency_matrix : InteractionSimulator -> nat -> list (list bool).

(** X19: without masking, the relative state is antisymmetric off the
    diagonal in every channel but the heading: the entry [(j, i)] is the
    negative of the entry [(i, j)] in position, velocity and yaw rate,
    undefined where that one is. *)
Theorem relative_state_antisymmetric (self : InteractionSimulator)
    (projstate : list Pose) (i j : nat) (p_i p_j : Pose) :
  _mask_relstate self = false ->
  projstate !! i = Some p_i -> projstate !! j = Some p_j ->
  i <> j ->
  exists dx dy dvx dvy dpsi dpsi' dpsidot,
    entry (_relative_state adjacency_matrix self projstate) i j
    = Some (dx, dy, dvx, dvy, dpsi, dpsidot) /\
    entry (_relative_state adjacency_matrix self projstate) j i
    = Some (fneg dx, fneg dy, fneg dvx, fneg dvy, dpsi', fneg dpsidot).
Proof.
  intros Hmask Hi Hj Hne.
  unfold _relative_state. rewrite Hmask. cbv zeta.
  rewrite !(entry_imap2 (fun i j (r : RelPose) =>
                           if decide (i = j) then nan6 else r)).
  rewrite !entry_map2d.
  rewrite !(entry_outer (fun p_i p_j : RelPose => sub6 p_j p_i)).
  rewrite !list_lookup_fmap, Hi, Hj.
  destruct p_i as [[[[x_i y_i] v_i] psi_i] pd_i].
  destruct p_j as [[[[x_j y_j] v_j] psi_j] pd_j].
  cbn [fmap option_fmap option_map mbind option_bind sub6].
  rewrite !decide_False by auto.
  do 7 eexists. split; [reflexivity|].
  now rewrite (fsub_antisym x_i x_j), (fsub_antisym y_i y_j),
    (fsub_antisym (v_i * fcos psi_i) (v_j * fcos psi_j)),
    (fsub_antisym (v_i * fsin psi_i) (v_j * fsin psi_j)),
    (fsub_antisym pd_i pd_j).
Qed.

End RelativeStateExtras.

(** ** The further properties on the scenes *)

Lemma fgt_false (x m : R) : fgt (Fin x) (Fin m) = false <-> x <= m.
Proof.
  simpl. destruct (Rlt_dec m x); split; auto; try discriminate; lra.
Qed.

(** One step of the one-vehicle scene, from any arc state and with any
    action within the bounds. *)
Lemma one_vehicle_run (self : InteractionSimulator) (s sd : tfloat) (a : R) :
  _svt self = svt_one -> _min_acc self = -10 -> _max_acc self = 10 ->
  -10 <= a <= 10 ->
  let nextv := clamp_min 0 (sd + Fin a * Fin 1)%tf in
  let s' := (s + Fin (0.5 * 1) * (nextv + sd))%tf in
  exists act,
    _next_state within_bounds self [(s, sd)] [Fin a]
    = Some ([if fgt s' (Fin 100) then (NaN, NaN) else (s', nextv)],
            act, [fgt s' (Fin 100)]) /\
    act !! 0%nat = Some (Fin a).
Proof.
  intros Hsvt Hlo Hhi Ha nextv s'.
  assert (Hm : smax self !! 0%nat = Some (Fin 100))
    by (unfold smax; now rewrite Hsvt).
  assert (Hdt : _dt self = 1) by (unfold _dt; now rewrite Hsvt).
  destruct (_next_state within_bounds self [(s, sd)] [Fin a])
    as [[[ns act] ex]|] eqn:E.
  - destruct (_next_state_lookup within_bounds self _ _ _ _ _ 0%nat
                s sd (Fin a) (Fin 100) E eq_refl eq_refl Hm)
      as (a' & Hact & Hor & Hex & Hns).
    assert (a' = Fin a) as ->.
    { destruct Hor as [->| ->]; [reflexivity|].
      apply clamp_id. rewrite Hlo, Hhi. exact Ha. }
    cbv zeta in Hex, Hns. rewrite Hdt in Hex, Hns.
    fold nextv in Hex, Hns. fold s' in Hex, Hns.
    destruct (_next_state_lengths within_bounds _ _ _ _ _ _ 1%nat E
                eq_refl eq_refl) as [Hl1 Hl2].
    { unfold smax. now rewrite Hsvt. }
    destruct ns as [|st [|]]; try discriminate.
    destruct ex as [|e [|]]; try discriminate.
    simpl in Hex, Hns. injection Hex as ->. injection Hns as ->.
    exists act. split; [reflexivity|exact Hact].
  - apply _next_state_raises in E.
    destruct E as ([|[|j]] & st & Hs & Hn & Hj); discriminate.
Qed.

Lemma mid_track_run (k : nat) :
  exists act,
    _next_state within_bounds (set_ind sim_mid k) [(Fin 10, Fin 5)] [Fin 0]
    = Some ([(Fin (10 + 0.5 * 1 * (Rmax (5 + 0 * 1) 0 + 5)),
              Fin (Rmax (5 + 0 * 1) 0))], act, [false]) /\
    act !! 0%nat = Some (Fin 0).
Proof.
  destruct (one_vehicle_run (set_ind sim_mid k) (Fin 10) (Fin 5) 0
              eq_refl eq_refl eq_refl ltac:(lra)) as (act & E & Hact).
  cbv zeta in E.
  assert (Hg : fgt (Fin 10 + Fin (0.5 * 1) *
                      (clamp_min 0 (Fin 5 + Fin 0 * Fin 1) + Fin 5))%tf
                 (Fin 100) = false).
  { apply fgt_false. rewrite Rmax_left by lra. lra. }
  rewrite Hg in E. exists act. split; [exact E|exact Hact].
Qed.

Lemma waiting_run (k : nat) :
  exists act,
    _next_state within_bounds (set_ind sim_wait k) [(NaN, NaN)] [Fin 0]
    = Some ([(NaN, NaN)], act, [false]).
Proof.
  destruct (one_vehicle_run (set_ind sim_wait k) NaN NaN 0
              eq_refl eq_refl eq_refl ltac:(lra)) as (act & E & _).
  exists act. exact E.
Qed.

Lemma straight_projection_length (state : ArcState)
    (xpoly dxpoly ddxpoly ypoly dypoly ddypoly : Coefs) :
  length (straight_projection (fst <$> state) (snd <$> state)
            xpoly dxpoly ddxpoly ypoly dypoly ddypoly) = length state.
Proof.
  unfold straight_projection.
  rewrite length_zip_with, !length_fmap. apply Nat.min_id.
Qed.

(** X1 and X2 on the two vehicles one unit apart. *)
Lemma count_collisions_counts_pairs_together :
  count_collisions bbox_intersects frame_together lengths2 widths2
  = length (filter (fun '(a, b) =>
                      collides bbox_intersects frame_together lengths2
                        widths2 a b = true)
              (upairs (length lengths2))).
Proof.
  exact (count_collisions_counts_pairs bbox_intersects frame_together
           lengths2 widths2 eq_refl eq_refl).
Defined.

Lemma check_collisions_iff_some_pair_together :
  check_collisions bbox_intersects frame_together lengths2 widths2 = true.
Proof.
  apply (check_collisions_iff_some_pair bbox_intersects frame_together
           lengths2 widths2 eq_refl eq_refl).
  exists 1%nat, 0%nat. repeat split; [discriminate|].
  exact together_intersect.
Defined.

(** X3 on the frame whose second vehicle has not been spawned. *)
Lemma lone_vehicle_never_collides_alone :
  count_collisions bbox_intersects frame_alone lengths2 widths2 = 0%nat /\
  check_collisions bbox_intersects frame_alone lengths2 widths2 = false.
Proof.
  destruct (lone_vehicle_never_collides bbox_intersects frame_alone
              lengths2 widths2 eq_refl eq_refl) as (_ & Hc & Hf).
  - intros [|[|a]] [|[|b]]; try reflexivity; discriminate.
  - split; assumption.
Defined.

(** X4 and X5 on the six frames. *)
Lemma trajectory_flagged_iff_counted_six_frames :
  existsb (fun b : bool => b)
    (check_collisions_trajectory bbox_intersects trajectory6 lengths2 widths2)
  = (0 <? count_collisions_trajectory bbox_intersects trajectory6
            lengths2 widths2)%nat.
Proof.
  exact (trajectory_flagged_iff_counted bbox_intersects trajectory6
           lengths2 widths2 eq_refl trajectory6_shape).
Defined.

Lemma trajectory_count_bounds_six_frames :
  (count_collisions bbox_intersects frame_together lengths2 widths2
   <= count_collisions_trajectory bbox_intersects trajectory6
        lengths2 widths2)%nat /\
  (count_collisions_trajectory bbox_intersects trajectory6 lengths2 widths2
   <= sum_list
        ((fun x_t => count_collisions bbox_intersects x_t lengths2 widths2)
           <$> trajectory6))%nat.
Proof.
  destruct (trajectory_count_bounds bbox_intersects trajectory6
              lengths2 widths2 eq_refl trajectory6_shape) as [Hlo Hhi].
  split; [|exact Hhi]. apply Hlo.
  unfold trajectory6. do 2 right. left.
Defined.

(** X7 on the scene: a requested acceleration of 25 is applied as 10. *)
Lemma applied_action_nearest_bound_on_scene :
  exists ns act ex,
    _next_state within_bounds sim_mid [(Fin 10, Fin 5)] [Fin 25]
    = Some (ns, act, ex) /\
    act !! 0%nat = Some (Fin 10).
Proof.
  assert (Hb : _min_acc sim_mid <= _max_acc sim_mid) by (simpl; lra).
  destruct (_next_state within_bounds sim_mid [(Fin 10, Fin 5)] [Fin 25])
    as [[[ns act] ex]|] eqn:E.
  - exists ns, act, ex. split; [reflexivity|].
    destruct (proj1 (applied_action_nearest_bound within_bounds
                       within_bounds_sound sim_mid Hb)
                _ _ _ _ _ 0%nat (Fin 25) E eq_refl)
      as (y & Hy & _ & _ & Hhi & _).
    rewrite Hy. do 2 f_equal. apply Hhi. simpl. lra.
  - apply _next_state_raises in E.
    destruct E as ([|[|i]] & st & Hs & Hn & Hi); discriminate.
Defined.

(** X8 on the scene: from arc length 10 at speed 5 the vehicle moves on, to
    arc length 15. *)
Lemma never_moves_backward_on_scene :
  exists ns act ex s' sd',
    _next_state within_bounds sim_mid [(Fin 10, Fin 5)] [Fin 0]
    = Some (ns, act, ex) /\
    ns !! 0%nat = Some (Fin s', Fin sd') /\ 10 <= s' <= 100 /\ 0 <= sd'.
Proof.
  destruct (mid_track_run 0) as (act & E & _).
  destruct (never_moves_backward within_bounds sim_mid _ _ _ _ _ 0%nat
              10 5 100 (Fin 0) E eq_refl eq_refl eq_refl eq_refl)
    as (s' & sd' & H).
  - unfold _dt. simpl. lra.
  - lra.
  - eexists _, act, _, s', sd'. split; [exact E|exact H].
Defined.

(** X9 on the scene: the batch of the one state and action. *)
Lemma batch_agrees_with_single_step_on_scene :
  exists ns act ex,
    _next_state within_bounds sim_mid [(Fin 10, Fin 5)] [Fin 0]
    = Some (ns, act, ex) /\
    (_next_state_batch sim_mid [[(Fin 10, Fin 5)]] [[Fin 0]]).1.1 = [ns] /\
    (_next_state_batch sim_mid [[(Fin 10, Fin 5)]] [[Fin 0]]).2 = [ex].
Proof.
  destruct (mid_track_run 0) as (act & E & _).
  assert (Hinv : forall (i : nat) (s sd : tfloat),
            [(Fin 10, Fin 5)] !! i = Some (s, sd) -> isnan s = true ->
            isnan sd = true).
  { intros [|[|i]] s sd; [intros [= <- <-]| |]; discriminate. }
  destruct (batch_agrees_with_single_step within_bounds within_bounds_sound
              sim_mid [(Fin 10, Fin 5)] _ [Fin 0] act _ eq_refl eq_refl
              Hinv E) as (H1 & H2 & _).
  eexists _, act, _. split; [exact E|]. split; assumption.
Defined.

(** X10 on the scene: a target of arc length 16 is turned into an action
    the step accepts. *)
Lemma target_state_is_accepted_on_scene :
  exists act,
    target_state sim_mid [(Fin 16, Fin 7)] 0 = Some act /\
    length act = 1%nat /\
    _next_state within_bounds sim_mid (_state sim_mid) act <> None.
Proof.
  assert (Hinv : forall (i : nat) (s sd : tfloat),
            [(Fin 10, Fin 5)] !! i = Some (s, sd) -> isnan s = false ->
            isnan sd = false).
  { intros [|[|i]] s sd;
      [intros [= <- <-] _; reflexivity|discriminate|discriminate]. }
  assert (Hdt : _dt sim_mid <> 0) by (unfold _dt; simpl; lra).
  assert (Hdiv : _dt sim_mid ^ 2 + 4 * 0 / _dt sim_mid ^ 2 <> 0).
  { change (_dt sim_mid) with 1.
    replace (1 ^ 2 + 4 * 0 / 1 ^ 2) with 1 by field. lra. }
  destruct (target_state_is_accepted within_bounds sim_mid
              [(Fin 16, Fin 7)] 0 Hdt Hdiv eq_refl Hinv) as [_ H].
  eexists. split; [reflexivity|].
  destruct (H _ eq_refl) as (Hl & _ & _ & Hok). split; assumption.
Defined.

(** X11 on the scene: from arc length 10 at speed 5, the target 16 asks for
    the acceleration 2, and the step takes the vehicle to arc length 16 at
    speed 7. *)
Lemma target_state_reaches_target_on_scene :
  exists act ns act' ex,
    target_state sim_mid [(Fin 16, Fin 7)] 0 = Some act /\
    act !! 0%nat = Some (Fin (2 * (16 - 10 - 1 * 5) / (1 * 1))) /\
    _next_state within_bounds sim_mid (_state sim_mid) act
    = Some (ns, act', ex) /\
    ns !! 0%nat = Some (Fin 16, Fin (2 * (16 - 10) / 1 - 5)).
Proof.
  set (a0 := 2 * (16 - 10 - 1 * 5) / (1 ^ 2 + 4 * 0 / 1 ^ 2)).
  assert (Ha0 : a0 = 2) by (unfold a0; field).
  assert (Hact : target_state sim_mid [(Fin 16, Fin 7)] 0 = Some [Fin a0])
    by reflexivity.
  destruct (one_vehicle_run sim_mid (Fin 10) (Fin 5) a0
              eq_refl eq_refl eq_refl ltac:(lra)) as (act' & E & _).
  cbv zeta in E.
  assert (Hg : fgt (Fin 10 + Fin (0.5 * 1) *
                      (clamp_min 0 (Fin 5 + Fin a0 * Fin 1) + Fin 5))%tf
                 (Fin 100) = false).
  { apply fgt_false. rewrite Ha0, Rmax_left by lra. lra. }
  rewrite Hg in E.
  match type of E with _ = Some (?n, _, _) => set (ns := n) in E end.
  assert (Hdt : _dt sim_mid <> 0) by (unfold _dt; simpl; lra).
  destruct (target_state_reaches_target within_bounds sim_mid
              [(Fin 16, Fin 7)] ns [Fin a0] act' [false] 0%nat 10 5 16
              (Fin 7) (Fin 100) Hdt eq_refl eq_refl eq_refl Hact)
    as [H1 H2].
  exists [Fin a0], ns, act', [false].
  split; [exact Hact|]. split; [exact H1|]. split; [exact E|].
  apply H2.
  - change (_dt sim_mid) with 1. change (_min_acc sim_mid) with (-10).
    change (_max_acc sim_mid) with 10.
    replace (2 * (16 - 10 - 1 * 5) / (1 * 1)) with 2 by field. lra.
  - change (_dt sim_mid) with 1. lra.
  - exact E.
  - reflexivity.
Defined.

(** X12 on the scene: an undefined action for the active vehicle makes
    [step] raise, the time index already advanced. *)
Lemma step_raises_iff_on_scene :
  let out := step bbox_intersects within_bounds straight_projection
               sim_one [NaN] in
  out.2 = Raised /\ _ind out.1 = 1%nat /\ _state out.1 = _state sim_one.
Proof.
  intros out.
  destruct (step_raises_iff bbox_intersects within_bounds
              straight_projection sim_one [NaN] eq_refl) as [Hiff Hkeep].
  assert (Hr : out.2 = Raised).
  { apply Hiff. right. exists 0%nat, (Fin 99, Fin 5). repeat split. }
  destruct (Hkeep Hr) as (Hind & Hstate & _).
  split; [exact Hr|]. split; [exact Hind|exact Hstate].
Defined.

(** X13 on the scene: the waiting vehicle, whose spawn time has come, is
    put on its track at [(s0, v0)]. *)
Lemma step_spawn_rule_on_scene :
  exists self' sp,
    step bbox_intersects within_bounds straight_projection sim_wait [Fin 0]
    = (self', Returned sp) /\
    sp !! 0%nat = Some true /\
    _state self' !! 0%nat = Some (Fin 0, Fin 5).
Proof.
  destruct (waiting_run 1) as [act E].
  assert (Hw : well_shaped sim_wait) by (repeat split).
  destruct (step_spawn_rule bbox_intersects within_bounds
              straight_projection sim_wait [Fin 0] [(NaN, NaN)] act [false]
              0%nat (NaN, NaN) (NaN, NaN) false false
              (Fin 0) (Fin 0) (Fin 5) Hw eq_refl eq_refl E
              eq_refl eq_refl eq_refl eq_refl eq_refl eq_refl eq_refl)
    as (self' & sp & Hstep & Hsp & Hst & _).
  assert (Hspawn : fle (Fin 0)
                     (Fin (svt_minT (_svt sim_wait)
                           + _dt sim_wait * INR (S (_ind sim_wait))))
                   = true).
  { apply fle_true. unfold _dt. simpl. lra. }
  rewrite Hspawn in Hsp, Hst.
  exists self', sp. split; [exact Hstep|]. split; [exact Hsp|exact Hst].
Defined.

(** X14 on the scene: a finished episode is left as it is. *)
Lemma episode_end_on_scene :
  run bbox_intersects within_bounds straight_projection sim_done
    [[Fin 0]; [Fin 3]]
  = sim_done.
Proof.
  exact (proj2 (episode_end bbox_intersects within_bounds
                  straight_projection sim_done) eq_refl [[Fin 0]; [Fin 3]]).
Defined.

(** X15 on the scene: one step from the middle of the track. *)
Lemma step_keeps_frame_on_scene :
  exists self' sp,
    step bbox_intersects within_bounds straight_projection sim_mid [Fin 0]
    = (self', Returned sp) /\
    well_shaped self' /\ length sp = 1%nat /\ _ind self' = 1%nat /\
    t self' = t sim_mid + _dt sim_mid.
Proof.
  destruct (mid_track_run 1) as (act & E & _).
  destruct (step_returns_fields bbox_intersects within_bounds
              straight_projection sim_mid [Fin 0] _ act [false] eq_refl E)
    as (self' & Hstep & _).
  cbv zeta in Hstep.
  assert (Hw : well_shaped sim_mid) by (repeat split).
  destruct (step_keeps_frame bbox_intersects within_bounds
              straight_projection sim_mid self' [Fin 0] _ Hw eq_refl Hstep)
    as (Hw' & Hl & Hind & Ht & _).
  eexists self', _. split; [exact Hstep|].
  split; [exact Hw'|]. split; [exact Hl|]. split; [exact Hind|exact Ht].
Defined.


(** X17 on the scene, with a projection that yields one pose for each
    vehicle. *)
Lemma check_future_collisions_counts_on_scene :
  check_future_collisions bbox_intersects within_bounds straight_projection
    sim_mid [[[Fin 0]; [Fin 1]]]
  = fmap (M := list)
      (fun states_iB =>
         (0 <? count_collisions_trajectory bbox_intersects states_iB
                 (_lengths sim_mid) (_widths sim_mid))%nat)
    <$> propagate_action_profile within_bounds straight_projection
          sim_mid [[[Fin 0]; [Fin 1]]].
Proof.
  apply (check_future_collisions_counts bbox_intersects within_bounds
           straight_projection straight_projection_length sim_mid
           [[[Fin 0]; [Fin 1]]]).
  - repeat split.
  - reflexivity.
  - reflexivity.
  - repeat constructor.
Defined.

(** X18 on the scene: the first of two samples from arc length 10 on the
    track of length 100. *)
Lemma override_stays_on_track_on_scene :
  let s_k := (100 - 10) / INR 2 * (INR 2 - 1) / INR 2 * INR 1 + 10 in
  10 <= s_k <= 100 /\
  entry (_generate_paths sim_mid 10 2 true true).1 0 0
  = Some (horner_scheme (Fin s_k) [Fin 1; Fin 0]).
Proof.
  intros s_k.
  destruct (override_stays_on_track sim_mid 10 2 true 0 0 10 100 (Fin 5)
              [Fin 1; Fin 0] [Fin 0] [Fin 1] [Fin 0]
              ltac:(unfold _nv; simpl; lia) ltac:(lia)
              eq_refl eq_refl ltac:(lra) eq_refl eq_refl eq_refl eq_refl)
    as (Hb & Hx & _).
  split; [exact Hb|exact Hx].
Defined.

(** X19 on the two vehicles one unit apart. *)
Lemma relative_state_antisymmetric_together :
  exists dx dy dvx dvy dpsi dpsi' dpsidot,
    entry (_relative_state no_edges (sim_two false) frame_together) 0 1
    = Some (dx, dy, dvx, dvy, dpsi, dpsidot) /\
    entry (_relative_state no_edges (sim_two false) frame_together) 1 0
    = Some (fneg dx, fneg dy, fneg dvx, fneg dvy, dpsi', fneg dpsidot).
Proof.
  exact (relative_state_antisymmetric no_edges (sim_two false)
           frame_together 0 1 (pose_at 0 0) (pose_at 0 1)
           eq_refl eq_refl eq_refl ltac:(discriminate)).
Defined.

(** X20 on the scene: the waiting vehicle comes out of the integrator
    still waiting. *)
Lemma inactive_stays_inactive_on_scene :
  exists ns act ex sd',
    _next_state within_bounds sim_wait [(NaN, NaN)] [Fin 0]
    = Some (ns, act, ex) /\
    ns !! 0%nat = Some (NaN, sd') /\ ex !! 0%nat = Some false.
Proof.
  destruct (waiting_run 0) as [act E].
  destruct (proj1 (inactive_stays_inactive within_bounds sim_wait)
              [(NaN, NaN)] [(NaN, NaN)] [Fin 0] act [false] 0%nat NaN
              (Fin 0) (Fin 100) E eq_refl eq_refl eq_refl)
    as (sd' & Hns & Hex).
  exists [(NaN, NaN)], act, [false], sd'.
  split; [exact E|]. split; [exact Hns|exact Hex].
Defined.
